(** * create-figdata: a shallow embedding of [src/index.js]

    The script creates a Bitbucket repository, clones a template, points the
    clone at the new remote and rewrites two fields of [package.json].  The
    source file holds two variants of the script: one built on [execSync],
    [rmSync] and [process.chdir], one built on the [$] of zx.

    Layout: JavaScript data (strings, numbers, JSON values), the JSON codec
    ([JSON.parse], [JSON.stringify]), errors and the effect monad, the world
    the script talks to, the functions of the script, then the theorems. *)

From Stdlib Require Import String Ascii List ZArith Lia Bool Arith.
From Stdlib Require Import DecimalString DecimalN DecimalNat.
Import ListNotations.
Open Scope string_scope.

(** ** Strings

    A JavaScript string is modelled by the bytes of its UTF-8 encoding, the
    form in which it is read from and written to files. *)

Module Str.

Definition dquote : ascii := "034"%char.
Definition backslash : ascii := "092"%char.
Definition nl : ascii := "010"%char.

Definition q : string := String dquote EmptyString.
Definition newline : string := String nl EmptyString.

Fixpoint repeat_char (c : ascii) (n : nat) : string :=
  match n with
  | O => EmptyString
  | S m => String c (repeat_char c m)
  end.

Definition is_empty (s : string) : bool :=
  match s with
  | EmptyString => true
  | String _ _ => false
  end.

Definition head_is (p : ascii -> bool) (s : string) : bool :=
  match s with
  | EmptyString => false
  | String c _ => p c
  end.

Fixpoint forallb (p : ascii -> bool) (s : string) : bool :=
  match s with
  | EmptyString => true
  | String c r => p c && forallb p r
  end.

Fixpoint join (sep : string) (l : list string) : string :=
  match l with
  | [] => EmptyString
  | [x] => x
  | x :: r => x ++ sep ++ join sep r
  end.

Definition is_digit (c : ascii) : bool :=
  let n := nat_of_ascii c in (48 <=? n)%nat && (n <=? 57)%nat.

(** The longest run of characters satisfying [p] at the head of [s], and the
    rest. *)
Fixpoint span (p : ascii -> bool) (s : string) : string * string :=
  match s with
  | EmptyString => (EmptyString, EmptyString)
  | String c r =>
      if p c then let (a, b) := span p r in (String c a, b)
      else (EmptyString, s)
  end.

(** [String.prototype.toLowerCase], on the ASCII letters. *)
Definition lower_char (c : ascii) : ascii :=
  let n := nat_of_ascii c in
  if (65 <=? n)%nat && (n <=? 90)%nat then ascii_of_nat (n + 32) else c.

Fixpoint toLowerCase (s : string) : string :=
  match s with
  | EmptyString => EmptyString
  | String c r => String (lower_char c) (toLowerCase r)
  end.

(** Words of a line separated by blanks (no empty word). *)
Fixpoint words_aux (cur : string) (s : string) : list string :=
  match s with
  | EmptyString => if is_empty cur then [] else [cur]
  | String c r =>
      if Ascii.eqb c " "
      then (if is_empty cur then words_aux EmptyString r
            else cur :: words_aux EmptyString r)
      else words_aux (cur ++ String c EmptyString) r
  end.

Definition words (s : string) : list string := words_aux EmptyString s.

Definition nat_to_string (n : nat) : string :=
  NilZero.string_of_uint (Nat.to_uint n).

End Str.

(** ** Numbers

    A JavaScript number other than NaN.  A finite one, a double, is kept
    as the decimal form [Number::toString] prints for it, the shortest that
    reads back as this double: a sign, the significant digits [d1 .. dk]
    (no leading and no trailing zero) and the position [n] of the decimal
    point, for the value [0.d1..dk * 10^n].  Zero has no digit, and [-0] is
    not told from [0]: the script looks at a number through [ToBoolean],
    [ToString] and [JSON.stringify] only, which do not tell them apart.
    An infinite one has its sign only. *)

Record number : Type := mkNumber {
  num_neg : bool;
  num_digits : string;
  num_point : Z;
  num_infinite : bool
}.

Module Num.

Definition zero : number := mkNumber false EmptyString 0 false.

Definition infinity (neg : bool) : number := mkNumber neg EmptyString 0 true.

Definition is_zero (x : number) : bool :=
  negb (num_infinite x) && Str.is_empty (num_digits x).

Definition signed (neg : bool) (x : number) : number :=
  mkNumber neg (num_digits x) (num_point x) (num_infinite x).

Definition eqb (x y : number) : bool :=
  Bool.eqb (num_neg x) (num_neg y) && String.eqb (num_digits x) (num_digits y) &&
  (num_point x =? num_point y)%Z && Bool.eqb (num_infinite x) (num_infinite y).

Definition zeros (n : nat) : string := Str.repeat_char "0" n.

Definition is_zero_char (c : ascii) : bool := Ascii.eqb c "0".

Fixpoint strip_trailing (s : string) : string :=
  match s with
  | EmptyString => EmptyString
  | String c r =>
      let r' := strip_trailing r in
      if is_zero_char c && Str.is_empty r' then EmptyString else String c r'
  end.

(** Reading of the digits [ds] with the decimal point after the first [p]
    of them: leading zeros move the point, trailing zeros are dropped. *)
Fixpoint strip_leading (ds : string) (p : Z) : string * Z :=
  match ds with
  | EmptyString => (EmptyString, p)
  | String c r =>
      if is_zero_char c then strip_leading r (p - 1) else (ds, p)
  end.

Definition normalize (neg : bool) (ds : string) (p : Z) : number :=
  let (ds1, p1) := strip_leading ds p in
  let ds2 := strip_trailing ds1 in
  if Str.is_empty ds2 then zero else mkNumber neg ds2 p1 false.

Definition decimal (n : N) : string := NilZero.string_of_uint (N.to_uint n).

Definition digits_value (s : string) : option N :=
  match NilEmpty.uint_of_string s with
  | Some u => Some (N.of_uint u)
  | None => None
  end.

(** [Number::toString] (ECMA-262, radix 10). *)
Definition toString (x : number) : string :=
  if num_infinite x then (if num_neg x then "-Infinity" else "Infinity") else
  match num_digits x with
  | EmptyString => "0"
  | String d ds =>
      let digits := String d ds in
      let k := Z.of_nat (String.length digits) in
      let n := num_point x in
      (if num_neg x then "-" else EmptyString) ++
      (if (k <=? n)%Z && (n <=? 21)%Z then
         digits ++ zeros (Z.to_nat (n - k))
       else if (0 <? n)%Z && (n <=? 21)%Z then
         substring 0 (Z.to_nat n) digits ++ "." ++
         substring (Z.to_nat n) (Z.to_nat (k - n)) digits
       else if (-6 <? n)%Z && (n <=? 0)%Z then
         "0." ++ zeros (Z.to_nat (- n)) ++ digits
       else
         let e := (n - 1)%Z in
         String d (if Str.is_empty ds then EmptyString else "." ++ ds) ++
         "e" ++ (if (0 <=? e)%Z then "+" else "-") ++
         decimal (Z.to_N (Z.abs e)))
  end.

(** The number grammar of JSON: an optional minus sign, an integer part
    without superfluous leading zero, an optional fraction (a point and at
    least one digit), an optional exponent (e or E, an optional sign, at
    least one digit). *)
Definition parse_exponent (s : string) : option (Z * string) :=
  match s with
  | String c r =>
      if Ascii.eqb c "e" || Ascii.eqb c "E" then
        let '(sign, r1) :=
          match r with
          | String c1 r' =>
              if Ascii.eqb c1 "+" then (1%Z, r')
              else if Ascii.eqb c1 "-" then ((-1)%Z, r')
              else (1%Z, r)
          | EmptyString => (1%Z, r)
          end in
        let (ds, r2) := Str.span Str.is_digit r1 in
        match digits_value ds with
        | Some v => if Str.is_empty ds then None else Some ((sign * Z.of_N v)%Z, r2)
        | None => None
        end
      else Some (0%Z, s)
  | EmptyString => Some (0%Z, s)
  end.

Definition parse_fraction (s : string) : option (string * string) :=
  match s with
  | String c r =>
      if Ascii.eqb c "." then
        let (ds, r1) := Str.span Str.is_digit r in
        if Str.is_empty ds then None else Some (ds, r1)
      else Some (EmptyString, s)
  | EmptyString => Some (EmptyString, s)
  end.

(** A literal, read exactly. *)
Definition literal (s : string) : option (number * string) :=
  let '(neg, s1) :=
    match s with
    | String c r => if Ascii.eqb c "-" then (true, r) else (false, s)
    | EmptyString => (false, s)
    end in
  let (int, s2) := Str.span Str.is_digit s1 in
  if Str.is_empty int then None
  else if Str.head_is is_zero_char int && negb (String.length int =? 1)%nat then None
  else
    match parse_fraction s2 with
    | None => None
    | Some (frac, s3) =>
        match parse_exponent s3 with
        | None => None
        | Some (e, s4) =>
            Some (normalize neg (int ++ frac)
                    (Z.of_nat (String.length int) + e), s4)
        end
    end.

(** *** Doubles

    The literal denotes a rational number; [JSON.parse] returns the double
    nearest to it, ties going to the even significand (IEEE 754 binary64,
    round to nearest even), and [Infinity] beyond the range. *)

(** [2^t <= n / d], for positive [n] and [d]. *)
Definition reaches (n d t : Z) : bool :=
  if (0 <=? t)%Z then (d * 2 ^ t <=? n)%Z else (d <=? n * 2 ^ (- t))%Z.

(** The double nearest to [n / d], for positive [n] and [d]: [Some (m, e)]
    is [m * 2^e], where [m < 2^53] and either [2^52 <= m] or [e = -1074]
    (a subnormal or zero); [None] is a value that rounds beyond the largest
    double.  [l] is the integer part of the binary logarithm of [n / d]. *)
Definition nearest (n d : Z) : option (Z * Z) :=
  let t := (Z.log2 n - Z.log2 d)%Z in
  let l := if reaches n d t then t else (t - 1)%Z in
  let e := Z.max (l - 52) (-1074) in
  let a := if (0 <=? e)%Z then n else (n * 2 ^ (- e))%Z in
  let b := if (0 <=? e)%Z then (d * 2 ^ e)%Z else d in
  let q := (a / b)%Z in
  let r := (a mod b)%Z in
  let m := if (2 * r <? b)%Z then q
           else if (b <? 2 * r)%Z then (q + 1)%Z
           else if Z.even q then q else (q + 1)%Z in
  let e' := if (m =? 2 ^ 53)%Z then (e + 1)%Z else e in
  let m' := if (m =? 2 ^ 53)%Z then (2 ^ 52)%Z else m in
  if (971 <? e')%Z then None else Some (m', e').

(** The double a finite number in normal form rounds to.  The value is at
    least [10^(point - 1)] and below [10^point]: beyond [10^310] it is
    above every double, below [10^-330] it rounds to zero. *)
Definition round (x : number) : option (Z * Z) :=
  match digits_value (num_digits x) with
  | Some v =>
      if (v =? 0)%N then Some (0%Z, (-1074)%Z)
      else if (310 <? num_point x)%Z then None
      else if (num_point x <? -330)%Z then Some (0%Z, (-1074)%Z)
      else
        let x10 := (num_point x - Z.of_nat (String.length (num_digits x)))%Z in
        if (0 <=? x10)%Z then nearest (Z.of_N v * 10 ^ x10) 1
        else nearest (Z.of_N v) (10 ^ (- x10))
  | None => Some (0%Z, (-1074)%Z)
  end.

(** *** The digits of a double

    [Number::toString] writes the fewest digits that read back as the
    double, and of two such forms the nearer one. *)

(** [n / d < 10^k]. *)
Definition below (n d k : Z) : bool :=
  if (0 <=? k)%Z then (n <? d * 10 ^ k)%Z else (n * 10 ^ (- k) <? d)%Z.

(** The first [k] from [k0] on with [n / d < 10^k]. *)
Fixpoint magnitude (fuel : nat) (n d k0 : Z) : Z :=
  match fuel with
  | O => k0
  | S f => if below n d k0 then k0 else magnitude f n d (k0 + 1)
  end.

(** The number [s * 10^t]. *)
Definition candidate (s t : Z) : number :=
  let ds := decimal (Z.to_N s) in
  normalize false ds (Z.of_nat (String.length ds) + t).

Definition reads_as (y : number) (m e : Z) : bool :=
  negb (is_zero y) &&
  match round y with
  | Some (m', e') => (m' =? m)%Z && (e' =? e)%Z
  | None => false
  end.

(** The forms of [count], [count + 1], ... digits of [n / d], which is
    [m * 2^e] and has its decimal point at [k]: the two numbers of that
    many digits around it are tried. *)
Fixpoint shortest_from (fuel : nat) (count : Z) (n d k m e : Z) : option number :=
  match fuel with
  | O => None
  | S f =>
      let t := (k - count)%Z in
      let a := if (0 <=? t)%Z then n else (n * 10 ^ (- t))%Z in
      let b := if (0 <=? t)%Z then (d * 10 ^ t)%Z else d in
      let lo := (a / b)%Z in
      let r := (a mod b)%Z in
      let low := candidate lo t in
      let high := candidate (lo + 1) t in
      let nearer_low := (2 * r <? b)%Z || ((2 * r =? b)%Z && Z.even lo) in
      match reads_as low m e, reads_as high m e with
      | true, true => Some (if nearer_low then low else high)
      | true, false => Some low
      | false, true => Some high
      | false, false => shortest_from f (count + 1)%Z n d k m e
      end
  end.

(** The shortest form of the double [m * 2^e], [0 < m].  The point is
    looked for from an estimate on, [1233 / 4096] being a little less than
    the decimal logarithm of 2.  A double has such a form of at most 17
    digits. *)
Definition shortest (m e : Z) : option number :=
  let n := if (0 <=? e)%Z then (m * 2 ^ e)%Z else m in
  let d := if (0 <=? e)%Z then 1%Z else (2 ^ (- e))%Z in
  let l := (Z.log2 m + e)%Z in
  let k := magnitude 6 n d (l * 1233 / 4096 - 1) in
  shortest_from 17 1 n d k m e.

(** The number [JSON.parse] makes of the exact number [x]: the double
    nearest to it, in its shortest form.  (Where no form of 17 digits reads
    back, which a double does not let happen, the digits of [x] stand.) *)
Definition canon (x : number) : number :=
  if num_infinite x then x
  else if is_zero x then zero
  else
    match round x with
    | None => infinity (num_neg x)
    | Some (m, e) =>
        if (m =? 0)%Z then zero
        else
          match shortest m e with
          | Some y => signed (num_neg x) y
          | None => x
          end
    end.

(** A numeric literal of JSON, as [JSON.parse] reads it. *)
Definition parse (s : string) : option (number * string) :=
  match literal s with
  | Some (x, rest) => Some (canon x, rest)
  | None => None
  end.

Definition of_Z (z : Z) : number :=
  match parse (NilZero.string_of_int (Z.to_int z)) with
  | Some (x, _) => x
  | None => zero
  end.

(** The numbers in shortest form: digits only, the first and the last of
    them not zero; zero is written without digit, sign or exponent. *)
Fixpoint ends_nonzero (s : string) : bool :=
  match s with
  | EmptyString => false
  | String c EmptyString => negb (is_zero_char c)
  | String _ r => ends_nonzero r
  end.

Definition shape (x : number) : bool :=
  match num_digits x with
  | EmptyString => negb (num_neg x) && (num_point x =? 0)%Z
  | String d ds =>
      Str.forallb Str.is_digit (String d ds) && negb (is_zero_char d) &&
      ends_nonzero (String d ds)
  end.

(** The numbers [JSON.parse] returns: the two infinite ones, and the
    doubles in their shortest form. *)
Definition wf (x : number) : bool :=
  if num_infinite x
  then Str.is_empty (num_digits x) && (num_point x =? 0)%Z
  else shape x && eqb (canon x) x.

End Num.

(** ** JSON values

    What [JSON.parse] returns.  An object lists its own properties in the
    order JavaScript enumerates them: array-index keys first, by increasing
    index, then the other keys in the order of their creation. *)

#[warnings="-register-all"]
Inductive value : Type :=
  | JNull
  | JBool (b : bool)
  | JNum (n : number)
  | JStr (s : string)
  | JArr (l : list value)
  | JObj (m : list (string * value)).

(** A JavaScript value as a variable or a property read holds it: [None] is
    [undefined]. *)
Definition jsval : Type := option value.

Module Obj.

Definition props : Type := list (string * value).

(** The index a key denotes, when it is the canonical decimal form of an
    integer below [2^32 - 1]. *)
Definition index_of (k : string) : option N :=
  if Str.is_empty k then None
  else if negb (Str.forallb Str.is_digit k) then None
  else if Str.head_is Num.is_zero_char k && negb (String.length k =? 1)%nat then None
  else
    match Num.digits_value k with
    | Some n => if (n <? 4294967295)%N then Some n else None
    | None => None
    end.

Fixpoint lookup (o : props) (k : string) : jsval :=
  match o with
  | [] => None
  | (k', v) :: r => if String.eqb k' k then Some v else lookup r k
  end.

Definition has (o : props) (k : string) : bool :=
  match lookup o k with
  | Some _ => true
  | None => false
  end.

Fixpoint replace (o : props) (k : string) (v : value) : props :=
  match o with
  | [] => []
  | (k', v') :: r =>
      if String.eqb k' k then (k', v) :: r else (k', v') :: replace r k v
  end.

Fixpoint insert_index (i : N) (k : string) (v : value) (o : props) : props :=
  match o with
  | [] => [(k, v)]
  | (k', v') :: r =>
      match index_of k' with
      | Some j => if (j <? i)%N then (k', v') :: insert_index i k v r
                  else (k, v) :: o
      | None => (k, v) :: o
      end
  end.

(** Writing a property: an existing key keeps its place, a new one takes
    the place its kind gives it. *)
Definition set (o : props) (k : string) (v : value) : props :=
  if has o k then replace o k v
  else
    match index_of k with
    | Some i => insert_index i k v o
    | None => (o ++ [(k, v)])%list
    end.

Definition of_entries (l : list (string * value)) : props :=
  fold_left (fun o kv => set o (fst kv) (snd kv)) l [].

Definition keys (o : props) : list string := map fst o.

(** The order of own properties: [k1] comes before [k2] when both are
    array indices and the first is the smaller, when only the first is an
    array index, or when neither is; equal keys are not in order. *)
Definition key_before (k1 k2 : string) : bool :=
  match index_of k1, index_of k2 with
  | Some i, Some j => (i <? j)%N
  | Some _, None => true
  | None, Some _ => false
  | None, None => negb (String.eqb k1 k2)
  end.

(** Keys as an object can hold them: no key twice, array indices first and
    increasing. *)
Fixpoint canonical (ks : list string) : bool :=
  match ks with
  | [] => true
  | k :: r => List.forallb (key_before k) r && canonical r
  end.

End Obj.

(** ** [JSON.stringify] *)

Module Json.

Definition hex_digit (n : nat) : ascii :=
  if (n <? 10)%nat then ascii_of_nat (48 + n) else ascii_of_nat (87 + n).

Definition hex_value (c : ascii) : option N :=
  let n := nat_of_ascii c in
  if (48 <=? n)%nat && (n <=? 57)%nat then Some (N.of_nat (n - 48))
  else if (97 <=? n)%nat && (n <=? 102)%nat then Some (N.of_nat (n - 87))
  else if (65 <=? n)%nat && (n <=? 70)%nat then Some (N.of_nat (n - 55))
  else None.

(** [QuoteJSONString], one character at a time: the quote, the backslash
    and the control characters are escaped, everything else is kept. *)
Definition quote_char (c : ascii) : string :=
  let n := nat_of_ascii c in
  if Ascii.eqb c Str.dquote then String Str.backslash (String Str.dquote EmptyString)
  else if Ascii.eqb c Str.backslash then String Str.backslash (String Str.backslash EmptyString)
  else if (n =? 8)%nat then String Str.backslash "b"
  else if (n =? 9)%nat then String Str.backslash "t"
  else if (n =? 10)%nat then String Str.backslash "n"
  else if (n =? 12)%nat then String Str.backslash "f"
  else if (n =? 13)%nat then String Str.backslash "r"
  else if (n <? 32)%nat then
    String Str.backslash
      (String "u" (String "0" (String "0"
         (String (hex_digit (n / 16)) (String (hex_digit (n mod 16)) EmptyString)))))
  else String c EmptyString.

Fixpoint quote_chars (s : string) : string :=
  match s with
  | EmptyString => EmptyString
  | String c r => quote_char c ++ quote_chars r
  end.

Definition QuoteJSONString (s : string) : string :=
  Str.q ++ quote_chars s ++ Str.q.

(** [SerializeJSONProperty] with its two helpers [SerializeJSONArray] and
    [SerializeJSONObject]: [gap] is the indentation unit, [indent] the
    indentation of the enclosing line. *)
Definition wrap (gap indent : string) (opening closing : string)
    (items : list string) : string :=
  match items with
  | [] => opening ++ closing
  | _ =>
      if Str.is_empty gap then
        opening ++ Str.join "," items ++ closing
      else
        let inner := indent ++ gap in
        opening ++ Str.newline ++ inner ++
        Str.join ("," ++ Str.newline ++ inner) items ++
        Str.newline ++ indent ++ closing
  end.

Fixpoint serialize (gap indent : string) (v : value) : string :=
  match v with
  | JNull => "null"
  | JBool true => "true"
  | JBool false => "false"
  | JNum n => if num_infinite n then "null" else Num.toString n
  | JStr s => QuoteJSONString s
  | JArr l =>
      wrap gap indent "[" "]" (map (serialize gap (indent ++ gap)) l)
  | JObj m =>
      wrap gap indent "{" "}"
        (map (fun kv =>
                QuoteJSONString (fst kv) ++ ":" ++
                (if Str.is_empty gap then EmptyString else " ") ++
                serialize gap (indent ++ gap) (snd kv)) m)
  end.

(** [JSON.stringify(v, null, space)] for a number [space]: the gap is
    [min(space, 10)] blanks. *)
Definition stringify (v : value) (space : nat) : string :=
  serialize (Str.repeat_char " " (Nat.min space 10)) EmptyString v.

(** ** [JSON.parse] *)

Definition is_ws (c : ascii) : bool :=
  let n := nat_of_ascii c in
  (n =? 32)%nat || (n =? 9)%nat || (n =? 10)%nat || (n =? 13)%nat.

Fixpoint skip_ws (s : string) : string :=
  match s with
  | EmptyString => EmptyString
  | String c r => if is_ws c then skip_ws r else s
  end.

(** A string body is read in two passes: the characters and escapes up to
    the closing quote, then the UTF-8 form of the escapes. *)
Inductive unit16 : Type :=
  | Raw (c : ascii)
  | Esc (n : N).

Definition unescape (c : ascii) : option ascii :=
  if Ascii.eqb c Str.dquote then Some Str.dquote
  else if Ascii.eqb c Str.backslash then Some Str.backslash
  else if Ascii.eqb c "/" then Some "/"%char
  else if Ascii.eqb c "b" then Some "008"%char
  else if Ascii.eqb c "f" then Some "012"%char
  else if Ascii.eqb c "n" then Some "010"%char
  else if Ascii.eqb c "r" then Some "013"%char
  else if Ascii.eqb c "t" then Some "009"%char
  else None.

Definition hex4 (a b c d : ascii) : option N :=
  match hex_value a, hex_value b, hex_value c, hex_value d with
  | Some x, Some y, Some z, Some w => Some (((x * 16 + y) * 16 + z) * 16 + w)%N
  | _, _, _, _ => None
  end.

Definition cons_units (u : unit16) (r : option (list unit16 * string)) :
    option (list unit16 * string) :=
  match r with
  | Some (l, rest) => Some (u :: l, rest)
  | None => None
  end.

Fixpoint scan_string (s : string) : option (list unit16 * string) :=
  match s with
  | EmptyString => None
  | String c r =>
      if Ascii.eqb c Str.dquote then Some ([], r)
      else if Ascii.eqb c Str.backslash then
        match r with
        | EmptyString => None
        | String e r1 =>
            if Ascii.eqb e "u" then
              match r1 with
              | String h1 (String h2 (String h3 (String h4 r2))) =>
                  match hex4 h1 h2 h3 h4 with
                  | Some n => cons_units (Esc n) (scan_string r2)
                  | None => None
                  end
              | _ => None
              end
            else
              match unescape e with
              | Some c' => cons_units (Raw c') (scan_string r1)
              | None => None
              end
        end
      else if (nat_of_ascii c <? 32)%nat then None
      else cons_units (Raw c) (scan_string r)
  end.

Definition byte (n : N) : ascii := ascii_of_N n.

Definition utf8 (cp : N) : string :=
  if (cp <? 128)%N then String (byte cp) EmptyString
  else if (cp <? 2048)%N then
    String (byte (192 + cp / 64)) (String (byte (128 + cp mod 64)) EmptyString)
  else if (cp <? 65536)%N then
    String (byte (224 + cp / 4096))
      (String (byte (128 + (cp / 64) mod 64))
         (String (byte (128 + cp mod 64)) EmptyString))
  else
    String (byte (240 + cp / 262144))
      (String (byte (128 + (cp / 4096) mod 64))
         (String (byte (128 + (cp / 64) mod 64))
            (String (byte (128 + cp mod 64)) EmptyString))).

Definition is_high (n : N) : bool := (55296 <=? n)%N && (n <? 56320)%N.
Definition is_low (n : N) : bool := (56320 <=? n)%N && (n <? 57344)%N.

(** U+FFFD, which stands for a surrogate half without its partner: UTF-8
    has no form for the half, which JavaScript keeps in the string and
    [JSON.stringify] writes back as an escape.  The statements on what is
    read back leave out the texts that escape a surrogate
    ([no_surrogate_escape] below). *)
Definition replacement : string := utf8 65533.

Fixpoint decode_units (l : list unit16) : string :=
  match l with
  | [] => EmptyString
  | Raw c :: r => String c (decode_units r)
  | Esc n :: r =>
      if is_high n then
        match r with
        | Esc m :: r' =>
            if is_low m
            then utf8 (65536 + (n - 55296) * 1024 + (m - 56320)) ++ decode_units r'
            else replacement ++ decode_units r
        | _ => replacement ++ decode_units r
        end
      else if is_low n then replacement ++ decode_units r
      else utf8 n ++ decode_units r
  end.

(** The text after an opening quote, up to and including the closing one. *)
Definition parse_string (s : string) : option (string * string) :=
  match scan_string s with
  | Some (l, rest) => Some (decode_units l, rest)
  | None => None
  end.

Definition expect (lit : string) (v : value) (s : string) : option (value * string) :=
  if String.prefix lit s
  then Some (v, substring (String.length lit) (String.length s - String.length lit) s)
  else None.

Fixpoint parse_value (fuel : nat) (s : string) {struct fuel} : option (value * string) :=
  match fuel with
  | O => None
  | S f =>
      match skip_ws s with
      | EmptyString => None
      | String c r =>
          if Ascii.eqb c "n" then expect "null" JNull (String c r)
          else if Ascii.eqb c "t" then expect "true" (JBool true) (String c r)
          else if Ascii.eqb c "f" then expect "false" (JBool false) (String c r)
          else if Ascii.eqb c Str.dquote then
            match parse_string r with
            | Some (str, rest) => Some (JStr str, rest)
            | None => None
            end
          else if Ascii.eqb c "[" then
            match skip_ws r with
            | String c1 r1 =>
                if Ascii.eqb c1 "]" then Some (JArr [], r1)
                else
                  match parse_elements f r with
                  | Some (l, rest) => Some (JArr l, rest)
                  | None => None
                  end
            | EmptyString => None
            end
          else if Ascii.eqb c "{" then
            match skip_ws r with
            | String c1 r1 =>
                if Ascii.eqb c1 "}" then Some (JObj [], r1)
                else
                  match parse_members f r with
                  | Some (l, rest) => Some (JObj (Obj.of_entries l), rest)
                  | None => None
                  end
            | EmptyString => None
            end
          else
            match Num.parse (String c r) with
            | Some (n, rest) => Some (JNum n, rest)
            | None => None
            end
      end
  end

with parse_elements (fuel : nat) (s : string) {struct fuel} :
    option (list value * string) :=
  match fuel with
  | O => None
  | S f =>
      match parse_value f s with
      | Some (v, r) =>
          match skip_ws r with
          | String c r1 =>
              if Ascii.eqb c "," then
                match parse_elements f r1 with
                | Some (l, rest) => Some (v :: l, rest)
                | None => None
                end
              else if Ascii.eqb c "]" then Some ([v], r1)
              else None
          | EmptyString => None
          end
      | None => None
      end
  end

with parse_members (fuel : nat) (s : string) {struct fuel} :
    option (list (string * value) * string) :=
  match fuel with
  | O => None
  | S f =>
      match skip_ws s with
      | String c r =>
          if Ascii.eqb c Str.dquote then
            match parse_string r with
            | Some (k, r1) =>
                match skip_ws r1 with
                | String c1 r2 =>
                    if Ascii.eqb c1 ":" then
                      match parse_value f r2 with
                      | Some (v, r3) =>
                          match skip_ws r3 with
                          | String c2 r4 =>
                              if Ascii.eqb c2 "," then
                                match parse_members f r4 with
                                | Some (l, rest) => Some ((k, v) :: l, rest)
                                | None => None
                                end
                              else if Ascii.eqb c2 "}" then Some ([(k, v)], r4)
                              else None
                          | EmptyString => None
                          end
                      | None => None
                      end
                    else None
                | EmptyString => None
                end
            | None => None
            end
          else None
      | EmptyString => None
      end
  end.

(** [JSON.parse]: one value, blanks around it, nothing else.  [None] stands
    for the [SyntaxError] it throws.  Each call of the three functions
    above consumes a character before it calls again, so twice the length
    of the text is fuel enough. *)
Definition parse (s : string) : option value :=
  match parse_value (2 * String.length s + 2) s with
  | Some (v, rest) => if Str.is_empty (skip_ws rest) then Some v else None
  | None => None
  end.

(** The values [JSON.parse] can return: numbers in shortest form, the keys
    of every object in the order of its own properties. *)
Fixpoint wf (v : value) : bool :=
  match v with
  | JNum n => Num.wf n
  | JArr l => List.forallb wf l
  | JObj m =>
      Obj.canonical (map fst m) && List.forallb (fun kv => wf (snd kv)) m
  | _ => true
  end.

(** The text holds no escape of a surrogate half ([\ud800] to [\udfff]),
    with or without its partner. *)
Definition is_surrogate_escape (a b c d : ascii) : bool :=
  Ascii.eqb a Str.backslash && Ascii.eqb b "u" &&
  (Ascii.eqb c "d" || Ascii.eqb c "D") &&
  match hex_value d with
  | Some n => (8 <=? n)%N
  | None => false
  end.

Fixpoint no_surrogate_escape (s : string) : bool :=
  match s with
  | String a r =>
      match r with
      | String b (String c (String d _)) =>
          negb (is_surrogate_escape a b c d) && no_surrogate_escape r
      | _ => true
      end
  | EmptyString => true
  end.

(** No number of the value is infinite. *)
Fixpoint finite (v : value) : bool :=
  match v with
  | JNum n => negb (num_infinite n)
  | JArr l => List.forallb finite l
  | JObj m => List.forallb (fun kv => finite (snd kv)) m
  | _ => true
  end.

(** The value that is read back from the text [JSON.stringify] writes for
    [v]: an infinite number is written [null]. *)
Fixpoint settle (v : value) : value :=
  match v with
  | JNum n => if num_infinite n then JNull else v
  | JArr l => JArr (map settle l)
  | JObj m => JObj (map (fun kv => (fst kv, settle (snd kv))) m)
  | _ => v
  end.

(** The calls of the three parsing functions that reading a value back
    takes. *)
Fixpoint size (v : value) : nat :=
  match v with
  | JArr l => S (fold_right (fun x n => S (size x + n)) 0 l)
  | JObj m => S (fold_right (fun kv n => S (size (snd kv) + n)) 0 m)
  | _ => 1
  end.

End Json.

(** ** The text with two blanks for each level *)

Definition margin (depth : nat) : string := Str.repeat_char " " (2 * depth).

(** The layout the specification asks for, written out: an item of an array
    or object at nesting depth [d] starts its own line after [2 * d]
    blanks, and the closing bracket is aligned with the line that opened
    it. *)
Fixpoint two_space_text (depth : nat) (v : value) : string :=
  match v with
  | JArr [] => "[]"
  | JArr l =>
      "[" ++ Str.newline ++ margin (S depth) ++
      Str.join ("," ++ Str.newline ++ margin (S depth))
        (map (two_space_text (S depth)) l) ++
      Str.newline ++ margin depth ++ "]"
  | JObj [] => "{}"
  | JObj m =>
      "{" ++ Str.newline ++ margin (S depth) ++
      Str.join ("," ++ Str.newline ++ margin (S depth))
        (map (fun kv => Json.QuoteJSONString (fst kv) ++ ": " ++
                        two_space_text (S depth) (snd kv)) m) ++
      Str.newline ++ margin depth ++ "}"
  | JNull => "null"
  | JBool true => "true"
  | JBool false => "false"
  | JNum n => if num_infinite n then "null" else Num.toString n
  | JStr s => Json.QuoteJSONString s
  end.

(** ** JavaScript operations on values *)

Module Js.

(** [ToBoolean]. *)
Definition truthy (v : jsval) : bool :=
  match v with
  | None => false
  | Some JNull => false
  | Some (JBool b) => b
  | Some (JNum n) => negb (Num.is_zero n)
  | Some (JStr s) => negb (Str.is_empty s)
  | Some (JArr _) => true
  | Some (JObj _) => true
  end.

(** [ToString], as a template literal applies it.  An object is written
    by [Object.prototype.toString]; one that holds an own property named
    [toString], on which the conversion throws instead, is not covered. *)
Fixpoint to_string (v : value) : string :=
  match v with
  | JNull => "null"
  | JBool true => "true"
  | JBool false => "false"
  | JNum n => Num.toString n
  | JStr s => s
  | JArr l =>
      Str.join ","
        (map (fun x => match x with
                       | JNull => EmptyString
                       | _ => to_string x
                       end) l)
  | JObj _ => "[object Object]"
  end.

Definition ToString (v : jsval) : string :=
  match v with
  | None => "undefined"
  | Some x => to_string x
  end.

(** [typeof]. *)
Definition typeof (v : value) : string :=
  match v with
  | JBool _ => "boolean"
  | JNum _ => "number"
  | JStr _ => "string"
  | JNull | JArr _ | JObj _ => "object"
  end.

(** [Buffer.from(s).toString("base64")]. *)
Definition b64_char (n : N) : ascii :=
  if (n <? 26)%N then ascii_of_N (65 + n)
  else if (n <? 52)%N then ascii_of_N (71 + n)
  else if (n <? 62)%N then ascii_of_N (n - 4)
  else if (n =? 62)%N then "+"%char
  else "/"%char.

Fixpoint base64 (s : string) : string :=
  match s with
  | EmptyString => EmptyString
  | String a EmptyString =>
      let x := N_of_ascii a in
      String (b64_char (x / 4)) (String (b64_char ((x mod 4) * 16)) "==")
  | String a (String b EmptyString) =>
      let x := N_of_ascii a in
      let y := N_of_ascii b in
      String (b64_char (x / 4))
        (String (b64_char ((x mod 4) * 16 + y / 16))
           (String (b64_char ((y mod 16) * 4)) "="))
  | String a (String b (String c r)) =>
      let x := N_of_ascii a in
      let y := N_of_ascii b in
      let z := N_of_ascii c in
      String (b64_char (x / 4))
        (String (b64_char ((x mod 4) * 16 + y / 16))
           (String (b64_char ((y mod 16) * 4 + z / 64))
              (String (b64_char (z mod 64)) (base64 r))))
  end.

End Js.

(** ** Errors, console, events *)

Inductive error_class : Type :=
  | PlainError
  | SyntaxError
  | TypeError
  | ReferenceError.

Record http_response : Type := mkResponse {
  resp_status : Z;
  resp_data : value
}.

(** A thrown [Error] object: its class (what [instanceof] tests), its
    [message], the [code] a file-system error carries and the [response]
    an HTTP client error carries. *)
Record js_error : Type := mkError {
  err_class : error_class;
  err_message : string;
  err_code : option string;
  err_response : option http_response
}.

Definition new_Error (msg : string) : js_error :=
  mkError PlainError msg None None.

Definition new_TypeError (msg : string) : js_error :=
  mkError TypeError msg None None.

Definition new_SyntaxError (msg : string) : js_error :=
  mkError SyntaxError msg None None.

Definition new_ReferenceError (msg : string) : js_error :=
  mkError ReferenceError msg None None.

Definition error_class_eqb (a b : error_class) : bool :=
  match a, b with
  | PlainError, PlainError => true
  | SyntaxError, SyntaxError => true
  | TypeError, TypeError => true
  | ReferenceError, ReferenceError => true
  | _, _ => false
  end.

Record http_request : Type := mkRequest {
  req_method : string;
  req_url : string;
  req_headers : list (string * string);
  req_data : value
}.

(** What the script asks of the operating system, once paths are resolved
    and command lines are split into words: a program started in a
    directory, a line left to the shell as it is, commands joined by [&&]
    left to the shell from a [cd] on whose target the words do not tell,
    the removal of a tree, a change of directory, a write. *)
Inductive op : Type :=
  | Spawn (dir : string) (argv : list string)
  | Shell (dir : string) (line : string)
  | Script (dir : string) (commands : list (list string))
  | Remove (path : string)
  | Enter (path : string)
  | Write (path : string) (content : string).

(** The trace of a run.  [ExecSync] and [Zx] record the calls as the script
    writes them; the [Sys] events that follow record what they come to. *)
Inductive event : Type :=
  | Read (path : string)
  | Request (req : http_request)
  | ExecSync (command : string)
  | Zx (pieces : list string) (args : list jsval)
  | Sys (o : op).

Inductive stream : Type := Stdout | Stderr.

Definition line : Type := (stream * list jsval)%type.

(** ** The world

    The external systems, by their answers.  A run attempts each operation
    at most once (entering the start directory again apart), so an answer
    that depends on the operation alone loses nothing.  [w_syntax] is the
    message the engine gives the [SyntaxError] of a text that [JSON.parse]
    rejects: it depends on the text, in a way the engine decides. *)
Record world : Type := mkWorld {
  w_cwd : string;
  w_answer : string;
  w_read : string -> string + js_error;
  w_http : http_request -> http_response + js_error;
  w_sys : op -> option js_error;
  w_syntax : string -> string
}.

(** ** The effect monad: state, exceptions and [process.exit] *)

Record state : Type := mkState {
  st_cwd : string;
  st_console : list line;
  st_trace : list event
}.

Inductive result (A : Type) : Type :=
  | Ret (a : A)
  | Throw (e : js_error)
  | Exit (code : Z).

Arguments Ret {A} a.
Arguments Throw {A} e.
Arguments Exit {A} code.

Definition M (A : Type) : Type := state -> result A * state.

Definition ret {A} (a : A) : M A := fun s => (Ret a, s).

Definition bind {A B} (m : M A) (f : A -> M B) : M B :=
  fun s =>
    match m s with
    | (Ret a, s') => f a s'
    | (Throw e, s') => (Throw e, s')
    | (Exit c, s') => (Exit c, s')
    end.

Definition throw {A} (e : js_error) : M A := fun s => (Throw e, s).

Definition process_exit {A} (code : Z) : M A := fun s => (Exit code, s).

Definition try_catch {A} (m : M A) (handler : js_error -> M A) : M A :=
  fun s =>
    match m s with
    | (Throw e, s') => handler e s'
    | r => r
    end.

Declare Scope js_scope.
Delimit Scope js_scope with js.
Notation "x <- m ;; k" := (bind m (fun x => k))
  (at level 61, m at next level, right associativity) : js_scope.
Notation "m ;; k" := (bind m (fun _ => k))
  (at level 61, right associativity) : js_scope.
Open Scope js_scope.

Definition log_event (e : event) (s : state) : state :=
  mkState (st_cwd s) (st_console s) (st_trace s ++ [e]).

Definition log_line (l : line) (s : state) : state :=
  mkState (st_cwd s) (st_console s ++ [l]) (st_trace s).

Definition move_to (d : string) (s : state) : state :=
  mkState d (st_console s) (st_trace s).

Definition emit (e : event) : M unit := fun s => (Ret tt, log_event e s).

Definition console_log (args : list jsval) : M unit :=
  fun s => (Ret tt, log_line (Stdout, args) s).

Definition console_error (args : list jsval) : M unit :=
  fun s => (Ret tt, log_line (Stderr, args) s).

Definition process_cwd : M string := fun s => (Ret (st_cwd s), s).

Definition set_cwd (d : string) : M unit := fun s => (Ret tt, move_to d s).

Definition str (s : string) : jsval := Some (JStr s).

(** Property read [v.k]: an error on [undefined] and [null], the own
    property of an object, [undefined] otherwise (none of the keys the
    script reads is defined on a prototype). *)
Definition get_prop (v : jsval) (k : string) : M jsval :=
  match v with
  | None =>
      throw (new_TypeError
               ("Cannot read properties of undefined (reading '" ++ k ++ "')"))
  | Some JNull =>
      throw (new_TypeError
               ("Cannot read properties of null (reading '" ++ k ++ "')"))
  | Some (JObj o) => ret (Obj.lookup o k)
  | Some _ => ret None
  end.

(** Optional chaining [v?.k]. *)
Definition get_opt (v : jsval) (k : string) : jsval :=
  match v with
  | Some (JObj o) => Obj.lookup o k
  | _ => None
  end.

(** Property write [target[k] = v] in strict mode (an ES module), for a key
    that is not an array index; the result is the target after the write.
    A named property of an array is not serialized by [JSON.stringify], and
    the script never reads one back, so an array is left as it is. *)
Definition assign_prop (target : jsval) (k : string) (v : value) : M value :=
  match target with
  | None =>
      throw (new_TypeError
               ("Cannot set properties of undefined (setting '" ++ k ++ "')"))
  | Some JNull =>
      throw (new_TypeError
               ("Cannot set properties of null (setting '" ++ k ++ "')"))
  | Some (JObj o) => ret (JObj (Obj.set o k v))
  | Some (JArr l) => ret (JArr l)
  | Some x =>
      throw (new_TypeError
               ("Cannot create property '" ++ k ++ "' on " ++ Js.typeof x ++
                " '" ++ Js.to_string x ++ "'"))
  end.

Definition JSON_parse (W : world) (text : string) : M value :=
  match Json.parse text with
  | Some v => ret v
  | None => throw (new_SyntaxError (w_syntax W text))
  end.

Definition path_resolve (cwd p : string) : string :=
  if Str.head_is (Ascii.eqb "/") p then p else cwd ++ "/" ++ p.

(** The characters zx passes to the shell unquoted: letters, digits and
    [/ _ . - @ : =]. *)
Definition plain_char (c : ascii) : bool :=
  let n := nat_of_ascii c in
  ((97 <=? n)%nat && (n <=? 122)%nat) || ((65 <=? n)%nat && (n <=? 90)%nat) ||
  ((48 <=? n)%nat && (n <=? 57)%nat) ||
  Ascii.eqb c "/" || Ascii.eqb c "_" || Ascii.eqb c "." || Ascii.eqb c "-" ||
  Ascii.eqb c "@" || Ascii.eqb c ":" || Ascii.eqb c "=".

Definition plain_word (s : string) : bool :=
  negb (Str.is_empty s) && Str.forallb plain_char s.

(** A command line the shell only has to split at blanks. *)
Definition plain_line (s : string) : bool :=
  Str.forallb (fun c => plain_char c || Ascii.eqb c " ") s.

(** ** Messages of the script *)

Module Msg.

Definition expected_shape (indent : string) : string :=
  indent ++ "{" ++ Str.newline ++
  indent ++ "  " ++ Str.q ++ "username" ++ Str.q ++ ": " ++
    Str.q ++ "votre_username" ++ Str.q ++ "," ++ Str.newline ++
  indent ++ "  " ++ Str.q ++ "token" ++ Str.q ++ ": " ++
    Str.q ++ "votre_token" ++ Str.q ++ Str.newline ++
  indent ++ "}".

Definition file_missing_at (indent : string) : string :=
  "❌ Le fichier de credentials n'existe pas." ++ Str.newline ++
  indent ++ "Pour créer le fichier, veuillez créer ./bitbucket-credentials.json avec le format :" ++
  Str.newline ++ expected_shape indent.

(** The text [getBitbucketCredentials] prints, indented as in the source. *)
Definition loader_failed : string := file_missing_at "        ".

Definition file_missing : string := file_missing_at EmptyString.

Definition malformed_json : string :=
  "❌ Le fichier bitbucket-credentials.json contient du JSON invalide".

Definition read_error : string :=
  "❌ Erreur lors de la lecture du fichier de credentials:".

Definition incomplete : string :=
  "❌ Format de credentials invalide." ++ Str.newline ++
  "Le fichier doit contenir les champs obligatoires :" ++ Str.newline ++
  expected_shape EmptyString.

Definition repo_name_required : string := "❌ Le nom du repository est requis".

Definition invalid_permission : string :=
  "❌ La permission doit être " ++ Str.q ++ "read" ++ Str.q ++ ", " ++
  Str.q ++ "write" ++ Str.q ++ " ou " ++ Str.q ++ "admin" ++ Str.q.

Definition permissions_updated (repoName : string) : string :=
  "✅ Permissions mises à jour pour le groupe Datavis developers sur le repository "
  ++ repoName.

Definition permission_failed : string :=
  "❌ Erreur lors de la mise à jour des permissions:".

Definition creation_failed : string :=
  "❌ Erreur lors de la création du repo Bitbucket:".

Definition creating : string := "➡️ Création du repo Bitbucket...".
Definition created : string := "✅ Repo Bitbucket créé:".
Definition cannot_create : string := "❌ Impossible de créer le repo Bitbucket".
Definition cloning : string := "➡️ Clonage du repo de base...".
Definition customizing : string := "➡️ Customisation des fichiers...".
Definition done : string := "✅ Projet initialisé et créé sur Bitbucket !".

End Msg.

(** ** The script *)

(** The two variants held by the source file. *)
Inductive variant : Type :=
  | ExecSyncVariant
  | ZxVariant.

(** What an identifier in scope is bound to: a value, or a function, a
    module or another object the script does not use as data (it has none
    of the methods the script calls on a value). *)
Inductive binding : Type :=
  | Data (v : jsval)
  | Code.

Definition scope : Type := list (string * binding).

Fixpoint scope_lookup (sc : scope) (x : string) : option binding :=
  match sc with
  | [] => None
  | (y, b) :: r => if String.eqb y x then Some b else scope_lookup r x
  end.

Definition resolve (sc : scope) (x : string) : M binding :=
  match scope_lookup sc x with
  | Some b => ret b
  | None => throw (new_ReferenceError (x ++ " is not defined"))
  end.

(** The identifiers in scope at module level after the provisioning step,
    where the call of [updateBitbucketRepoPermissions] is commented out:
    the imports of the variant, the three functions, [options], [answers],
    [projectDir], [repoUrl], and the globals of Node the script names. *)
Definition node_globals : scope :=
  [("console", Code); ("process", Code); ("Buffer", Code); ("Object", Code);
   ("JSON", Code); ("Error", Code); ("SyntaxError", Code)].

Definition module_scope (v : variant) (projectDir : string) (repoUrl : jsval) : scope :=
  ([("program", Code); ("inquirer", Code); ("fs", Code)] ++
   match v with
   | ExecSyncVariant => [("execSync", Code); ("rmSync", Code)]
   | ZxVariant => [("$", Code)]
   end ++
   [("axios", Code)] ++
   match v with
   | ExecSyncVariant => [("getBitbucketCredentials", Code)]
   | ZxVariant => []
   end ++
   [("updateBitbucketRepoPermissions", Code); ("createBitbucketRepo", Code);
    ("options", Code);
    ("answers", Data (Some (JObj [("name", JStr projectDir)])));
    ("projectDir", Data (Some (JStr projectDir)));
    ("repoUrl", Data repoUrl)] ++
   node_globals)%list.

Definition credentials_path : string := "./bitbucket-credentials.json".

Definition template_repository : string :=
  "git@bitbucket.org:lefigaro/data-vite-scaffolder.git".

Definition api_root : string := "https://api.bitbucket.org/2.0/repositories/lefigaro/".

Section Script.

Variable W : world.

(** *** Primitives: fs, axios, child_process, process, zx *)

Definition readFileSync (path : string) : M string :=
  cwd <- process_cwd ;;
  emit (Read (path_resolve cwd path)) ;;
  match w_read W (path_resolve cwd path) with
  | inl text => ret text
  | inr e => throw e
  end.

Definition sys (o : op) : M unit :=
  emit (Sys o) ;;
  match w_sys W o with
  | None => ret tt
  | Some e => throw e
  end.

Definition writeFileSync (path content : string) : M unit :=
  cwd <- process_cwd ;;
  sys (Write (path_resolve cwd path) content).

(** [rmSync(path, { recursive: true, force: true })]. *)
Definition rmSync (path : string) : M unit :=
  cwd <- process_cwd ;;
  sys (Remove (path_resolve cwd path)).

Definition process_chdir (path : string) : M unit :=
  cwd <- process_cwd ;;
  sys (Enter (path_resolve cwd path)) ;;
  set_cwd (path_resolve cwd path).

(** axios with its default [validateStatus]: a status outside [200, 300)
    rejects with an error that carries the response. *)
Definition accepted (r : http_response) : bool :=
  (200 <=? resp_status r)%Z && (resp_status r <? 300)%Z.

(** The code axios gives the error of a rejected status:
    [[ERR_BAD_REQUEST, ERR_BAD_RESPONSE][Math.floor(status / 100) - 4]],
    which is undefined outside 4xx and 5xx. *)
Definition status_code (status : Z) : option string :=
  match (status / 100 - 4)%Z with
  | 0%Z => Some "ERR_BAD_REQUEST"
  | 1%Z => Some "ERR_BAD_RESPONSE"
  | _ => None
  end.

Definition status_error (r : http_response) : js_error :=
  mkError PlainError
    ("Request failed with status code " ++ Num.toString (Num.of_Z (resp_status r)))
    (status_code (resp_status r)) (Some r).

Definition axios (req : http_request) : M http_response :=
  emit (Request req) ;;
  match w_http W req with
  | inl r => if accepted r then ret r else throw (status_error r)
  | inr e => throw e
  end.

(** A word that the builtins and the programs of the shell read as an
    option: it starts with [-]. *)
Definition is_option (w : string) : bool := Str.head_is (Ascii.eqb "-") w.

(** One command of a shell line, run in directory [dir] (with no [CDPATH]):
    [cd] with one word that is not an option moves the shell there, [rm -rf]
    removes a tree, anything else that is not [cd] is a program.  The result
    is the operation and the directory the shell is in afterwards; [None]
    for a [cd] whose target the words do not tell ([cd -] goes to
    [$OLDPWD], [cd] alone to [$HOME]). *)
Definition classify (dir : string) (argv : list string) : option (op * string) :=
  match argv with
  | c :: rest =>
      if String.eqb c "cd" then
        match rest with
        | [d] =>
            if is_option d then None
            else Some (Enter (path_resolve dir d), path_resolve dir d)
        | _ => None
        end
      else
        match rest with
        | [f; p] =>
            if String.eqb c "rm" && String.eqb f "-rf" && negb (is_option p)
            then Some (Remove (path_resolve dir p), dir)
            else Some (Spawn dir argv, dir)
        | _ => Some (Spawn dir argv, dir)
        end
  | [] => Some (Spawn dir argv, dir)
  end.

(** Commands joined by [&&]: each runs if the previous one succeeded.  From
    a [cd] whose target is not told on, what the commands come to is left to
    the world. *)
Fixpoint run_script (dir : string) (commands : list (list string)) : M unit :=
  match commands with
  | [] => ret tt
  | argv :: rest =>
      match classify dir argv with
      | Some (o, dir') => sys o ;; run_script dir' rest
      | None => sys (Script dir commands)
      end
  end.

(** [execSync(command)]: the line goes to the shell as it is.  A line of
    plain words is split at blanks and is one command; what the shell makes
    of any other line is left to the world. *)
Definition shell_op (dir command : string) : op :=
  if plain_line command then
    match classify dir (Str.words command) with
    | Some (o, _) => o
    | None => Shell dir command
    end
  else Shell dir command.

Definition execSync (command : string) : M unit :=
  emit (ExecSync command) ;;
  cwd <- process_cwd ;;
  sys (shell_op cwd command).

(** The words an interpolated value of a zx template becomes: zx quotes
    the value, so it reaches the command as one word whatever it contains;
    the elements of an array are quoted one by one. *)
Definition zx_arg (v : jsval) : list string :=
  match v with
  | Some (JArr l) => map Js.to_string l
  | _ => [Js.ToString v]
  end.

(** The line zx gives the shell, as tokens: [Some w] is a word, [None] the
    operator [&&].  Only the literal text of the template can hold an
    operator: an interpolated value is quoted. *)
Definition literal_tokens (piece : string) : list (option string) :=
  map (fun w => if String.eqb w "&&" then None else Some w) (Str.words piece).

Fixpoint zx_tokens (pieces : list string) (args : list jsval) : list (option string) :=
  match pieces with
  | [] => []
  | p :: ps =>
      match args with
      | [] => literal_tokens p ++ zx_tokens ps []
      | a :: rest => literal_tokens p ++ map Some (zx_arg a) ++ zx_tokens ps rest
      end
  end%list.

Fixpoint split_commands (cur : list string) (ts : list (option string)) :
    list (list string) :=
  match ts with
  | [] => [cur]
  | None :: r => cur :: split_commands [] r
  | Some w :: r => split_commands (cur ++ [w])%list r
  end.

(** The [$] of zx on a template whose literal pieces are plain words and
    [&&], with the interpolations standing between blanks. *)
Definition zx (pieces : list string) (args : list jsval) : M unit :=
  emit (Zx pieces args) ;;
  cwd <- process_cwd ;;
  run_script cwd (split_commands [] (zx_tokens pieces args)).

(** *** Credential Loader *)

(** Lines 13-29 (first variant only). *)
Definition getBitbucketCredentials : M value :=
  try_catch
    (text <- readFileSync credentials_path ;;
     JSON_parse W text)
    (fun error =>
       console_error [str Msg.loader_failed] ;;
       throw error).

(** [credentials = ...] inside the [try] of both functions: a call of
    [getBitbucketCredentials] in the first variant, the read and the parse
    themselves in the second. *)
Definition read_credentials (v : variant) : M value :=
  match v with
  | ExecSyncVariant => getBitbucketCredentials
  | ZxVariant =>
      text <- readFileSync credentials_path ;;
      JSON_parse W text
  end.

(** What the [catch] of both functions prints for an error of the read:
    by [error.code], then by [error instanceof SyntaxError]. *)
Definition credentials_diagnostic (error : js_error) : list jsval :=
  if match err_code error with
     | Some c => String.eqb c "ENOENT"
     | None => false
     end
  then [str Msg.file_missing]
  else if error_class_eqb (err_class error) SyntaxError
  then [str Msg.malformed_json]
  else [str Msg.read_error; str (err_message error)].

(** [if (!credentials.token || !credentials.username) throw ...]. *)
Definition check_credentials (credentials : value) : M value :=
  token <- get_prop (Some credentials) "token" ;;
  if negb (Js.truthy token) then throw (new_Error Msg.incomplete)
  else
    username <- get_prop (Some credentials) "username" ;;
    if negb (Js.truthy username) then throw (new_Error Msg.incomplete)
    else ret credentials.

(** The first part of both functions: the guarded read, then the check of
    the two fields. *)
Definition load_credentials (v : variant) : M value :=
  credentials <-
    try_catch (read_credentials v)
      (fun error =>
         console_error (credentials_diagnostic error) ;;
         throw error) ;;
  check_credentials credentials.

Definition basic_auth (credentials : value) : M string :=
  username <- get_prop (Some credentials) "username" ;;
  token <- get_prop (Some credentials) "token" ;;
  ret (Js.base64 (Js.ToString username ++ ":" ++ Js.ToString token)).

(** [error.response?.data?.error?.message || error.message]. *)
Definition remote_message (error : js_error) : jsval :=
  let reported :=
    match err_response error with
    | Some r => get_opt (get_opt (Some (resp_data r)) "error") "message"
    | None => None
    end in
  if Js.truthy reported then reported else str (err_message error).

(** *** Repository Provisioner *)

Definition create_request (auth repoName : string) : http_request :=
  mkRequest "POST" (api_root ++ repoName)
    [("Authorization", "Basic " ++ auth); ("Content-Type", "application/json")]
    (JObj [("scm", JStr "git"); ("is_private", JBool true);
           ("project", JObj [("key", JStr "DAT")])]).

(** [response.data.links.html.href]. *)
Definition repository_url (response : http_response) : M jsval :=
  links <- get_prop (Some (resp_data response)) "links" ;;
  html <- get_prop links "html" ;;
  get_prop html "href".

Definition createBitbucketRepo (v : variant) (repoName : string) : M jsval :=
  credentials <- load_credentials v ;;
  auth <- basic_auth credentials ;;
  try_catch
    (response <- axios (create_request auth repoName) ;;
     repository_url response)
    (fun error =>
       console_error [str Msg.creation_failed; remote_message error] ;;
       throw error).

(** *** Permission Updater *)

Definition permission_request (auth repoName : string) : http_request :=
  mkRequest "PUT"
    (api_root ++ repoName ++ "/permissions-config/groups/datavis-developers")
    [("Authorization", "Basic " ++ auth); ("Content-Type", "application/json");
     ("Accept", "application/json")]
    (JObj [("permission", JStr "admin")]).

(** [x.toLowerCase()] for what [x] is bound to. *)
Definition call_toLowerCase (x : string) (b : binding) : M string :=
  match b with
  | Data (Some (JStr s)) => ret (Str.toLowerCase s)
  | Data None =>
      throw (new_TypeError
               "Cannot read properties of undefined (reading 'toLowerCase')")
  | Data (Some JNull) =>
      throw (new_TypeError
               "Cannot read properties of null (reading 'toLowerCase')")
  | _ => throw (new_TypeError (x ++ ".toLowerCase is not a function"))
  end.

(** [Object.keys(x)]. *)
Definition Object_keys (b : binding) : M (list string) :=
  match b with
  | Data (Some (JObj o)) => ret (Obj.keys o)
  | Data (Some (JArr l)) => ret (map Str.nat_to_string (seq 0 (List.length l)))
  | Data (Some (JStr s)) => ret (map Str.nat_to_string (seq 0 (String.length s)))
  | Data None | Data (Some JNull) =>
      throw (new_TypeError "Cannot convert undefined or null to object")
  | _ => ret []
  end.

(** The function has one parameter, [repoName]; [permission] and
    [permissionMap] are free in its body and resolved in the scope [sc] of
    the module. *)
Definition updateBitbucketRepoPermissions (v : variant) (sc : scope)
    (repoName : string) : M Z :=
  credentials <- load_credentials v ;;
  if Str.is_empty repoName then throw (new_Error Msg.repo_name_required)
  else
    permission <- resolve sc "permission" ;;
    normalizedPermission <- call_toLowerCase "permission" permission ;;
    permissionMap <- resolve sc "permissionMap" ;;
    keys <- Object_keys permissionMap ;;
    if negb (existsb (String.eqb normalizedPermission) keys)
    then throw (new_Error Msg.invalid_permission)
    else
      auth <- basic_auth credentials ;;
      try_catch
        (response <- axios (permission_request auth repoName) ;;
         console_log [str (Msg.permissions_updated repoName)] ;;
         ret (resp_status response))
        (fun error =>
           match err_response error with
           | None =>
               throw (new_TypeError
                        "Cannot read properties of undefined (reading 'data')")
           | Some r =>
               console_log [Some (resp_data r)] ;;
               console_error [str Msg.permission_failed; remote_message error] ;;
               throw error
           end).

(** *** Manifest Customizer

    [JSON.parse], the two writes, [JSON.stringify(pkg, null, 2)]. *)
Definition customize (pkg : value) (projectDir : string) : M value :=
  pkg1 <- assign_prop (Some pkg) "name" (JStr projectDir) ;;
  figdata <- get_prop (Some pkg1) "figdata" ;;
  figdata1 <- assign_prop figdata "id" (JStr projectDir) ;;
  assign_prop (Some pkg1) "figdata" figdata1.

Definition customize_manifest (pkgPath projectDir : string) : M unit :=
  text <- readFileSync pkgPath ;;
  pkg <- JSON_parse W text ;;
  pkg' <- customize pkg projectDir ;;
  writeFileSync pkgPath (Json.stringify pkg' 2).

(** *** Top-level run *)

(** The answer to the prompt stands for the command-line parsing and the
    prompt themselves. *)
Definition provision (v : variant) (projectDir : string) : M jsval :=
  console_log [str Msg.creating] ;;
  try_catch
    (repoUrl <- createBitbucketRepo v projectDir ;;
     console_log [str Msg.created; repoUrl] ;;
     ret repoUrl)
    (fun error =>
       console_error [str Msg.cannot_create] ;;
       process_exit 1).

(** Local Workspace Initializer and what follows it, first variant
    (lines 224-252). *)
Definition workspace_execSync (projectDir : string) (repoUrl : jsval) : M unit :=
  console_log [str Msg.cloning] ;;
  execSync ("git clone --depth 1 " ++ template_repository ++ " " ++ projectDir) ;;
  rmSync (projectDir ++ "/.git") ;;
  initialDir <- process_cwd ;;
  process_chdir projectDir ;;
  execSync "git init" ;;
  execSync ("git remote add origin " ++ Js.ToString repoUrl) ;;
  console_log [str Msg.customizing] ;;
  customize_manifest "package.json" projectDir ;;
  process_chdir initialDir ;;
  console_log [str Msg.done].

(** The same, second variant (lines 457-469). *)
Definition workspace_zx (projectDir : string) (repoUrl : jsval) : M unit :=
  console_log [str Msg.cloning] ;;
  zx ["git clone --depth 1 " ++ template_repository ++ " "; " "] [str projectDir] ;;
  zx ["cd "; " && rm -rf .git && git init && git remote add origin "; EmptyString]
     [str projectDir; repoUrl] ;;
  console_log [str Msg.customizing] ;;
  customize_manifest (projectDir ++ "/package.json") projectDir ;;
  console_log [str Msg.done].

Definition workspace (v : variant) : string -> jsval -> M unit :=
  match v with
  | ExecSyncVariant => workspace_execSync
  | ZxVariant => workspace_zx
  end.

Definition main (v : variant) : M unit :=
  let projectDir := w_answer W in
  repoUrl <- provision v projectDir ;;
  workspace v projectDir repoUrl.

Definition initial_state : state := mkState (w_cwd W) [] [].

Definition run (v : variant) : result unit * state := main v initial_state.

End Script.

(** ** Concrete worlds

    The worlds the examples run in: a start directory [/work], a credentials
    file, an API that answers every request alike, an operating system that
    refuses the operations listed in [failing]. *)

Module Example.

Definition credentials_text : string :=
  Json.stringify (JObj [("username", JStr "user"); ("token", JStr "secret")]) 2.

Definition template_manifest : value :=
  JObj [("name", JStr "data-vite-scaffolder");
        ("version", JStr "1.0.0");
        ("private", JBool true);
        ("scripts", JObj [("dev", JStr "vite"); ("build", JStr "vite build")]);
        ("figdata", JObj [("id", JStr "template"); ("kind", JStr "chart")]);
        ("keywords", JArr [JStr "figdata"; JStr "vite"])].

Definition manifest_text : string := Json.stringify template_manifest 2.

Definition ENOENT : js_error :=
  mkError PlainError "ENOENT: no such file or directory" (Some "ENOENT") None.

Definition command_failed : js_error :=
  mkError PlainError "Command failed" None None.

Definition repository (href : value) : value :=
  JObj [("links", JObj [("html", JObj [("href", href)])])].

Definition created (data : value) : http_response + js_error :=
  inl (mkResponse 201 data).

Definition files (credentials : option string) (projectDir : string)
    (path : string) : string + js_error :=
  if String.eqb path "/work/./bitbucket-credentials.json" then
    match credentials with
    | Some text => inl text
    | None => inr ENOENT
    end
  else if String.eqb path ("/work/" ++ projectDir ++ "/package.json")
  then inl manifest_text
  else inr ENOENT.

Definition is_clone (o : op) : bool :=
  match o with
  | Spawn _ ("git" :: "clone" :: _) => true
  | _ => false
  end.

Definition syntax_message (text : string) : string :=
  "Unexpected end of JSON input".

Definition make (credentials : option string) (projectDir : string)
    (answer : http_response + js_error) (failing : op -> bool) : world :=
  mkWorld "/work" projectDir (files credentials projectDir)
    (fun _ => answer)
    (fun o => if failing o then Some command_failed else None)
    syntax_message.

Definition nothing_fails (o : op) : bool := false.

(** Everything works: the project is called [demo]. *)
Definition working : world :=
  make (Some credentials_text) "demo"
    (created (repository (JStr "https://bitbucket.org/lefigaro/demo")))
    nothing_fails.

(** No credentials file. *)
Definition without_credentials : world :=
  make None "demo"
    (created (repository (JStr "https://bitbucket.org/lefigaro/demo")))
    nothing_fails.

(** The operator gives no name. *)
Definition empty_identifier : world :=
  make (Some credentials_text) EmptyString
    (created (repository (JStr "https://bitbucket.org/lefigaro/demo")))
    nothing_fails.

(** The operator gives a name of two words. *)
Definition two_words : world :=
  make (Some credentials_text) "my project"
    (created (repository (JStr "https://bitbucket.org/lefigaro/my-project")))
    nothing_fails.

(** The clone fails. *)
Definition clone_fails : world :=
  make (Some credentials_text) "demo"
    (created (repository (JStr "https://bitbucket.org/lefigaro/demo")))
    is_clone.

(** The API answers 201 with an empty object. *)
Definition no_links : world :=
  make (Some credentials_text) "demo" (created (JObj [])) nothing_fails.

(** The API answers 201 with [links.html] but no [href] in it. *)
Definition no_href : world :=
  make (Some credentials_text) "demo"
    (created (JObj [("links", JObj [("html", JObj [])])])) nothing_fails.

(** The API answers 201 with an [href] that holds a blank. *)
Definition blank_href : world :=
  make (Some credentials_text) "demo"
    (created (repository (JStr "https://bitbucket.org/lefigaro/my repo")))
    nothing_fails.

(** The credentials file lacks the token. *)
Definition incomplete_credentials : world :=
  make (Some (Json.stringify (JObj [("username", JStr "user")]) 2)) "demo"
    (created (repository (JStr "https://bitbucket.org/lefigaro/demo")))
    nothing_fails.

(** The credentials file is cut short. *)
Definition malformed_credentials : world :=
  make (Some "{") "demo"
    (created (repository (JStr "https://bitbucket.org/lefigaro/demo")))
    nothing_fails.

(** The credentials file holds [null]. *)
Definition null_credentials : world :=
  make (Some "null") "demo"
    (created (repository (JStr "https://bitbucket.org/lefigaro/demo")))
    nothing_fails.

(** A manifest with a number that no double holds. *)
Definition huge_manifest_text : string :=
  "{" ++ Str.q ++ "name" ++ Str.q ++ ":" ++ Str.q ++ "template" ++ Str.q ++ "," ++
  Str.q ++ "figdata" ++ Str.q ++ ":{" ++ Str.q ++ "id" ++ Str.q ++ ":" ++
  Str.q ++ "template" ++ Str.q ++ "}," ++
  Str.q ++ "huge" ++ Str.q ++ ":1e400}".

Definition huge_manifest : world :=
  mkWorld "/work" "demo" (fun _ => inl huge_manifest_text)
    (fun _ => created (repository (JStr "https://bitbucket.org/lefigaro/demo")))
    (fun _ => None) syntax_message.

(** The start directory cannot be entered again. *)
Definition is_way_back (o : op) : bool :=
  match o with
  | Enter path => String.eqb path "/work"
  | _ => false
  end.

Definition no_way_back : world :=
  make (Some credentials_text) "demo"
    (created (repository (JStr "https://bitbucket.org/lefigaro/demo")))
    is_way_back.

End Example.

(** * Reasoning about runs *)

Local Open Scope list_scope.

(** ** Weakest preconditions

    [wp m s Q]: running [m] from [s] ends with a result and a state that
    satisfy [Q].  Every computation of [M] is total, so [wp] speaks of the
    one run there is. *)

Definition wp {A} (m : M A) (s : state) (Q : result A -> state -> Prop) : Prop :=
  Q (fst (m s)) (snd (m s)).

Definition after_bind {A B} (f : A -> M B) (Q : result B -> state -> Prop) :
    result A -> state -> Prop :=
  fun r s' =>
    match r with
    | Ret a => wp (f a) s' Q
    | Throw e => Q (Throw e) s'
    | Exit c => Q (Exit c) s'
    end.

Definition after_try {A} (h : js_error -> M A) (Q : result A -> state -> Prop) :
    result A -> state -> Prop :=
  fun r s' =>
    match r with
    | Throw e => wp (h e) s' Q
    | _ => Q r s'
    end.

Ltac wp_simpl := lazy beta iota delta [after_bind after_try].

Section Rules.

Variable W : world.

Lemma wp_bind {A B} (m : M A) (f : A -> M B) s Q :
  wp m s (after_bind f Q) -> wp (bind m f) s Q.
Proof.
  unfold wp, after_bind, bind.
  destruct (m s) as [[a | e | c] s']; auto.
Qed.

Lemma wp_try_catch {A} (m : M A) (h : js_error -> M A) s Q :
  wp m s (after_try h Q) -> wp (try_catch m h) s Q.
Proof.
  unfold wp, after_try, try_catch.
  destruct (m s) as [[a | e | c] s']; auto.
Qed.

Lemma wp_conseq {A} (m : M A) s (Q Q' : result A -> state -> Prop) :
  wp m s Q -> (forall r s', Q r s' -> Q' r s') -> wp m s Q'.
Proof. unfold wp. auto. Qed.

Lemma wp_ret {A} (a : A) s Q : Q (Ret a) s -> wp (ret a) s Q.
Proof. auto. Qed.

Lemma wp_throw {A} (e : js_error) s (Q : result A -> state -> Prop) :
  Q (Throw e) s -> wp (throw e) s Q.
Proof. auto. Qed.

Lemma wp_exit {A} (c : Z) s (Q : result A -> state -> Prop) :
  Q (Exit c) s -> wp (process_exit c) s Q.
Proof. auto. Qed.

Lemma wp_emit e s Q : Q (Ret tt) (log_event e s) -> wp (emit e) s Q.
Proof. auto. Qed.

Lemma wp_console_log args s Q :
  Q (Ret tt) (log_line (Stdout, args) s) -> wp (console_log args) s Q.
Proof. auto. Qed.

Lemma wp_console_error args s Q :
  Q (Ret tt) (log_line (Stderr, args) s) -> wp (console_error args) s Q.
Proof. auto. Qed.

Lemma wp_process_cwd s Q : Q (Ret (st_cwd s)) s -> wp process_cwd s Q.
Proof. auto. Qed.

Lemma wp_set_cwd d s Q : Q (Ret tt) (move_to d s) -> wp (set_cwd d) s Q.
Proof. auto. Qed.

Lemma wp_JSON_parse text s Q :
  (forall v, Json.parse text = Some v -> Q (Ret v) s) ->
  (Json.parse text = None ->
   Q (Throw (new_SyntaxError (w_syntax W text))) s) ->
  wp (JSON_parse W text) s Q.
Proof.
  unfold wp, JSON_parse. intros Hv Hn.
  destruct (Json.parse text); [apply Hv | apply Hn]; reflexivity.
Qed.

Lemma wp_readFileSync path s Q :
  (forall text, w_read W (path_resolve (st_cwd s) path) = inl text ->
     Q (Ret text) (log_event (Read (path_resolve (st_cwd s) path)) s)) ->
  (forall e, w_read W (path_resolve (st_cwd s) path) = inr e ->
     Q (Throw e) (log_event (Read (path_resolve (st_cwd s) path)) s)) ->
  wp (readFileSync W path) s Q.
Proof.
  unfold wp, readFileSync, bind, process_cwd, emit. cbn. intros Ht He.
  destruct (w_read W _); [apply Ht | apply He]; reflexivity.
Qed.

Lemma wp_sys o s Q :
  (w_sys W o = None -> Q (Ret tt) (log_event (Sys o) s)) ->
  (forall e, w_sys W o = Some e -> Q (Throw e) (log_event (Sys o) s)) ->
  wp (sys W o) s Q.
Proof.
  unfold wp, sys, bind, emit. cbn. intros Hok He.
  destruct (w_sys W o); [apply He | apply Hok]; reflexivity.
Qed.

Lemma wp_axios req s Q :
  (forall r, w_http W req = inl r -> accepted r = true ->
     Q (Ret r) (log_event (Request req) s)) ->
  (forall r, w_http W req = inl r -> accepted r = false ->
     Q (Throw (status_error r)) (log_event (Request req) s)) ->
  (forall e, w_http W req = inr e -> Q (Throw e) (log_event (Request req) s)) ->
  wp (axios W req) s Q.
Proof.
  unfold wp, axios, bind, emit. cbn. intros Hr Hb He.
  destruct (w_http W req) as [r | e]; [| apply He; reflexivity].
  destruct (accepted r) eqn:Ha; [apply Hr | apply Hb]; auto.
Qed.

Lemma wp_execSync command s Q :
  (w_sys W (shell_op (st_cwd s) command) = None ->
   Q (Ret tt)
     (log_event (Sys (shell_op (st_cwd s) command))
        (log_event (ExecSync command) s))) ->
  (forall e, w_sys W (shell_op (st_cwd s) command) = Some e ->
   Q (Throw e)
     (log_event (Sys (shell_op (st_cwd s) command))
        (log_event (ExecSync command) s))) ->
  wp (execSync W command) s Q.
Proof.
  intros Hok He. unfold execSync.
  apply wp_bind, wp_emit. wp_simpl.
  apply wp_bind, wp_process_cwd. wp_simpl.
  apply wp_sys; assumption.
Qed.

Lemma wp_rmSync path s Q :
  (w_sys W (Remove (path_resolve (st_cwd s) path)) = None ->
   Q (Ret tt) (log_event (Sys (Remove (path_resolve (st_cwd s) path))) s)) ->
  (forall e, w_sys W (Remove (path_resolve (st_cwd s) path)) = Some e ->
   Q (Throw e) (log_event (Sys (Remove (path_resolve (st_cwd s) path))) s)) ->
  wp (rmSync W path) s Q.
Proof.
  intros Hok He. unfold rmSync.
  apply wp_bind, wp_process_cwd. wp_simpl. apply wp_sys; assumption.
Qed.

Lemma wp_writeFileSync path content s Q :
  (w_sys W (Write (path_resolve (st_cwd s) path) content) = None ->
   Q (Ret tt) (log_event (Sys (Write (path_resolve (st_cwd s) path) content)) s)) ->
  (forall e, w_sys W (Write (path_resolve (st_cwd s) path) content) = Some e ->
   Q (Throw e) (log_event (Sys (Write (path_resolve (st_cwd s) path) content)) s)) ->
  wp (writeFileSync W path content) s Q.
Proof.
  intros Hok He. unfold writeFileSync.
  apply wp_bind, wp_process_cwd. wp_simpl. apply wp_sys; assumption.
Qed.

Lemma wp_process_chdir path s Q :
  (w_sys W (Enter (path_resolve (st_cwd s) path)) = None ->
   Q (Ret tt)
     (move_to (path_resolve (st_cwd s) path)
        (log_event (Sys (Enter (path_resolve (st_cwd s) path))) s))) ->
  (forall e, w_sys W (Enter (path_resolve (st_cwd s) path)) = Some e ->
   Q (Throw e) (log_event (Sys (Enter (path_resolve (st_cwd s) path))) s)) ->
  wp (process_chdir W path) s Q.
Proof.
  intros Hok He. unfold process_chdir.
  apply wp_bind, wp_process_cwd. wp_simpl.
  apply wp_bind, wp_sys; [intros H | intros e H]; wp_simpl;
    [apply wp_set_cwd |]; auto.
Qed.

Lemma wp_run_script_nil dir s Q :
  Q (Ret tt) s -> wp (run_script W dir []) s Q.
Proof. intro H. cbn [run_script]. apply wp_ret. exact H. Qed.

Lemma wp_run_script_cons dir argv rest o d s Q :
  classify dir argv = Some (o, d) ->
  (w_sys W o = None -> wp (run_script W d rest) (log_event (Sys o) s) Q) ->
  (forall e, w_sys W o = Some e -> Q (Throw e) (log_event (Sys o) s)) ->
  wp (run_script W dir (argv :: rest)) s Q.
Proof.
  intros Hc Hok He. cbn [run_script]. rewrite Hc.
  apply wp_bind, wp_sys; [intros H | intros e H]; wp_simpl; auto.
Qed.

Lemma wp_run_script_left dir argv rest s Q :
  classify dir argv = None ->
  (w_sys W (Script dir (argv :: rest)) = None ->
   Q (Ret tt) (log_event (Sys (Script dir (argv :: rest))) s)) ->
  (forall e, w_sys W (Script dir (argv :: rest)) = Some e ->
   Q (Throw e) (log_event (Sys (Script dir (argv :: rest))) s)) ->
  wp (run_script W dir (argv :: rest)) s Q.
Proof.
  intros Hc Hok He. cbn [run_script]. rewrite Hc.
  apply wp_sys; [intros H | intros e H]; auto.
Qed.

End Rules.
Lemma value_eq_JNull (c : value) : c = JNull \/ c <> JNull.
Proof. destruct c; first [ left; reflexivity | right; discriminate ]. Qed.

(** Pure parts of the script, in closed form. *)

Definition valid_credentials (c : value) : bool :=
  Js.truthy (get_opt (Some c) "token") && Js.truthy (get_opt (Some c) "username").

Definition auth_of (c : value) : string :=
  Js.base64 (Js.ToString (get_opt (Some c) "username") ++ ":" ++
             Js.ToString (get_opt (Some c) "token"))%string.

(** [response.data.links.html], read with optional chaining. *)
Definition html_of (r : http_response) : jsval :=
  get_opt (get_opt (Some (resp_data r)) "links") "html".

Lemma get_prop_run v k s :
  v <> None -> v <> Some JNull -> get_prop v k s = (Ret (get_opt v k), s).
Proof.
  intros H1 H2. destruct v as [[| | | | |] |]; try reflexivity; congruence.
Qed.

Lemma wp_get_prop v k s Q :
  (forall msg, v = None \/ v = Some JNull -> Q (Throw (new_TypeError msg)) s) ->
  (v <> None -> v <> Some JNull -> Q (Ret (get_opt v k)) s) ->
  wp (get_prop v k) s Q.
Proof.
  intros Ht Hr. unfold wp.
  destruct v as [[| | | | |] |]; cbn;
    first [ apply Ht; auto | apply Hr; congruence ].
Qed.

Lemma wp_check_credentials c s Q :
  (forall msg, c = JNull -> Q (Throw (new_TypeError msg)) s) ->
  (c <> JNull -> valid_credentials c = false ->
   Q (Throw (new_Error Msg.incomplete)) s) ->
  (valid_credentials c = true -> Q (Ret c) s) ->
  wp (check_credentials c) s Q.
Proof.
  intros Hn Hi Hv. unfold check_credentials, valid_credentials in *.
  destruct (value_eq_JNull c) as [-> | Hc].
  - apply (Hn _ eq_refl).
  - assert (Hs : Some c <> Some JNull) by congruence.
    assert (Hs' : Some c <> None) by congruence.
    unfold wp, bind.
    rewrite (get_prop_run _ "token" s Hs' Hs). cbv beta iota.
    destruct (Js.truthy (get_opt (Some c) "token")); cbv beta iota delta [negb].
    + rewrite (get_prop_run _ "username" s Hs' Hs). cbv beta iota.
      destruct (Js.truthy (get_opt (Some c) "username"));
        cbv beta iota delta [negb andb]; auto.
    + auto.
Qed.

Section Functions.

Variable W : world.

(** The states a run of the provisioner goes through. *)
Definition cred_path (s : state) : string :=
  path_resolve (st_cwd s) credentials_path.

Definition cred_read (s : state) : state := log_event (Read (cred_path s)) s.

Definition requested (c : value) (repoName : string) (s : state) : state :=
  log_event (Request (create_request (auth_of c) repoName)) (cred_read s).

(** What [getBitbucketCredentials] prints on its way out, in the variant
    that has it. *)
Definition loader_log (v : variant) (s : state) : state :=
  match v with
  | ExecSyncVariant => log_line (Stderr, [str Msg.loader_failed]) s
  | ZxVariant => s
  end.

Lemma wp_read_credentials v s Q :
  (forall e, w_read W (cred_path s) = inr e ->
     Q (Throw e)
       (loader_log v (cred_read s))) ->
  (forall text,
     w_read W (cred_path s) = inl text ->
     Json.parse text = None ->
     Q (Throw (new_SyntaxError (w_syntax W text)))
       (loader_log v (cred_read s))) ->
  (forall text c,
     w_read W (cred_path s) = inl text ->
     Json.parse text = Some c ->
     Q (Ret c) (cred_read s)) ->
  wp (read_credentials W v) s Q.
Proof.
  intros He Hn Hc.
  unfold wp, read_credentials, getBitbucketCredentials, readFileSync, JSON_parse,
    try_catch, bind, process_cwd, emit, console_error, throw, ret.
  destruct v; cbn;
    (destruct (w_read W _) as [text | e] eqn:Hr; cbn;
     [ destruct (Json.parse text) as [c |] eqn:Hp; cbn;
       [ apply (Hc text c); auto | apply (Hn text); auto ]
     | apply He; auto ]).
Qed.

Lemma wp_load_credentials v s Q :
  (forall e, w_read W (cred_path s) = inr e ->
     Q (Throw e)
       (log_line (Stderr, credentials_diagnostic e)
          (loader_log v (cred_read s)))) ->
  (forall text,
     w_read W (cred_path s) = inl text ->
     Json.parse text = None ->
     Q (Throw (new_SyntaxError (w_syntax W text)))
       (log_line (Stderr, [str Msg.malformed_json])
          (loader_log v (cred_read s)))) ->
  (forall text c,
     w_read W (cred_path s) = inl text ->
     Json.parse text = Some c ->
     wp (check_credentials c) (cred_read s) Q) ->
  wp (load_credentials W v) s Q.
Proof.
  intros He Hn Hc. unfold load_credentials.
  apply wp_bind, wp_try_catch, wp_read_credentials.
  - intros e Hr. wp_simpl.
    apply wp_bind, wp_console_error. wp_simpl. apply wp_throw, (He e Hr).
  - intros text Hr Hp. wp_simpl.
    apply wp_bind, wp_console_error. wp_simpl. apply wp_throw, (Hn text Hr Hp).
  - intros text c Hr Hp. wp_simpl. apply (Hc text c Hr Hp).
Qed.


(** What makes the guarded part of [createBitbucketRepo] throw [e]: the
    transport fails, the status is refused, or the response has no
    [links.html] to read [href] from. *)
Definition request_failure (req : http_request) (e : js_error) : Prop :=
  w_http W req = inr e \/
  (exists r, w_http W req = inl r /\ accepted r = false /\ e = status_error r) \/
  (exists r msg, w_http W req = inl r /\ accepted r = true /\
     (html_of r = None \/ html_of r = Some JNull) /\ e = new_TypeError msg).

Lemma wp_basic_auth c s Q :
  valid_credentials c = true ->
  Q (Ret (auth_of c)) s -> wp (basic_auth c) s Q.
Proof.
  intros Hv HQ. unfold basic_auth.
  assert (Hc : c <> JNull) by (intros ->; discriminate).
  apply wp_bind, wp_get_prop; [intros msg [H | H]; congruence | intros _ _; wp_simpl].
  apply wp_bind, wp_get_prop; [intros msg [H | H]; congruence | intros _ _; wp_simpl].
  exact HQ.
Qed.

Lemma wp_repository_url r s Q :
  (forall msg, html_of r = None \/ html_of r = Some JNull ->
     Q (Throw (new_TypeError msg)) s) ->
  (forall h, html_of r = Some h -> h <> JNull ->
     Q (Ret (get_opt (Some h) "href")) s) ->
  wp (repository_url r) s Q.
Proof.
  intros Ht Hr. unfold repository_url, html_of in *.
  apply wp_bind, wp_get_prop.
  - intros msg [H | H]; [discriminate |]. injection H as H.
    wp_simpl. apply Ht. rewrite H. auto.
  - intros _ Hd. wp_simpl. apply wp_bind, wp_get_prop.
    + intros msg H. wp_simpl. apply Ht.
      destruct H as [-> | ->]; auto.
    + intros H1 H2. wp_simpl. apply wp_get_prop.
      * intros msg H. apply Ht. exact H.
      * intros H3 H4.
        destruct (get_opt (get_opt (Some (resp_data r)) "links") "html") as [h |] eqn:Hh;
          [| congruence].
        apply (Hr h eq_refl). congruence.
Qed.

Lemma remote_message_TypeError msg :
  remote_message (new_TypeError msg) = str msg.
Proof. reflexivity. Qed.

Lemma wp_createBitbucketRepo v repoName s Q :
  (forall e, w_read W (cred_path s) = inr e ->
     Q (Throw e)
       (log_line (Stderr, credentials_diagnostic e)
          (loader_log v (cred_read s)))) ->
  (forall text,
     w_read W (cred_path s) = inl text ->
     Json.parse text = None ->
     Q (Throw (new_SyntaxError (w_syntax W text)))
       (log_line (Stderr, [str Msg.malformed_json])
          (loader_log v (cred_read s)))) ->
  (forall text c e,
     w_read W (cred_path s) = inl text ->
     Json.parse text = Some c ->
     valid_credentials c = false ->
     (c = JNull /\ exists msg, e = new_TypeError msg) \/
     (c <> JNull /\ e = new_Error Msg.incomplete) ->
     Q (Throw e) (cred_read s)) ->
  (forall text c e,
     w_read W (cred_path s) = inl text ->
     Json.parse text = Some c ->
     valid_credentials c = true ->
     request_failure (create_request (auth_of c) repoName) e ->
     Q (Throw e)
       (log_line (Stderr, [str Msg.creation_failed; remote_message e])
          (requested c repoName s))) ->
  (forall text c r h,
     w_read W (cred_path s) = inl text ->
     Json.parse text = Some c ->
     valid_credentials c = true ->
     w_http W (create_request (auth_of c) repoName) = inl r ->
     accepted r = true ->
     html_of r = Some h -> h <> JNull ->
     Q (Ret (get_opt (Some h) "href"))
       (requested c repoName s)) ->
  wp (createBitbucketRepo W v repoName) s Q.
Proof.
  intros Hmissing Hmalformed Hinvalid Hfailed Hok.
  unfold createBitbucketRepo.
  apply wp_bind, wp_load_credentials.
  - intros e Hr. wp_simpl. apply Hmissing, Hr.
  - intros text Hr Hp. wp_simpl. apply (Hmalformed text Hr Hp).
  - intros text c Hr Hp. apply wp_check_credentials.
    + intros msg ->. wp_simpl. apply (Hinvalid text JNull _ Hr Hp eq_refl). left. eauto.
    + intros Hc Hv. wp_simpl. apply (Hinvalid text c _ Hr Hp Hv). right. auto.
    + intros Hv. wp_simpl.
      apply wp_bind, wp_basic_auth; [exact Hv |]. wp_simpl.
      apply wp_try_catch, wp_bind, wp_axios.
      * intros r Hh Ha. wp_simpl. apply wp_repository_url.
        -- intros msg Hm. wp_simpl.
           apply wp_bind, wp_console_error. wp_simpl. apply wp_throw.
           apply (Hfailed text c _ Hr Hp Hv). right. right. eauto 10.
        -- intros h H1 H2. wp_simpl. apply (Hok text c r h); assumption.
      * intros r Hh Ha. wp_simpl.
        apply wp_bind, wp_console_error. wp_simpl. apply wp_throw.
        apply (Hfailed text c _ Hr Hp Hv). right. left. eauto.
      * intros e Hh. wp_simpl.
        apply wp_bind, wp_console_error. wp_simpl. apply wp_throw.
        apply (Hfailed text c _ Hr Hp Hv). left. exact Hh.
Qed.

End Functions.

(** ** What a computation adds to the trace

    [emits P m]: whatever the start state, [m] leaves the trace it found in
    place and adds only events that satisfy [P]. *)

Definition adds (P : event -> Prop) (s s' : state) : Prop :=
  exists t, st_trace s' = st_trace s ++ t /\ Forall P t.

Definition emits {A} (P : event -> Prop) (m : M A) : Prop :=
  forall s, adds P s (snd (m s)).

Lemma adds_same P s s' : st_trace s' = st_trace s -> adds P s s'.
Proof.
  intro H. exists []. split; [| constructor].
  rewrite H. symmetry. apply app_nil_r.
Qed.

Lemma adds_refl P s : adds P s s.
Proof. apply adds_same. reflexivity. Qed.

Lemma adds_trans P s1 s2 s3 : adds P s1 s2 -> adds P s2 s3 -> adds P s1 s3.
Proof.
  intros [t1 [H1 F1]] [t2 [H2 F2]]. exists (t1 ++ t2). split.
  - rewrite H2, H1. symmetry. apply app_assoc.
  - apply Forall_app. split; assumption.
Qed.

Lemma emits_bind {A B} P (m : M A) (f : A -> M B) :
  emits P m -> (forall a, emits P (f a)) -> emits P (bind m f).
Proof.
  intros Hm Hf s. unfold bind. specialize (Hm s).
  destruct (m s) as [[a | e | c] s']; cbn in *; auto.
  eapply adds_trans; [exact Hm | apply Hf].
Qed.

Lemma emits_try_catch {A} P (m : M A) (h : js_error -> M A) :
  emits P m -> (forall e, emits P (h e)) -> emits P (try_catch m h).
Proof.
  intros Hm Hh s. unfold try_catch. specialize (Hm s).
  destruct (m s) as [[a | e | c] s']; cbn in *; auto.
  eapply adds_trans; [exact Hm | apply Hh].
Qed.

Lemma emits_ret {A} P (a : A) : emits P (ret a).
Proof. intro s. apply adds_refl. Qed.

Lemma emits_throw {A} P e : emits P (@throw A e).
Proof. intro s. apply adds_refl. Qed.

Lemma emits_exit {A} P c : emits P (@process_exit A c).
Proof. intro s. apply adds_refl. Qed.

Lemma emits_emit (P : event -> Prop) e : P e -> emits P (emit e).
Proof. intros H s. exists [e]. split; [reflexivity | auto]. Qed.

Lemma emits_console_log P args : emits P (console_log args).
Proof. intro s. apply adds_same. reflexivity. Qed.

Lemma emits_console_error P args : emits P (console_error args).
Proof. intro s. apply adds_same. reflexivity. Qed.

Lemma emits_process_cwd P : emits P process_cwd.
Proof. intro s. apply adds_refl. Qed.

Lemma emits_set_cwd P d : emits P (set_cwd d).
Proof. intro s. apply adds_same. reflexivity. Qed.

Lemma emits_get_prop P v k : emits P (get_prop v k).
Proof. intro s. destruct v as [[| | | | |] |]; apply adds_refl. Qed.

Lemma emits_assign_prop P t k v : emits P (assign_prop t k v).
Proof. intro s. destruct t as [[| | | | |] |]; apply adds_refl. Qed.

Lemma emits_JSON_parse P W text : emits P (JSON_parse W text).
Proof. intro s. unfold JSON_parse. destruct (Json.parse text); apply adds_refl. Qed.

Create HintDb emits.

#[local] Hint Resolve emits_ret emits_throw emits_exit emits_emit
  emits_console_log emits_console_error emits_process_cwd
  emits_set_cwd emits_get_prop emits_assign_prop emits_JSON_parse
  : emits.

Ltac emits_step :=
  lazymatch goal with
  | |- emits _ (bind _ _) => apply emits_bind; [| intro]
  | |- emits _ (try_catch _ _) => apply emits_try_catch; [| intro]
  | |- emits _ (if ?b then _ else _) => destruct b
  | |- emits _ (match ?x with _ => _ end) => destruct x
  | |- emits _ _ => solve [auto with emits]
  end.

Ltac emits_all := repeat emits_step.

Definition is_request (e : event) : bool :=
  match e with
  | Request _ => true
  | _ => false
  end.

(** The events of the workspace steps: anything but an HTTP request. *)
Definition local (e : event) : Prop := is_request e = false.

Section Emits.

Variable W : world.
Variable P : event -> Prop.

Lemma emits_sys o : P (Sys o) -> emits P (sys W o).
Proof. intro H. unfold sys. emits_all. Qed.

Lemma emits_readFileSync path :
  (forall p, P (Read p)) -> emits P (readFileSync W path).
Proof. intro H. unfold readFileSync. emits_all. Qed.

Hypothesis P_sys : forall o, P (Sys o).
Hypothesis P_read : forall p, P (Read p).

Hint Resolve emits_sys emits_readFileSync : emits.

Lemma emits_run_script dir commands : emits P (run_script W dir commands).
Proof.
  revert dir. induction commands as [| argv rest IH]; intro dir; cbn.
  - emits_all.
  - destruct (classify dir argv) as [[o dir'] |]; emits_all.
Qed.

Hint Resolve emits_run_script : emits.

Lemma emits_customize_manifest pkgPath projectDir :
  emits P (customize_manifest W pkgPath projectDir).
Proof. unfold customize_manifest, customize, writeFileSync. emits_all. Qed.

Hint Resolve emits_customize_manifest : emits.

(** The workspace steps add system operations, reads, and the shell calls
    of the variant. *)
Lemma emits_workspace v projectDir repoUrl :
  (forall command, v = ExecSyncVariant -> P (ExecSync command)) ->
  (forall pieces args, v = ZxVariant -> P (Zx pieces args)) ->
  emits P (workspace W v projectDir repoUrl).
Proof.
  intros He Hz.
  destruct v; cbn [workspace];
    unfold workspace_execSync, workspace_zx, execSync, rmSync, process_chdir, zx;
    emits_all.
Qed.

End Emits.

Lemma workspace_is_local W v projectDir repoUrl :
  emits local (workspace W v projectDir repoUrl).
Proof. apply emits_workspace; intros; reflexivity. Qed.

Section Provision.

Variable W : world.

Lemma wp_provision v projectDir s Q :
  wp (createBitbucketRepo W v projectDir) (log_line (Stdout, [str Msg.creating]) s)
     (fun r s' =>
        match r with
        | Ret url => Q (Ret url) (log_line (Stdout, [str Msg.created; url]) s')
        | Throw e => Q (Exit 1) (log_line (Stderr, [str Msg.cannot_create]) s')
        | Exit c => Q (Exit c) s'
        end) ->
  wp (provision W v projectDir) s Q.
Proof.
  intro H. unfold provision.
  apply wp_bind, wp_console_log. wp_simpl.
  apply wp_try_catch, wp_bind.
  eapply wp_conseq; [exact H |].
  intros [url | e | c] s' HQ; wp_simpl.
  - apply wp_bind, wp_console_log. wp_simpl. apply wp_ret. wp_simpl. exact HQ.
  - apply wp_bind, wp_console_error. wp_simpl. apply wp_exit. exact HQ.
  - exact HQ.
Qed.

End Provision.

(** ** Exploring the workspace steps *)

(** A computation that leaves the state alone and whose result does not
    depend on it. *)
Definition stateless {A} (m : M A) : Prop := exists r, forall s, m s = (r, s).

Lemma stateless_bind {A B} (m : M A) (f : A -> M B) :
  stateless m -> (forall a, stateless (f a)) -> stateless (bind m f).
Proof.
  intros [r Hm] Hf. unfold bind.
  destruct r as [a | e | c].
  - destruct (Hf a) as [r' Hr']. exists r'. intro s. rewrite Hm. apply Hr'.
  - exists (Throw e). intro s. rewrite Hm. reflexivity.
  - exists (Exit c). intro s. rewrite Hm. reflexivity.
Qed.

Lemma stateless_get_prop v k : stateless (get_prop v k).
Proof. destruct v as [[| | | | |] |]; eexists; intros ?; reflexivity. Qed.

Lemma stateless_assign_prop t k v : stateless (assign_prop t k v).
Proof. destruct t as [[| | | | |] |]; eexists; intros ?; reflexivity. Qed.

Lemma stateless_customize pkg projectDir : stateless (customize pkg projectDir).
Proof.
  unfold customize.
  repeat first [ apply stateless_bind; [| intro]
               | apply stateless_get_prop | apply stateless_assign_prop ].
Qed.

(** The result of the two writes on [pkg]. *)
Definition customized (pkg : value) (projectDir : string) : result value :=
  fst (customize pkg projectDir (mkState EmptyString [] [])).

Lemma customize_run pkg projectDir s :
  customize pkg projectDir s = (customized pkg projectDir, s).
Proof.
  unfold customized. destruct (stateless_customize pkg projectDir) as [r H].
  rewrite !H. reflexivity.
Qed.

Lemma wp_customize pkg projectDir s Q :
  Q (customized pkg projectDir) s -> wp (customize pkg projectDir) s Q.
Proof. unfold wp. rewrite customize_run. auto. Qed.

Lemma split_commands_words cur ws :
  split_commands cur (map Some ws) = [cur ++ ws].
Proof.
  revert cur. induction ws as [| w ws IH]; intro cur; cbn.
  - rewrite app_nil_r. reflexivity.
  - rewrite IH, <- app_assoc. reflexivity.
Qed.

Definition clone_template : list string :=
  [("git clone --depth 1 " ++ template_repository ++ " ")%string; " "%string].

Definition init_template : list string :=
  ["cd "%string;
   " && rm -rf .git && git init && git remote add origin "%string;
   EmptyString].

Lemma zx_clone_commands projectDir :
  split_commands [] (zx_tokens clone_template [str projectDir]) =
  [["git"; "clone"; "--depth"; "1"; template_repository; projectDir]]%string.
Proof. reflexivity. Qed.

Lemma zx_init_commands projectDir repoUrl :
  split_commands [] (zx_tokens init_template [str projectDir; repoUrl]) =
  [["cd"; projectDir]; ["rm"; "-rf"; ".git"]; ["git"; "init"];
   "git" :: "remote" :: "add" :: "origin" :: zx_arg repoUrl]%string.
Proof.
  change (zx_tokens init_template [str projectDir; repoUrl])
    with ([Some "cd"; Some projectDir; None; Some "rm"; Some "-rf"; Some ".git";
           None; Some "git"; Some "init"; None; Some "git"; Some "remote";
           Some "add"; Some "origin"]%string ++ map Some (zx_arg repoUrl) ++ []).
  rewrite app_nil_r. cbn [split_commands app].
  rewrite split_commands_words. reflexivity.
Qed.

Lemma classify_git dir rest :
  classify dir ("git"%string :: rest) = Some (Spawn dir ("git"%string :: rest), dir).
Proof. destruct rest as [| a [| b [| c r]]]; reflexivity. Qed.

Lemma classify_cd dir d :
  is_option d = false ->
  classify dir ["cd"%string; d] = Some (Enter (path_resolve dir d), path_resolve dir d).
Proof. intro H. cbn. rewrite H. reflexivity. Qed.

Lemma classify_cd_option dir d :
  is_option d = true -> classify dir ["cd"%string; d] = None.
Proof. intro H. cbn. rewrite H. reflexivity. Qed.

Lemma classify_is_not_write dir argv o d path content :
  classify dir argv = Some (o, d) -> o <> Write path content.
Proof.
  unfold classify. intros H Ho. subst o.
  destruct argv as [| c rest]; [discriminate H |].
  destruct (String.eqb c "cd").
  - destruct rest as [| a [| b r]]; try discriminate H.
    destruct (is_option a); discriminate H.
  - destruct rest as [| a [| b [| x r]]]; try discriminate H.
    destruct (String.eqb c "rm" && String.eqb a "-rf" && negb (is_option b));
      discriminate H.
Qed.

Lemma shell_op_is_not_write dir command path content :
  shell_op dir command <> Write path content.
Proof.
  unfold shell_op. destruct (plain_line command); [| discriminate].
  destruct (classify dir (Str.words command)) as [[o d] |] eqn:H; [| discriminate].
  exact (classify_is_not_write _ _ _ _ _ _ H).
Qed.

Ltac script_step :=
  lazymatch goal with
  | |- wp (run_script _ ?dir (["cd"%string; ?d] :: _)) _ _ =>
      lazymatch goal with
      | H : is_option d = false |- _ =>
          eapply wp_run_script_cons;
          [exact (classify_cd dir d H) | intros ? | intros ? ?]
      | H : is_option d = true |- _ =>
          apply wp_run_script_left;
          [exact (classify_cd_option dir d H) | intros ? | intros ? ?]
      | _ =>
          let Ho := fresh "Hoption" in
          destruct (is_option d) eqn:Ho;
          [ apply wp_run_script_left;
            [exact (classify_cd_option dir d Ho) | intros ? | intros ? ?]
          | eapply wp_run_script_cons;
            [exact (classify_cd dir d Ho) | intros ? | intros ? ?] ]
      end
  | |- wp (run_script _ _ (("git"%string :: _) :: _)) _ _ =>
      eapply wp_run_script_cons; [apply classify_git | intros ? | intros ? ?]
  | |- wp (run_script _ _ (_ :: _)) _ _ =>
      eapply wp_run_script_cons; [reflexivity | intros ? | intros ? ?]
  | |- wp (run_script _ _ []) _ _ => apply wp_run_script_nil
  end.

Lemma wp_zx W pieces args s Q :
  wp (run_script W (st_cwd s) (split_commands [] (zx_tokens pieces args)))
     (log_event (Zx pieces args) s) Q ->
  wp (zx W pieces args) s Q.
Proof.
  intro H. unfold zx. apply wp_bind, wp_emit. wp_simpl.
  apply wp_bind, wp_process_cwd. wp_simpl. exact H.
Qed.

Ltac wp_rule :=
  lazymatch goal with
  | |- after_bind _ _ _ _ => wp_simpl
  | |- after_try _ _ _ _ => wp_simpl
  | |- wp (bind _ _) _ _ => apply wp_bind
  | |- wp (try_catch _ _) _ _ => apply wp_try_catch
  | |- wp (ret _) _ _ => apply wp_ret
  | |- wp (throw _) _ _ => apply wp_throw
  | |- wp (process_exit _) _ _ => apply wp_exit
  | |- wp (emit _) _ _ => apply wp_emit
  | |- wp (console_log _) _ _ => apply wp_console_log
  | |- wp (console_error _) _ _ => apply wp_console_error
  | |- wp process_cwd _ _ => apply wp_process_cwd
  | |- wp (set_cwd _) _ _ => apply wp_set_cwd
  | |- wp (execSync _ _) _ _ => apply wp_execSync; [intros ? | intros ? ?]
  | |- wp (rmSync _ _) _ _ => apply wp_rmSync; [intros ? | intros ? ?]
  | |- wp (process_chdir _ _) _ _ => apply wp_process_chdir; [intros ? | intros ? ?]
  | |- wp (writeFileSync _ _ _) _ _ => apply wp_writeFileSync; [intros ? | intros ? ?]
  | |- wp (readFileSync _ _) _ _ => apply wp_readFileSync; intros ? ?
  | |- wp (JSON_parse _ _) _ _ => apply wp_JSON_parse; [intros ? ? | intros ?]
  | |- wp (sys _ _) _ _ => apply wp_sys; [intros ? | intros ? ?]
  | |- wp (customize _ _) _ _ =>
      apply wp_customize; destruct (customized _ _) eqn:?
  | |- wp (customize_manifest _ _ _) _ _ => unfold customize_manifest
  | |- wp (zx _ _ _) _ _ => apply wp_zx
  | |- wp (run_script _ _ (split_commands [] (zx_tokens clone_template _))) _ _ =>
      rewrite zx_clone_commands
  | |- wp (run_script _ _ (split_commands [] (zx_tokens init_template _))) _ _ =>
      rewrite zx_init_commands
  | |- wp (run_script _ _ _) _ _ => script_step
  | |- wp (workspace_execSync _ _ _) _ _ => unfold workspace_execSync
  | |- wp (workspace_zx _ _ _) _ _ =>
      unfold workspace_zx; fold clone_template; fold init_template
  | |- match ?r with Ret _ => _ | Throw _ => _ | Exit _ => _ end =>
      destruct r
  end.

Ltac state_simpl :=
  unfold requested, cred_read, cred_path in *;
  cbn [st_cwd st_trace st_console log_event log_line move_to initial_state
       loader_log app fst snd] in *.

Ltac wp_explore := repeat wp_rule; wp_simpl; state_simpl.

(** * The claims *)

(** ** Ordering of the provisioning and the local steps *)

(** The events that change the local file system: a shell command, a
    removal, a write.  Reading a file, sending a request and changing the
    working directory of the process change nothing on disk. *)
Definition is_mutation (e : event) : bool :=
  match e with
  | ExecSync _ | Zx _ _ => true
  | Sys (Enter _) => false
  | Sys _ => true
  | Read _ | Request _ => false
  end.

(** The request got a response, with a status axios accepts. *)
Definition succeeded (W : world) (req : http_request) : bool :=
  match w_http W req with
  | inl r => accepted r
  | inr _ => false
  end.

Definition ordered (W : world) (r : result unit) (s : state) : Prop :=
  (forall pre e post,
      st_trace s = pre ++ e :: post ->
      is_mutation e = true ->
      exists req, In (Request req) pre /\ succeeded W req = true) /\
  (forall req,
      In (Request req) (st_trace s) ->
      succeeded W req = false ->
      r = Exit 1 /\ Forall (fun e => is_mutation e = false) (st_trace s)).

Lemma ordered_no_request W r t cwd console :
  Forall (fun e => is_mutation e = false /\ is_request e = false) t ->
  ordered W r (mkState cwd console t).
Proof.
  intro F. split; cbn.
  - intros pre e post -> Hm.
    apply Forall_app in F. destruct F as [_ F]. inversion F as [| ? ? [H _] _]. congruence.
  - intros req Hin _. rewrite Forall_forall in F.
    destruct (F _ Hin) as [_ H]. discriminate.
Qed.

(** C1. In both variants: every event that changes the local file system
    comes after a create-repository request that succeeded; and when the
    request of a run failed, the run ended in [process.exit(1)] and changed
    nothing on disk. *)
Theorem creation_precedes_local_mutation (W : world) (v : variant) :
  (forall pre e post,
      st_trace (snd (run W v)) = pre ++ e :: post ->
      is_mutation e = true ->
      exists req, In (Request req) pre /\ succeeded W req = true) /\
  (forall req,
      In (Request req) (st_trace (snd (run W v))) ->
      succeeded W req = false ->
      fst (run W v) = Exit 1 /\
      Forall (fun e => is_mutation e = false) (st_trace (snd (run W v)))).
Proof.
  change (wp (main W v) (initial_state W) (ordered W)).
  unfold main. apply wp_bind, wp_provision, wp_createBitbucketRepo.
  - intros e Hr. wp_simpl. destruct v; apply ordered_no_request; repeat constructor.
  - intros text Hr Hp. wp_simpl. destruct v; apply ordered_no_request; repeat constructor.
  - intros text c e Hr Hp Hv _. wp_simpl. apply ordered_no_request; repeat constructor.
  - intros text c e Hr Hp Hv Hf. wp_simpl. split; cbn.
    + intros pre e' post Ht Hm.
      destruct pre as [| a [| b pre]]; cbn in Ht; inversion Ht; subst; try discriminate.
      destruct pre; discriminate.
    + intros req Hin _. split; [reflexivity | repeat constructor].
  - intros text c r h Hr Hp Hv Hh Ha Hhtml Hnn. wp_simpl.
    destruct (workspace_is_local W v (w_answer W) (get_opt (Some h) "href")
                (log_line (Stdout, [str Msg.created; get_opt (Some h) "href"])
                   (requested c (w_answer W)
                      (log_line (Stdout, [str Msg.creating]) (initial_state W)))))
      as [t [Ht Ft]].
    unfold wp. split; rewrite Ht; cbn.
    + intros pre e post Hd Hm.
      destruct pre as [| a [| b pre]]; cbn in Hd; inversion Hd; subst; try discriminate.
      eexists. split; [right; left; reflexivity |].
      unfold succeeded. rewrite Hh. exact Ha.
    + intros req [H | [H | H]]; try discriminate.
      * injection H as <-. unfold succeeded. rewrite Hh, Ha. discriminate.
      * rewrite Forall_forall in Ft. specialize (Ft _ H). discriminate.
Qed.

(** ** Failures of the Credential Loader *)

Lemma run_eq {A} (m : M A) s r s' :
  wp m s (fun r0 s0 => r0 = r /\ s0 = s') -> m s = (r, s').
Proof.
  unfold wp. intros [H1 H2]. rewrite (surjective_pairing (m s)), H1, H2. reflexivity.
Qed.

Lemma diagnostic_of_ENOENT e :
  err_code e = Some "ENOENT"%string ->
  credentials_diagnostic e = [str Msg.file_missing].
Proof. intro H. unfold credentials_diagnostic. rewrite H. reflexivity. Qed.

Lemma absent_field_invalid c :
  get_opt (Some c) "username" = None \/ get_opt (Some c) "token" = None ->
  valid_credentials c = false.
Proof.
  unfold valid_credentials. intros [H | H]; rewrite H; cbn.
  - apply andb_false_r.
  - reflexivity.
Qed.

Section Loader.

Variable W : world.

Lemma load_file_missing v s e :
  w_read W (cred_path s) = inr e ->
  err_code e = Some "ENOENT"%string ->
  load_credentials W v s =
  (Throw e, log_line (Stderr, [str Msg.file_missing]) (loader_log v (cred_read s))).
Proof.
  intros Hr Hc. apply run_eq, wp_load_credentials.
  - intros e' Hr'. rewrite Hr in Hr'. injection Hr' as <-.
    rewrite (diagnostic_of_ENOENT _ Hc). auto.
  - intros text Hr'. congruence.
  - intros text c Hr'. congruence.
Qed.

Lemma load_malformed v s text :
  w_read W (cred_path s) = inl text ->
  Json.parse text = None ->
  load_credentials W v s =
  (Throw (new_SyntaxError (w_syntax W text)),
   log_line (Stderr, [str Msg.malformed_json]) (loader_log v (cred_read s))).
Proof.
  intros Hr Hp. apply run_eq, wp_load_credentials.
  - intros e Hr'. congruence.
  - intros text' Hr' Hp'. assert (text' = text) by congruence. subst text'. auto.
  - intros text' c Hr' Hp'. congruence.
Qed.

Lemma load_incomplete v s text c :
  w_read W (cred_path s) = inl text ->
  Json.parse text = Some c ->
  c <> JNull ->
  valid_credentials c = false ->
  load_credentials W v s = (Throw (new_Error Msg.incomplete), cred_read s).
Proof.
  intros Hr Hp Hc Hv. apply run_eq, wp_load_credentials.
  - intros e Hr'. congruence.
  - intros text' Hr' Hp'. congruence.
  - intros text' c' Hr' Hp'.
    assert (c' = c) by congruence. subst c'.
    apply wp_check_credentials; intros; try congruence. auto.
Qed.

Lemma load_ok v s text c :
  w_read W (cred_path s) = inl text ->
  Json.parse text = Some c ->
  valid_credentials c = true ->
  load_credentials W v s = (Ret c, cred_read s).
Proof.
  intros Hr Hp Hv. apply run_eq, wp_load_credentials.
  - intros e Hr'. congruence.
  - intros text' Hr' Hp'. congruence.
  - intros text' c' Hr' Hp'.
    assert (c' = c) by congruence. subst c'.
    apply wp_check_credentials; intros; subst; try discriminate; try congruence. auto.
Qed.

Lemma load_null v s text :
  w_read W (cred_path s) = inl text ->
  Json.parse text = Some JNull ->
  load_credentials W v s =
  (Throw (new_TypeError "Cannot read properties of null (reading 'token')"),
   cred_read s).
Proof.
  intros Hr Hp. apply run_eq, wp_load_credentials.
  - intros e Hr'. congruence.
  - intros text' Hr' Hp'. congruence.
  - intros text' c' Hr' Hp'.
    assert (c' = JNull) by congruence. subst c'.
    unfold check_credentials. apply wp_bind. unfold get_prop. apply wp_throw.
    wp_simpl. auto.
Qed.

End Loader.

Lemma errors_distinct (e : js_error) (m1 m2 m3 : string) :
  err_code e = Some "ENOENT" ->
  e <> new_SyntaxError m1 /\ e <> new_Error m2 /\ e <> new_TypeError m3 /\
  new_SyntaxError m1 <> new_Error m2 /\
  new_SyntaxError m1 <> new_TypeError m3 /\
  new_Error m2 <> new_TypeError m3.
Proof.
  intro H. repeat split; try discriminate; intros ->; discriminate H.
Qed.

Lemma messages_distinct :
  Msg.file_missing <> Msg.malformed_json /\
  Msg.file_missing <> Msg.incomplete /\
  Msg.malformed_json <> Msg.incomplete.
Proof. repeat split; apply String.eqb_neq; vm_compute; reflexivity. Qed.

(** C3 (amended). The Credential Loader, in both variants and from any
    state.  A missing file (an error with code ENOENT) is rethrown after the
    file-missing text is printed.  A text that does not parse throws a
    [SyntaxError] after the invalid-JSON text is printed.  A parsed value
    other than [null] in which [token] or [username] is absent or falsy
    throws an [Error] whose message is the invalid-format text, and nothing
    is printed; the value [null] throws a [TypeError] instead.  Before the
    text of the first two causes the first variant prints the indented
    file-missing text of [getBitbucketCredentials], the second variant
    nothing.  The four errors differ, and so do the three texts.  When the
    file is missing, the run exits with code 1, the file-missing text is on
    the console and no request is in the trace; when the credentials are
    incomplete, the run exits with code 1 without a request, and the
    console holds the creating line and the cannot-create line only. *)
Theorem credential_failures_are_told_apart (W : world) (v : variant) (s : state) :
  (forall e,
      w_read W (cred_path s) = inr e ->
      err_code e = Some "ENOENT"%string ->
      load_credentials W v s =
      (Throw e,
       log_line (Stderr, [str Msg.file_missing]) (loader_log v (cred_read s)))) /\
  (forall text,
      w_read W (cred_path s) = inl text ->
      Json.parse text = None ->
      load_credentials W v s =
      (Throw (new_SyntaxError (w_syntax W text)),
       log_line (Stderr, [str Msg.malformed_json]) (loader_log v (cred_read s)))) /\
  (forall text c,
      w_read W (cred_path s) = inl text ->
      Json.parse text = Some c ->
      c <> JNull ->
      valid_credentials c = false ->
      load_credentials W v s = (Throw (new_Error Msg.incomplete), cred_read s)) /\
  (forall text,
      w_read W (cred_path s) = inl text ->
      Json.parse text = Some JNull ->
      exists msg,
        load_credentials W v s = (Throw (new_TypeError msg), cred_read s)) /\
  (st_console (loader_log ExecSyncVariant s) =
     st_console s ++ [(Stderr, [str Msg.loader_failed])] /\
   loader_log ZxVariant s = s) /\
  (forall e m1 m2 m3,
      err_code e = Some "ENOENT"%string ->
      e <> new_SyntaxError m1 /\ e <> new_Error m2 /\ e <> new_TypeError m3 /\
      new_SyntaxError m1 <> new_Error m2 /\
      new_SyntaxError m1 <> new_TypeError m3 /\
      new_Error m2 <> new_TypeError m3) /\
  (Msg.file_missing <> Msg.malformed_json /\
   Msg.file_missing <> Msg.incomplete /\
   Msg.malformed_json <> Msg.incomplete) /\
  (forall e,
      w_read W (cred_path (initial_state W)) = inr e ->
      err_code e = Some "ENOENT"%string ->
      fst (run W v) = Exit 1 /\
      In (Stderr, [str Msg.file_missing]) (st_console (snd (run W v))) /\
      forall req, ~ In (Request req) (st_trace (snd (run W v)))) /\
  (forall text c,
      w_read W (cred_path (initial_state W)) = inl text ->
      Json.parse text = Some c ->
      c <> JNull ->
      valid_credentials c = false ->
      fst (run W v) = Exit 1 /\
      st_console (snd (run W v)) =
        [(Stdout, [str Msg.creating]); (Stderr, [str Msg.cannot_create])] /\
      forall req, ~ In (Request req) (st_trace (snd (run W v)))).
Proof.
  split; [| split; [| split; [| split; [| split; [| split; [| split; [| split]]]]]]].
  - intros e Hr Hc. apply (load_file_missing W v s e Hr Hc).
  - intros text Hr Hp. apply (load_malformed W v s text Hr Hp).
  - intros text c Hr Hp Hc Ha. apply (load_incomplete W v s text c Hr Hp Hc Ha).
  - intros text Hr Hp. eexists. apply (load_null W v s text Hr Hp).
  - split; reflexivity.
  - intros e m1 m2 m3 Hc. exact (errors_distinct e m1 m2 m3 Hc).
  - exact messages_distinct.
  - intros e Hr Hc.
    change (wp (main W v) (initial_state W)
              (fun r s' => r = Exit 1 /\
                           In (Stderr, [str Msg.file_missing]) (st_console s') /\
                           forall req, ~ In (Request req) (st_trace s'))).
    unfold main. apply wp_bind, wp_provision, wp_createBitbucketRepo;
      try (intros; state_simpl; congruence).
    intros e' Hr'. wp_simpl. state_simpl.
    assert (e' = e) by (state_simpl; congruence). subst e'.
    rewrite (diagnostic_of_ENOENT _ Hc).
    split; [reflexivity |]. split.
    + destruct v; cbn; auto.
    + destruct v; cbn; intros req [Hq | []]; discriminate.
  - intros text c Hr Hp Hc Hv.
    change (wp (main W v) (initial_state W)
              (fun r s' => r = Exit 1 /\
                           st_console s' =
                           [(Stdout, [str Msg.creating]);
                            (Stderr, [str Msg.cannot_create])] /\
                           forall req, ~ In (Request req) (st_trace s'))).
    unfold main. apply wp_bind, wp_provision, wp_createBitbucketRepo;
      try (intros; state_simpl; congruence).
    intros text' c' e Hr' Hp' Hv'. wp_simpl. state_simpl.
    split; [reflexivity |]. split; [reflexivity |].
    intros req [Hq | []]; discriminate.
Qed.

(** ** The Repository Provisioner *)

Section Provisioner.

Variable W : world.

Lemma create_ok v repoName s text c r h :
  w_read W (cred_path s) = inl text ->
  Json.parse text = Some c ->
  valid_credentials c = true ->
  w_http W (create_request (auth_of c) repoName) = inl r ->
  accepted r = true ->
  html_of r = Some h -> h <> JNull ->
  createBitbucketRepo W v repoName s =
  (Ret (get_opt (Some h) "href"), requested c repoName s).
Proof.
  intros Hr Hp Hv Hh Ha Hhtml Hn.
  apply run_eq, wp_createBitbucketRepo.
  - intros e Hr'. congruence.
  - intros text' Hr' Hp'. congruence.
  - intros text' c' e Hr' Hp' Hv'. congruence.
  - intros text' c' e Hr' Hp' Hv' Hf.
    assert (c' = c) by congruence. subst c'.
    destruct Hf as [Hf | [[r' [Hf [Ha' _]]] | [r' [msg [Hf [_ [Hm _]]]]]]].
    + congruence.
    + assert (r' = r) by congruence. congruence.
    + assert (r' = r) by congruence. subst r'.
      destruct Hm as [Hm | Hm]; rewrite Hhtml in Hm; congruence.
  - intros text' c' r' h' Hr' Hp' Hv' Hh' Ha' Hhtml' Hn'.
    assert (c' = c) by congruence. subst c'.
    assert (r' = r) by congruence. subst r'.
    assert (h' = h) by congruence. subst h'. auto.
Qed.

Lemma create_no_html v repoName s text c r :
  w_read W (cred_path s) = inl text ->
  Json.parse text = Some c ->
  valid_credentials c = true ->
  w_http W (create_request (auth_of c) repoName) = inl r ->
  accepted r = true ->
  html_of r = None \/ html_of r = Some JNull ->
  exists msg,
    createBitbucketRepo W v repoName s =
    (Throw (new_TypeError msg),
     log_line (Stderr, [str Msg.creation_failed; str msg]) (requested c repoName s)).
Proof.
  intros Hr Hp Hv Hh Ha Hhtml.
  assert (G : wp (createBitbucketRepo W v repoName) s
                (fun r0 s0 => exists msg,
                     r0 = Throw (new_TypeError msg) /\
                     s0 = log_line (Stderr, [str Msg.creation_failed; str msg])
                            (requested c repoName s))).
  { apply wp_createBitbucketRepo.
    - intros e Hr'. congruence.
    - intros text' Hr' Hp'. congruence.
    - intros text' c' e Hr' Hp' Hv'. congruence.
    - intros text' c' e Hr' Hp' Hv' Hf.
      assert (c' = c) by congruence. subst c'.
      destruct Hf as [Hf | [[r' [Hf [Ha' _]]] | [r' [msg [Hf [_ [_ ->]]]]]]].
      + congruence.
      + assert (r' = r) by congruence. congruence.
      + exists msg. auto.
    - intros text' c' r' h' Hr' Hp' Hv' Hh' Ha' Hhtml' Hn'.
      assert (c' = c) by congruence. subst c'.
      assert (r' = r) by congruence. subst r'.
      destruct Hhtml as [Hm | Hm]; rewrite Hhtml' in Hm; congruence. }
  destruct G as [msg [G1 G2]]. exists msg.
  rewrite (surjective_pairing (createBitbucketRepo W v repoName s)), G1, G2.
  reflexivity.
Qed.

End Provisioner.

(** C7 (what the code does). Whatever the identifier, the empty one
    included, the Provisioner with valid credentials sends the
    create-repository request, to the address made of the fixed root and the
    identifier as it is: nothing checks the identifier. *)
Theorem provisioner_sends_request_for_any_identifier
    (W : world) (v : variant) (s : state) (repoName text : string) (c : value) :
  w_read W (cred_path s) = inl text ->
  Json.parse text = Some c ->
  valid_credentials c = true ->
  In (Request (create_request (auth_of c) repoName))
     (st_trace (snd (createBitbucketRepo W v repoName s))) /\
  req_url (create_request (auth_of c) repoName) = (api_root ++ repoName)%string /\
  req_url (create_request (auth_of c) EmptyString) = api_root.
Proof.
  intros Hr Hp Hv. split; [| split; [reflexivity |]].
  - change (wp (createBitbucketRepo W v repoName) s
              (fun _ s' => In (Request (create_request (auth_of c) repoName))
                              (st_trace s'))).
    apply wp_createBitbucketRepo.
    + intros e Hr'. congruence.
    + intros text' Hr' Hp'. congruence.
    + intros text' c' e Hr' Hp' Hv'. congruence.
    + intros text' c' e Hr' Hp' Hv' _.
      assert (c' = c) by congruence. subst c'.
      state_simpl. apply in_or_app. right. left. reflexivity.
    + intros text' c' r h Hr' Hp' Hv' _ _ _ _.
      assert (c' = c) by congruence. subst c'.
      state_simpl. apply in_or_app. right. left. reflexivity.
  - unfold create_request, api_root. cbn. reflexivity.
Qed.

(** C9 (amended). With valid credentials and an accepted response: when the
    body has no [links.html] to read from ([links] or [html] is missing or
    null), the Provisioner throws a [TypeError], and since the read stands
    inside the [try], the handler prints the creation-failed line with the
    message of that error before it rethrows; when [links.html] is there,
    nothing is thrown and the result is its [href], [undefined] when it has
    none. *)
Theorem provisioner_reads_href_inside_try
    (W : world) (v : variant) (s : state) (repoName text : string)
    (c : value) (r : http_response) :
  w_read W (cred_path s) = inl text ->
  Json.parse text = Some c ->
  valid_credentials c = true ->
  w_http W (create_request (auth_of c) repoName) = inl r ->
  accepted r = true ->
  (html_of r = None \/ html_of r = Some JNull ->
   exists msg,
     createBitbucketRepo W v repoName s =
     (Throw (new_TypeError msg),
      log_line (Stderr, [str Msg.creation_failed; str msg])
        (requested c repoName s))) /\
  (forall h,
      html_of r = Some h -> h <> JNull ->
      createBitbucketRepo W v repoName s =
      (Ret (get_opt (Some h) "href"), requested c repoName s)).
Proof.
  intros Hr Hp Hv Hh Ha. split.
  - intro Hm. apply (create_no_html W v repoName s text c r); assumption.
  - intros h Hm Hn. apply (create_ok W v repoName s text c r h); assumption.
Qed.

(** ** The Permission Updater *)

Lemma permission_is_free v projectDir repoUrl :
  scope_lookup (module_scope v projectDir repoUrl) "permission" = None /\
  scope_lookup (module_scope v projectDir repoUrl) "permissionMap" = None.
Proof. destruct v; split; reflexivity. Qed.

Lemma is_empty_false s : s <> EmptyString -> Str.is_empty s = false.
Proof. destruct s; [congruence | reflexivity]. Qed.

(** C6 (what the code does). With valid credentials and a non-empty
    repository name, the function throws [ReferenceError: permission is not
    defined] at [permission.toLowerCase()]: [permission] is neither a
    parameter nor declared anywhere in the file.  Nothing is validated and
    no request is sent: the credentials file has been read, and that is
    all. *)
Theorem permission_updater_throws_ReferenceError
    (W : world) (v : variant) (s : state) (projectDir : string) (repoUrl : jsval)
    (repoName text : string) (c : value) :
  w_read W (cred_path s) = inl text ->
  Json.parse text = Some c ->
  valid_credentials c = true ->
  repoName <> EmptyString ->
  updateBitbucketRepoPermissions W v (module_scope v projectDir repoUrl) repoName s =
  (Throw (new_ReferenceError "permission is not defined"), cred_read s) /\
  st_trace (cred_read s) = st_trace s ++ [Read (cred_path s)].
Proof.
  intros Hr Hp Hv Hn. split; [| reflexivity].
  unfold updateBitbucketRepoPermissions, bind.
  rewrite (load_ok W v s text c Hr Hp Hv).
  rewrite (is_empty_false _ Hn).
  unfold resolve.
  destruct (permission_is_free v projectDir repoUrl) as [-> _].
  reflexivity.
Qed.

(** What the body would do if the two free identifiers were bound as it
    expects: [permission] to a string, [permissionMap] to an object with the
    keys read, write and admin. *)
Definition intended_scope (permission : string) : scope :=
  [("permission"%string, Data (Some (JStr permission)));
   ("permissionMap"%string,
    Data (Some (JObj [("read"%string, JStr "read"); ("write"%string, JStr "write");
                      ("admin"%string, JStr "admin")])))].

Definition known_permission (p : string) : bool :=
  existsb (String.eqb (Str.toLowerCase p)) ["read"; "write"; "admin"]%string.

Lemma permission_updater_with_bindings
    (W : world) (v : variant) (s : state) (permission repoName text : string)
    (c : value) :
  w_read W (cred_path s) = inl text ->
  Json.parse text = Some c ->
  valid_credentials c = true ->
  repoName <> EmptyString ->
  (known_permission permission = false ->
   updateBitbucketRepoPermissions W v (intended_scope permission) repoName s =
   (Throw (new_Error Msg.invalid_permission), cred_read s)) /\
  (known_permission permission = true ->
   forall r,
     w_http W (permission_request (auth_of c) repoName) = inl r ->
     accepted r = true ->
     updateBitbucketRepoPermissions W v (intended_scope permission) repoName s =
     (Ret (resp_status r),
      log_line (Stdout, [str (Msg.permissions_updated repoName)])
        (log_event (Request (permission_request (auth_of c) repoName))
           (cred_read s))) /\
     req_data (permission_request (auth_of c) repoName) =
     JObj [("permission"%string, JStr "admin")]).
Proof.
  intros Hr Hp Hv Hn.
  unfold updateBitbucketRepoPermissions, bind.
  rewrite (load_ok W v s text c Hr Hp Hv), (is_empty_false _ Hn).
  cbn [intended_scope resolve scope_lookup String.eqb Ascii.eqb Bool.eqb ret
       call_toLowerCase Object_keys Obj.keys map fst].
  unfold known_permission. split.
  - intros ->. reflexivity.
  - intros -> r Hh Ha. split; [| reflexivity].
    cbn [negb].
    assert (Hb : basic_auth c (cred_read s) = (Ret (auth_of c), cred_read s)).
    { apply run_eq, wp_basic_auth; auto. }
    rewrite Hb. unfold try_catch, bind, axios, emit.
    rewrite Hh, Ha. reflexivity.
Qed.

(** ** Failures and the top-level run *)

Lemma Sys_inj a b : Sys a = Sys b -> a = b.
Proof. intro H. injection H as H. exact H. Qed.

Ltac in_trace H :=
  cbn [In] in H;
  repeat (destruct H as [H | H]; [try discriminate H |]).

(** C5 (amended). A failure of the provisioning step is caught by the
    top-level run, which prints its own line and calls [process.exit(1)].
    A failure of a system operation of the later steps (clone, removal of
    the history, init, registration of the remote, and the write of the
    manifest too) is not caught: the run ends with that error thrown, the
    failed operation is the last event of the trace, and nothing was
    written to stderr. *)
Theorem only_provisioning_failures_are_caught (W : world) (v : variant) :
  (forall e s',
      createBitbucketRepo W v (w_answer W)
        (log_line (Stdout, [str Msg.creating]) (initial_state W)) = (Throw e, s') ->
      run W v = (Exit 1, log_line (Stderr, [str Msg.cannot_create]) s')) /\
  (forall o e,
      In (Sys o) (st_trace (snd (run W v))) ->
      w_sys W o = Some e ->
      fst (run W v) = Throw e /\
      last (st_trace (snd (run W v))) (Read EmptyString) = Sys o /\
      Forall (fun l => fst l = Stdout) (st_console (snd (run W v)))).
Proof.
  split.
  - intros e s' H.
    unfold run, main, provision, bind, try_catch, console_log. rewrite H. reflexivity.
  - change (wp (main W v) (initial_state W)
              (fun r s' => forall o e,
                   In (Sys o) (st_trace s') -> w_sys W o = Some e ->
                   r = Throw e /\ last (st_trace s') (Read EmptyString) = Sys o /\
                   Forall (fun l => fst l = Stdout) (st_console s'))).
    unfold main. apply wp_bind, wp_provision, wp_createBitbucketRepo.
    + intros e Hr. wp_simpl. state_simpl. destruct v; cbn; intros o e' Hin; in_trace Hin; tauto.
    + intros text Hr Hp. wp_simpl. state_simpl. destruct v; cbn; intros o e' Hin; in_trace Hin; tauto.
    + intros text c e Hr Hp Hv _. wp_simpl. state_simpl. intros o e' Hin; in_trace Hin; tauto.
    + intros text c e Hr Hp Hv _. wp_simpl. state_simpl. intros o e' Hin; in_trace Hin; tauto.
    + intros text c r h Hr Hp Hv Hh Ha Hhtml Hn. wp_simpl.
      destruct v; cbn [workspace]; wp_explore;
        intros o e' Hin He; in_trace Hin;
        try tauto;
        try (apply Sys_inj in Hin; subst o; congruence);
        (apply Sys_inj in Hin; subst o;
         split; [congruence |];
         split; [reflexivity | repeat constructor]).
Qed.

(** ** The working directory of the process *)

Definition absolute (path : string) : bool := Str.head_is (Ascii.eqb "/") path.

Lemma path_resolve_absolute cwd path :
  absolute path = true -> path_resolve cwd path = path.
Proof. unfold absolute, path_resolve. intros ->. reflexivity. Qed.

(** The manifest was rewritten: a write is in the trace, and it succeeded. *)
Definition manifest_written (W : world) (s : state) : Prop :=
  exists path content,
    In (Sys (Write path content)) (st_trace s) /\
    w_sys W (Write path content) = None.


(** The second variant never changes the working directory of the process:
    its [cd] moves the shell that zx starts. *)
Lemma zx_variant_keeps_working_directory (W : world) :
  st_cwd (snd (run W ZxVariant)) = w_cwd W.
Proof.
  change (wp (main W ZxVariant) (initial_state W)
            (fun _ s' => st_cwd s' = w_cwd W)).
  unfold main. apply wp_bind, wp_provision, wp_createBitbucketRepo.
  1-4: intros; wp_simpl; reflexivity.
  intros. wp_simpl. cbn [workspace]. wp_explore; reflexivity.
Qed.

(** ** The two variants side by side *)

(** What the claim compares: the requests sent, the version-control
    operations (programs started, shell lines, removals), the manifests
    written. *)
Definition requests_of (t : list event) : list http_request :=
  flat_map (fun e => match e with Request r => [r] | _ => [] end) t.

Definition vcs_operations (t : list event) : list op :=
  flat_map (fun e =>
              match e with
              | Sys (Spawn d a) => [Spawn d a]
              | Sys (Shell d l) => [Shell d l]
              | Sys (Script d c) => [Script d c]
              | Sys (Remove p) => [Remove p]
              | _ => []
              end) t.

Definition manifests_written (t : list event) : list (string * string) :=
  flat_map (fun e => match e with Sys (Write p c) => [(p, c)] | _ => [] end) t.

Definition no_blank (s : string) : bool :=
  Str.forallb (fun c => negb (Ascii.eqb c " ")) s.

Lemma plain_char_no_blank c : plain_char c = true -> Ascii.eqb c " " = false.
Proof.
  destruct (Ascii.eqb_spec c " ") as [-> | H]; [discriminate | reflexivity].
Qed.

Lemma plain_word_no_blank w : plain_word w = true -> no_blank w = true.
Proof.
  unfold plain_word, no_blank. intro H. apply andb_prop in H. destruct H as [_ H].
  induction w as [| c w IH]; cbn in *; [reflexivity |].
  apply andb_prop in H. destruct H as [Hc Hw].
  rewrite (plain_char_no_blank _ Hc), (IH Hw). reflexivity.
Qed.

Lemma plain_word_nonempty w : plain_word w = true -> w <> EmptyString.
Proof. intros H ->. discriminate. Qed.

Lemma words_aux_no_blank w cur :
  no_blank w = true ->
  Str.words_aux cur w =
  if Str.is_empty (cur ++ w)%string then [] else [(cur ++ w)%string].
Proof.
  unfold no_blank.
  revert cur. induction w as [| c w IH]; intros cur H; cbn in *.
  - replace (cur ++ EmptyString)%string with cur; [reflexivity |].
    clear. induction cur; cbn; congruence.
  - apply andb_prop in H. destruct H as [Hc Hw].
    destruct (Ascii.eqb c " "); [discriminate |].
    rewrite (IH _ Hw).
    replace ((cur ++ String c EmptyString) ++ w)%string with (cur ++ String c w)%string;
      [reflexivity |].
    clear. induction cur; cbn; congruence.
Qed.

Lemma words_plain_word w :
  plain_word w = true -> Str.words_aux EmptyString w = [w].
Proof.
  intro H. rewrite (words_aux_no_blank _ _ (plain_word_no_blank _ H)). cbn.
  destruct w; [discriminate | reflexivity].
Qed.

Lemma plain_line_app a b :
  plain_line (a ++ b) = plain_line a && plain_line b.
Proof.
  unfold plain_line. induction a as [| c a IH]; cbn; [reflexivity |].
  rewrite IH. apply andb_assoc.
Qed.

Lemma plain_word_line w : plain_word w = true -> plain_line w = true.
Proof.
  unfold plain_word, plain_line. intro H. apply andb_prop in H. destruct H as [_ H].
  induction w as [| c w IH]; cbn in *; [reflexivity |].
  apply andb_prop in H. destruct H as [Hc Hw]. rewrite Hc, (IH Hw). reflexivity.
Qed.

Lemma shell_op_clone dir projectDir :
  plain_word projectDir = true ->
  shell_op dir ("git clone --depth 1 " ++ template_repository ++ " " ++ projectDir) =
  Spawn dir ["git"; "clone"; "--depth"; "1"; template_repository; projectDir]%string.
Proof.
  intro H. unfold shell_op.
  change ("git clone --depth 1 " ++ template_repository ++ " " ++ projectDir)%string
    with (("git clone --depth 1 " ++ template_repository ++ " ") ++ projectDir)%string.
  rewrite plain_line_app, (plain_word_line _ H).
  change (plain_line ("git clone --depth 1 " ++ template_repository ++ " ")) with true.
  cbn [andb].
  change (Str.words (("git clone --depth 1 " ++ template_repository ++ " ") ++ projectDir))
    with (["git"; "clone"; "--depth"; "1"; template_repository]%string ++
          Str.words_aux EmptyString projectDir).
  rewrite (words_plain_word _ H). cbn [app]. rewrite classify_git. reflexivity.
Qed.

Lemma shell_op_init dir :
  shell_op dir "git init" = Spawn dir ["git"; "init"]%string.
Proof. reflexivity. Qed.

Lemma shell_op_remote dir url :
  plain_word url = true ->
  shell_op dir ("git remote add origin " ++ url) =
  Spawn dir ["git"; "remote"; "add"; "origin"; url]%string.
Proof.
  intro H. unfold shell_op.
  rewrite plain_line_app, (plain_word_line _ H).
  change (plain_line "git remote add origin ") with true. cbn [andb].
  change (Str.words ("git remote add origin " ++ url))
    with (["git"; "remote"; "add"; "origin"]%string ++ Str.words_aux EmptyString url).
  rewrite (words_plain_word _ H). cbn [app]. rewrite classify_git. reflexivity.
Qed.

Lemma append_assoc a b c : ((a ++ b) ++ c = a ++ (b ++ c))%string.
Proof. induction a; cbn; congruence. Qed.

Lemma head_is_app p a b :
  a <> EmptyString -> Str.head_is p (a ++ b) = Str.head_is p a.
Proof. destruct a; [congruence | reflexivity]. Qed.

(** A path inside the project directory, from the start directory and from
    the project directory. *)
Lemma path_resolve_inside cwd projectDir rel :
  projectDir <> EmptyString ->
  absolute rel = false ->
  path_resolve (path_resolve cwd projectDir) rel =
  path_resolve cwd (projectDir ++ "/" ++ rel).
Proof.
  intros Hn Hr. unfold path_resolve, absolute in *.
  rewrite Hr, (head_is_app _ _ _ Hn).
  destruct (Str.head_is (Ascii.eqb "/") projectDir).
  - reflexivity.
  - rewrite !append_assoc. reflexivity.
Qed.

Lemma resolve_git_dir cwd projectDir :
  projectDir <> EmptyString ->
  path_resolve (path_resolve cwd projectDir) ".git" =
  path_resolve cwd (projectDir ++ "/.git").
Proof. intro H. apply (path_resolve_inside cwd projectDir ".git" H). reflexivity. Qed.

Lemma resolve_manifest cwd projectDir :
  projectDir <> EmptyString ->
  path_resolve (path_resolve cwd projectDir) "package.json" =
  path_resolve cwd (projectDir ++ "/package.json").
Proof.
  intro H. apply (path_resolve_inside cwd projectDir "package.json" H). reflexivity.
Qed.

(** ** The remote handed to the Local Workspace Initializer *)

(** The operation starts [git remote add origin]: the directory it runs in
    and the arguments that follow [origin]. *)
Definition registration (o : op) : option (string * list string) :=
  match o with
  | Spawn dir (g :: r :: a :: n :: rest) =>
      if String.eqb g "git" && String.eqb r "remote" && String.eqb a "add" &&
         String.eqb n "origin"
      then Some (dir, rest)
      else None
  | _ => None
  end.

Definition project_directory (W : world) : string :=
  path_resolve (w_cwd W) (w_answer W).

(** The operations of the Local Workspace Initializer that come before the
    registration: the clone, the removal of the history, the change into
    the project directory (of the process in the first variant, of the
    shell in the second) and [git init]. *)
Definition preparation (W : world) (v : variant) : list op :=
  match v with
  | ExecSyncVariant =>
      [shell_op (w_cwd W)
         ("git clone --depth 1 " ++ template_repository ++ " " ++ w_answer W);
       Remove (path_resolve (w_cwd W) (w_answer W ++ "/.git"));
       Enter (project_directory W);
       Spawn (project_directory W) ["git"; "init"]]%string
  | ZxVariant =>
      [Spawn (w_cwd W)
         ["git"; "clone"; "--depth"; "1"; template_repository; w_answer W];
       Enter (project_directory W);
       Remove (path_resolve (project_directory W) ".git");
       Spawn (project_directory W) ["git"; "init"]]%string
  end.

(** What lets the URL reach git as one word: in the first variant, which
    interpolates it into the shell line as it is, that it is made of plain
    characters; in the second, which quotes it, only that the [cd] before
    it in the same line is told its directory. *)
Definition reaches_git_whole (W : world) (v : variant) (href : string) : bool :=
  match v with
  | ExecSyncVariant => plain_word href
  | ZxVariant => negb (is_option (w_answer W))
  end.

Lemma clone_line_is_not_registration dir projectDir :
  registration
    (shell_op dir ("git clone --depth 1 " ++ template_repository ++ " " ++ projectDir)) =
  None.
Proof.
  unfold shell_op.
  destruct (plain_line _); [| reflexivity].
  change (Str.words ("git clone --depth 1 " ++ template_repository ++ " " ++ projectDir))
    with (["git"; "clone"; "--depth"; "1"; template_repository]%string ++
          Str.words_aux EmptyString projectDir).
  cbn [app]. rewrite classify_git. reflexivity.
Qed.

Lemma registration_spawn dir rest :
  registration (Spawn dir ("git" :: "remote" :: "add" :: "origin" :: rest)%string) =
  Some (dir, rest).
Proof. reflexivity. Qed.

Ltac registration_leaf Hin Hreg :=
  in_trace Hin;
  try contradiction;
  try (apply Sys_inj in Hin; subst;
       first
         [ rewrite clone_line_is_not_registration in Hreg; discriminate Hreg
         | rewrite registration_spawn in Hreg; congruence
         | cbn [registration] in Hreg; discriminate Hreg
         | cbn in Hreg; discriminate Hreg ]).

Ltac in_list := cbn [In]; repeat (first [left; reflexivity | right]).

Ltac prepared H :=
  repeat (let Hhead := fresh "Hhead" in
          pose proof (Forall_inv H) as Hhead; cbn beta in Hhead;
          apply Forall_inv_tail in H).

(** The same world, seen by both variants: a leaf of the first variant
    fixes the answers, which the second variant then follows. *)
Ltac same_answers :=
  repeat match goal with
         | H1 : ?f = inl ?a, H2 : ?f = inl ?b |- _ =>
             tryif constr_eq a b then fail
             else (assert (b = a) by congruence; subst b; clear H2)
         | H1 : ?f = Some ?a, H2 : ?f = Some ?b |- _ =>
             tryif constr_eq a b then fail
             else (assert (b = a) by congruence; subst b; clear H2)
         end.

Ltac prune :=
  state_simpl;
  try congruence;
  try match goal with
      | Henter : forall p, w_sys _ (Enter p) = None,
        H : w_sys _ (Enter ?p) = Some _ |- _ =>
          rewrite (Henter p) in H; discriminate H
      end;
  same_answers.

Ltac follow_rule :=
  lazymatch goal with
  | |- after_bind _ _ _ _ => wp_simpl
  | |- after_try _ _ _ _ => wp_simpl
  | |- wp (bind _ _) _ _ => apply wp_bind
  | |- wp (ret _) _ _ => apply wp_ret
  | |- wp (console_log _) _ _ => apply wp_console_log
  | |- wp (writeFileSync _ _ _) _ _ =>
      apply wp_writeFileSync; [intros ? | intros ? ?]; prune
  | |- wp (readFileSync _ _) _ _ => apply wp_readFileSync; intros ? ?; prune
  | |- wp (JSON_parse _ _) _ _ =>
      apply wp_JSON_parse; [intros ? ? | intros ?]; prune
  | |- wp (customize ?p ?i) _ _ =>
      apply wp_customize;
      match goal with H : customized p i = _ |- _ => rewrite H end
  | |- wp (customize_manifest _ _ _) _ _ => unfold customize_manifest
  | |- wp (zx _ _ _) _ _ => apply wp_zx
  | |- wp (run_script _ _ (split_commands [] (zx_tokens clone_template _))) _ _ =>
      rewrite zx_clone_commands
  | |- wp (run_script _ _ (split_commands [] (zx_tokens init_template _))) _ _ =>
      rewrite zx_init_commands; cbn [zx_arg Js.ToString Js.to_string app]
  | |- wp (run_script _ _ _) _ _ => script_step; prune
  | |- wp (workspace_zx _ _ _) _ _ =>
      unfold workspace_zx; fold clone_template; fold init_template
  end.

Ltac follow := repeat follow_rule; wp_simpl; state_simpl.

(** A goal put aside while the first variant is explored. *)
Definition later (P : Prop) : Prop := P.

Section Agreement.

Variable W : world.

Hypothesis plain_identifier : plain_word (w_answer W) = true.

Hypothesis identifier_is_no_option : is_option (w_answer W) = false.

Hypothesis plain_href :
  forall req r h,
    w_http W req = inl r -> html_of r = Some h -> h <> JNull ->
    exists url, get_opt (Some h) "href" = Some (JStr url) /\ plain_word url = true.

Hypothesis enter_ok : forall p, w_sys W (Enter p) = None.

Definition agree (r1 : result unit) (s1 : state) (r2 : result unit) (s2 : state) : Prop :=
  r1 = r2 /\
  requests_of (st_trace s1) = requests_of (st_trace s2) /\
  vcs_operations (st_trace s1) = vcs_operations (st_trace s2) /\
  manifests_written (st_trace s1) = manifests_written (st_trace s2).

Lemma workspaces_agree url cwd console path req :
  plain_word url = true ->
  wp (workspace_execSync W (w_answer W) (Some (JStr url)))
     (mkState cwd console [Read path; Request req])
     (fun r1 s1 =>
        later
          (wp (workspace_zx W (w_answer W) (Some (JStr url)))
              (mkState cwd console [Read path; Request req])
              (agree r1 s1))).
Proof.
  intros Hurl.
  pose proof (plain_word_nonempty _ plain_identifier) as Hne.
  wp_explore;
    cbn [Js.ToString Js.to_string] in *;
    rewrite ?(shell_op_clone cwd _ plain_identifier),
      ?(shell_op_init (path_resolve cwd (w_answer W))),
      ?(shell_op_remote (path_resolve cwd (w_answer W)) _ Hurl),
      ?(resolve_manifest cwd _ Hne) in *;
    prune;
    unfold later;
    follow;
    rewrite ?(resolve_git_dir cwd _ Hne) in *; prune;
    unfold agree; state_simpl;
    (split; [congruence | repeat split; reflexivity]).
Qed.

End Agreement.

Ltac failed_request H :=
  let r := fresh "r" in
  let msg := fresh "msg" in
  destruct H as [H | [[r [H [? ?]]] | [r [msg [H [? [[?H | ?H] ?]]]]]]].

Section Variants.

Variable W : world.

Hypothesis plain_identifier : plain_word (w_answer W) = true.

Hypothesis identifier_is_no_option : is_option (w_answer W) = false.

Hypothesis plain_href :
  forall req r h,
    w_http W req = inl r -> html_of r = Some h -> h <> JNull ->
    exists url, get_opt (Some h) "href" = Some (JStr url) /\ plain_word url = true.

Hypothesis enter_ok : forall p, w_sys W (Enter p) = None.

(** The two provisioning steps end alike; when they succeed they end in the
    same state, with a plain URL. *)
Lemma provisions_agree :
  wp (provision W ExecSyncVariant (w_answer W)) (initial_state W)
     (fun r1 s1 =>
        later
          (wp (provision W ZxVariant (w_answer W)) (initial_state W)
              (fun r2 s2 =>
                 r1 = r2 /\ st_trace s1 = st_trace s2 /\
                 forall repoUrl, r1 = Ret repoUrl ->
                   s1 = s2 /\
                   exists url path req,
                     repoUrl = Some (JStr url) /\ plain_word url = true /\
                     st_trace s1 = [Read path; Request req]))).
Proof.
  apply wp_provision, wp_createBitbucketRepo; intros; wp_simpl; unfold later;
    apply wp_provision, wp_createBitbucketRepo; intros; wp_simpl;
    state_simpl; same_answers;
    repeat match goal with
           | H : request_failure _ _ _ |- _ => failed_request H
           end;
    same_answers;
    try congruence;
    try (split; [reflexivity |]; split; [reflexivity |];
         intros repoUrl Hret; discriminate Hret).
  split; [reflexivity |]. split; [reflexivity |].
  intros repoUrl Hret. split; [reflexivity |].
  match goal with
  | Hh : w_http W _ = inl ?r, Hm : html_of ?r = Some ?h, Hn : ?h <> JNull |- _ =>
      destruct (plain_href _ _ _ Hh Hm Hn) as [url [Hu Hp]]
  end.
  exists url. do 2 eexists.
  split; [congruence |]. split; [exact Hp | reflexivity].
Qed.


End Variants.

(** * The JSON codec

    [JSON.parse] reads back what [JSON.stringify] wrote, and what it returns
    is well formed. *)

(** ** Strings *)


(** The unit the scanner reads back from the quoted form of a character. *)
Definition unit_of (c : ascii) : Json.unit16 :=
  let n := nat_of_ascii c in
  if (n <? 32)%nat &&
     negb ((n =? 8)%nat || (n =? 9)%nat || (n =? 10)%nat || (n =? 12)%nat ||
           (n =? 13)%nat)
  then Json.Esc (N.of_nat n)
  else Json.Raw c.

Lemma scan_quote_char (c : ascii) (rest : string) :
  Json.scan_string (Json.quote_char c ++ rest) =
  Json.cons_units (unit_of c) (Json.scan_string rest).
Proof.
  destruct c as [[] [] [] [] [] [] [] []]; reflexivity.
Qed.

Lemma decode_unit_of (c : ascii) (l : list Json.unit16) :
  Json.decode_units (unit_of c :: l) = String c (Json.decode_units l).
Proof.
  destruct c as [[] [] [] [] [] [] [] []]; reflexivity.
Qed.

Lemma scan_quote_chars (s rest : string) :
  Json.scan_string (Json.quote_chars s ++ String Str.dquote rest) =
  Some (map unit_of (list_ascii_of_string s), rest).
Proof.
  induction s as [| c s IH]; cbn [Json.quote_chars list_ascii_of_string map].
  - reflexivity.
  - rewrite append_assoc, scan_quote_char, IH. reflexivity.
Qed.

Lemma decode_units_of (s : string) :
  Json.decode_units (map unit_of (list_ascii_of_string s)) = s.
Proof.
  induction s as [| c s IH]; cbn [list_ascii_of_string map].
  - reflexivity.
  - rewrite decode_unit_of, IH. reflexivity.
Qed.

(** Reading back a quoted string, from after its opening quote. *)
Lemma parse_quoted (s rest : string) :
  Json.parse_string (Json.quote_chars s ++ String Str.dquote rest) = Some (s, rest).
Proof.
  unfold Json.parse_string. rewrite scan_quote_chars, decode_units_of. reflexivity.
Qed.


(** ** Numbers: [Number::toString] read back *)

Lemma append_nil_r (s : string) : (s ++ EmptyString)%string = s.
Proof. induction s; cbn; congruence. Qed.

Lemma length_append (a b : string) :
  String.length (a ++ b) = String.length a + String.length b.
Proof. induction a; cbn; congruence. Qed.

Lemma forallb_append p (a b : string) :
  Str.forallb p (a ++ b) = Str.forallb p a && Str.forallb p b.
Proof.
  induction a as [| c a IH]; cbn; [reflexivity |].
  rewrite IH, andb_assoc. reflexivity.
Qed.

Lemma span_stop p (s : string) :
  Str.head_is p s = false -> Str.span p s = (EmptyString, s).
Proof. destruct s as [| c r]; cbn; [reflexivity | intros ->; reflexivity]. Qed.

Lemma span_app p (a rest : string) :
  Str.forallb p a = true -> Str.head_is p rest = false ->
  Str.span p (a ++ rest) = (a, rest).
Proof.
  induction a as [| c a IH]; cbn; intros Ha Hr.
  - apply span_stop, Hr.
  - apply andb_prop in Ha as [-> Ha]. rewrite (IH Ha Hr). reflexivity.
Qed.

Lemma substring_all (s : string) : substring 0 (String.length s) s = s.
Proof. induction s; cbn; congruence. Qed.

Lemma substring_split (s : string) (n : nat) :
  n <= String.length s ->
  exists a b, substring 0 n s = a /\ substring n (String.length s - n) s = b /\
              s = (a ++ b)%string /\ String.length a = n.
Proof.
  revert n. induction s as [| c s IH]; intros [| n] Hn; cbn in Hn.
  - exists EmptyString, EmptyString. auto.
  - lia.
  - exists EmptyString, (String c s). cbn. rewrite substring_all. auto.
  - destruct (IH n ltac:(lia)) as (a & b & Ha & Hb & Hs & Hl).
    exists (String c a), b. cbn. rewrite Ha, Hb, <- Hs, Hl. auto.
Qed.

Lemma zeros_digits (m : nat) : Str.forallb Str.is_digit (Num.zeros m) = true.
Proof. unfold Num.zeros. induction m; cbn; auto. Qed.

Lemma length_zeros (m : nat) : String.length (Num.zeros m) = m.
Proof. unfold Num.zeros. induction m; cbn; congruence. Qed.

Lemma strip_trailing_zeros (m : nat) :
  Num.strip_trailing (Num.zeros m) = EmptyString.
Proof.
  unfold Num.zeros. induction m as [| m IH]; cbn [Str.repeat_char Num.strip_trailing];
    [reflexivity |].
  rewrite IH. reflexivity.
Qed.

Lemma strip_trailing_shortest (s : string) (m : nat) :
  Num.ends_nonzero s = true -> Num.strip_trailing (s ++ Num.zeros m) = s.
Proof.
  induction s as [| c s IH]; [discriminate |].
  destruct s as [| c' s].
  - cbn [Num.ends_nonzero]. intro Hc. cbn [append Num.strip_trailing].
    rewrite strip_trailing_zeros. apply negb_true_iff in Hc. rewrite Hc.
    reflexivity.
  - intro H. change (Num.ends_nonzero (String c' s) = true) in H.
    specialize (IH H). cbn [append Num.strip_trailing] in *. rewrite IH.
    cbn. rewrite andb_false_r. reflexivity.
Qed.

Lemma strip_leading_zeros (m : nat) (d : ascii) (ds : string) (p : Z) :
  Num.is_zero_char d = false ->
  Num.strip_leading (Num.zeros m ++ String d ds) p =
  (String d ds, (p - Z.of_nat m)%Z).
Proof.
  intro Hd. revert p. induction m as [| m IH]; intro p.
  - cbn. rewrite Hd. f_equal. lia.
  - cbn [Num.zeros Str.repeat_char append Num.strip_leading].
    change (Num.is_zero_char "0") with true. cbv iota.
    change (Str.repeat_char "0" m) with (Num.zeros m).
    rewrite IH. f_equal. lia.
Qed.

(** What remains of digits in shortest form, however many zeros are written
    before and after them. *)
Lemma normalize_shortest (neg : bool) (d : ascii) (ds : string) (a b : nat) (p : Z) :
  Num.is_zero_char d = false -> Num.ends_nonzero (String d ds) = true ->
  Num.normalize neg (Num.zeros a ++ String d ds ++ Num.zeros b) p =
  mkNumber neg (String d ds) (p - Z.of_nat a) false.
Proof.
  intros Hd He. unfold Num.normalize.
  change (String d ds ++ Num.zeros b)%string with (String d (ds ++ Num.zeros b)).
  rewrite (strip_leading_zeros a d (ds ++ Num.zeros b) p Hd).
  change (String d (ds ++ Num.zeros b)) with (String d ds ++ Num.zeros b)%string.
  rewrite (strip_trailing_shortest _ b He). reflexivity.
Qed.

Lemma digit_is_not c (x : ascii) :
  Str.is_digit x = false -> Str.is_digit c = true -> Ascii.eqb c x = false.
Proof.
  intros Hx Hc. destruct (Ascii.eqb_spec c x); [subst; congruence | reflexivity].
Qed.

Lemma decimal_digits (u : Decimal.uint) :
  Str.forallb Str.is_digit (NilEmpty.string_of_uint u) = true.
Proof. induction u; cbn; auto. Qed.

Lemma decimal_shape (m : N) :
  Num.decimal m = NilEmpty.string_of_uint (N.to_uint m) /\
  Num.decimal m <> EmptyString.
Proof.
  unfold Num.decimal.
  assert (N.to_uint m <> Decimal.Nil) as Hn.
  { intro H. pose proof (DecimalN.Unsigned.to_of (N.to_uint m)) as Hu.
    rewrite DecimalN.Unsigned.of_to in Hu. rewrite H in Hu at 2.
    rewrite H in Hu. cbn in Hu. discriminate. }
  destruct (N.to_uint m); try congruence; cbn; split; try reflexivity; discriminate.
Qed.

Lemma digits_value_decimal (m : N) : Num.digits_value (Num.decimal m) = Some m.
Proof.
  unfold Num.digits_value. rewrite (proj1 (decimal_shape m)), NilEmpty.usu.
  rewrite DecimalN.Unsigned.of_to. reflexivity.
Qed.

(** Where a number can end: what follows does not continue it. *)
Definition number_end (rest : string) : bool :=
  negb (Str.head_is
          (fun c => Str.is_digit c || Ascii.eqb c "." || Ascii.eqb c "e" ||
                    Ascii.eqb c "E") rest).

Lemma number_end_digit rest :
  number_end rest = true -> Str.head_is Str.is_digit rest = false.
Proof.
  unfold number_end. destruct rest as [| c r]; cbn; [reflexivity |].
  intro H. apply negb_true_iff in H. repeat apply orb_false_elim in H as [H _].
  exact H.
Qed.

Lemma parse_fraction_skip rest :
  number_end rest = true -> Num.parse_fraction rest = Some (EmptyString, rest).
Proof.
  unfold number_end. destruct rest as [| c r]; cbn; [reflexivity |].
  intro H. apply negb_true_iff in H.
  apply orb_false_elim in H as [H _]. apply orb_false_elim in H as [H _].
  apply orb_false_elim in H as [_ H]. rewrite H. reflexivity.
Qed.

Lemma parse_exponent_skip rest :
  number_end rest = true -> Num.parse_exponent rest = Some (0%Z, rest).
Proof.
  unfold number_end. destruct rest as [| c r]; cbn; [reflexivity |].
  intro H. apply negb_true_iff in H.
  apply orb_false_elim in H as [H H1]. apply orb_false_elim in H as [_ H2].
  rewrite H1, H2. reflexivity.
Qed.

Lemma parse_fraction_digits (frac rest : string) :
  Str.forallb Str.is_digit frac = true -> frac <> EmptyString ->
  Str.head_is Str.is_digit rest = false ->
  Num.parse_fraction ("." ++ frac ++ rest) = Some (frac, rest).
Proof.
  intros Hf Hn Hr. cbn. rewrite (span_app _ _ _ Hf Hr).
  destruct frac; [congruence | reflexivity].
Qed.

Lemma parse_exponent_digits (e : Z) (rest : string) :
  Str.head_is Str.is_digit rest = false ->
  Num.parse_exponent
    ("e" ++ (if (0 <=? e)%Z then "+" else "-") ++
     Num.decimal (Z.to_N (Z.abs e)) ++ rest) = Some (e, rest).
Proof.
  intro Hr. destruct (decimal_shape (Z.to_N (Z.abs e))) as [Hd Hn].
  pose proof (decimal_digits (N.to_uint (Z.to_N (Z.abs e)))) as Hall.
  rewrite <- Hd in Hall.
  destruct (Z.leb_spec 0 e) as [He | He]; cbn -[Z.mul];
    rewrite (span_app _ _ _ Hall Hr), digits_value_decimal;
    (destruct (Num.decimal (Z.to_N (Z.abs e))); [congruence |]);
    cbn [Str.is_empty]; do 2 f_equal; lia.
Qed.

(** The parts of a number literal, read one after the other. *)
Lemma parse_parts (neg : bool) (int frac_text exp_text frac rest : string) (e : Z) :
  Str.forallb Str.is_digit int = true ->
  int <> EmptyString ->
  Str.head_is Num.is_zero_char int && negb (String.length int =? 1)%nat = false ->
  Str.head_is Str.is_digit (frac_text ++ exp_text ++ rest) = false ->
  Num.parse_fraction (frac_text ++ exp_text ++ rest) = Some (frac, (exp_text ++ rest)%string) ->
  Num.parse_exponent (exp_text ++ rest) = Some (e, rest) ->
  Num.literal ((if neg then "-" else EmptyString) ++ int ++ frac_text ++ exp_text ++ rest) =
  Some (Num.normalize neg (int ++ frac) (Z.of_nat (String.length int) + e), rest).
Proof.
  intros Hint Hne Hlead Hstop Hfrac Hexp.
  assert (forall s, s = (int ++ frac_text ++ exp_text ++ rest)%string ->
            (let (i, s2) := Str.span Str.is_digit s in
             if Str.is_empty i then None
             else if Str.head_is Num.is_zero_char i && negb (String.length i =? 1)%nat
             then None
             else match Num.parse_fraction s2 with
                  | None => None
                  | Some (fr, s3) =>
                      match Num.parse_exponent s3 with
                      | None => None
                      | Some (e, s4) =>
                          Some (Num.normalize neg (i ++ fr)
                                  (Z.of_nat (String.length i) + e), s4)
                      end
                  end) =
            Some (Num.normalize neg (int ++ frac)
                    (Z.of_nat (String.length int) + e), rest)) as Hbody.
  { intros s ->. rewrite (span_app _ _ _ Hint Hstop).
    rewrite (is_empty_false _ Hne), Hlead, Hfrac, Hexp. reflexivity. }
  unfold Num.literal. destruct neg.
  - cbn [append]. change (Ascii.eqb "-" "-") with true. cbv iota.
    apply Hbody. reflexivity.
  - cbn [append]. destruct int as [| c int']; [congruence |].
    cbn [append]. cbn in Hint. apply andb_prop in Hint as [Hc _].
    rewrite (digit_is_not c "-" eq_refl Hc). apply Hbody. reflexivity.
Qed.

Lemma is_digit_nonzero_head (d : ascii) (ds : string) :
  Num.is_zero_char d = false ->
  Str.head_is Num.is_zero_char (String d ds) && negb (String.length (String d ds) =? 1)%nat = false.
Proof. intro H. cbn [Str.head_is]. rewrite H. reflexivity. Qed.

Ltac flatten :=
  repeat first [ rewrite append_assoc | progress cbn [append] ].
Ltac flatten_in H :=
  repeat first [ rewrite append_assoc in H | progress cbn [append] in H ].

Lemma literal_toString (x : number) (rest : string) :
  Num.shape x = true -> num_infinite x = false -> number_end rest = true ->
  Num.literal (Num.toString x ++ rest) = Some (x, rest).
Proof.
  destruct x as [neg digits n inf]. unfold Num.shape, Num.toString.
  cbn [num_neg num_digits num_point num_infinite].
  destruct digits as [| d ds]; intros Hwf Hinf Hend; subst inf.
  - apply andb_prop in Hwf as [Hneg Hn]. apply negb_true_iff in Hneg.
    apply Z.eqb_eq in Hn. subst neg n.
    pose proof (parse_parts false "0" "" "" "" rest 0 eq_refl ltac:(discriminate)
                  eq_refl (number_end_digit _ Hend)
                  (parse_fraction_skip _ Hend) (parse_exponent_skip _ Hend)) as H.
    exact H.
  - apply andb_prop in Hwf as [Hwf Hlast]. apply andb_prop in Hwf as [Hall Hd].
    apply negb_true_iff in Hd.
    set (D := String d ds) in *.
    set (k := Z.of_nat (String.length D)).
    rewrite append_assoc.
    destruct ((k <=? n)%Z && (n <=? 21)%Z) eqn:HA.
    { (* digits and zeros *)
      apply andb_prop in HA as [Hkn _]. apply Z.leb_le in Hkn.
      pose proof (parse_parts neg (D ++ Num.zeros (Z.to_nat (n - k))) "" "" "" rest 0) as H.
      cbn [append] in H. rewrite append_assoc in H. rewrite append_assoc.
      rewrite H; clear H.
      - rewrite append_nil_r.
        rewrite (normalize_shortest neg d ds 0 (Z.to_nat (n - k)) _ Hd Hlast).
        rewrite length_append, length_zeros. do 3 f_equal. unfold k. lia.
      - rewrite forallb_append, Hall, zeros_digits. reflexivity.
      - discriminate.
      - apply (is_digit_nonzero_head d _ Hd).
      - apply number_end_digit, Hend.
      - apply parse_fraction_skip, Hend.
      - apply parse_exponent_skip, Hend. }
    destruct ((0 <? n)%Z && (n <=? 21)%Z) eqn:HB.
    { (* a point inside the digits *)
      apply andb_prop in HB as [H0n Hn21]. apply Z.ltb_lt in H0n.
      assert (n < k)%Z as Hnk.
      { apply andb_false_iff in HA as [HA | HA]; [apply Z.leb_gt in HA; lia | congruence]. }
      destruct (substring_split D (Z.to_nat n) ltac:(unfold k in Hnk; lia))
        as (a & b & Ha & Hb & HD & Hla).
      replace (Z.to_nat (k - n)) with (String.length D - Z.to_nat n) by (unfold k; lia).
      rewrite Ha, Hb.
      assert (Str.forallb Str.is_digit a = true /\ Str.forallb Str.is_digit b = true)
        as [Hda Hdb].
      { rewrite HD, forallb_append in Hall. apply andb_prop in Hall. exact Hall. }
      assert (b <> EmptyString) as Hbne.
      { intro Hbe. rewrite Hbe, append_nil_r in HD. rewrite <- HD in Hla.
        unfold k in Hnk. lia. }
      destruct a as [| a0 a']; [cbn in Hla; lia |].
      assert (a0 = d) by (unfold D in HD; cbn in HD; congruence). subst a0.
      pose proof (parse_parts neg (String d a') ("." ++ b) "" b rest 0) as H.
      flatten_in H. flatten. rewrite H; clear H.
      - change (String d (a' ++ b)) with (String d a' ++ b)%string.
        rewrite <- HD. unfold D.
        pose proof (normalize_shortest neg d ds 0 0 (Z.of_nat (String.length (String d a')) + 0) Hd Hlast) as Hn.
        cbn [Num.zeros Str.repeat_char append] in Hn. rewrite append_nil_r in Hn.
        rewrite Hn. do 3 f_equal. rewrite Hla. lia.
      - exact Hda.
      - discriminate.
      - apply (is_digit_nonzero_head d _ Hd).
      - reflexivity.
      - apply (parse_fraction_digits b rest Hdb Hbne (number_end_digit _ Hend)).
      - apply parse_exponent_skip, Hend. }
    destruct ((-6 <? n)%Z && (n <=? 0)%Z) eqn:HC.
    { (* zeros after the point *)
      apply andb_prop in HC as [_ Hn0]. apply Z.leb_le in Hn0.
      pose proof (parse_parts neg "0" ("." ++ Num.zeros (Z.to_nat (- n)) ++ D) ""
                    (Num.zeros (Z.to_nat (- n)) ++ D) rest 0) as H.
      flatten_in H. flatten. rewrite H; clear H.
      - pose proof (normalize_shortest neg d ds (S (Z.to_nat (- n))) 0 (Z.of_nat 1 + 0) Hd Hlast) as Hn.
        cbn [Num.zeros Str.repeat_char append] in Hn. rewrite append_nil_r in Hn.
        cbn [String.length]. unfold D. unfold Num.zeros. rewrite Hn.
        do 3 f_equal. lia.
      - reflexivity.
      - discriminate.
      - reflexivity.
      - reflexivity.
      - pose proof (parse_fraction_digits (Num.zeros (Z.to_nat (- n)) ++ D) rest) as Hf.
        flatten_in Hf. apply Hf.
        + rewrite forallb_append, zeros_digits, Hall. reflexivity.
        + unfold D. destruct (Num.zeros (Z.to_nat (- n))); discriminate.
        + apply number_end_digit, Hend.
      - apply parse_exponent_skip, Hend. }
    (* exponent *)
    set (e := (n - 1)%Z).
    set (exp_text := ("e" ++ (if (0 <=? e)%Z then "+" else "-") ++
                      Num.decimal (Z.to_N (Z.abs e)))%string).
    pose proof (parse_exponent_digits e rest (number_end_digit _ Hend)) as Hexp.
    assert (forall t, ("e" ++ (if (0 <=? e)%Z then "+" else "-") ++
                      Num.decimal (Z.to_N (Z.abs e)) ++ t = exp_text ++ t)%string) as Hfold.
    { intro t. unfold exp_text. rewrite !append_assoc. reflexivity. }
    rewrite Hfold in Hexp.
    cbn in Hall. apply andb_prop in Hall as [Hd0 Hds].
    pose proof (parse_parts neg (String d "")
                  (if Str.is_empty ds then "" else "." ++ ds) exp_text ds rest e) as H.
    assert (forall t, ((String d (if Str.is_empty ds then "" else "." ++ ds) ++
             "e" ++ (if (0 <=? e)%Z then "+" else "-") ++
             Num.decimal (Z.to_N (Z.abs e))) ++ t =
            String d "" ++ (if Str.is_empty ds then "" else "." ++ ds) ++ exp_text ++ t)%string) as Hshape.
    { intro t. unfold exp_text. cbn [append]. rewrite !append_assoc. cbn [append].
      rewrite !append_assoc. reflexivity. }
    rewrite Hshape, H; clear H Hshape.
    + pose proof (normalize_shortest neg d ds 0 0 (Z.of_nat 1 + e) Hd Hlast) as Hn.
      cbn [Num.zeros Str.repeat_char append] in Hn. rewrite append_nil_r in Hn.
      cbn [append String.length]. rewrite Hn. do 3 f_equal. unfold e. lia.
    + cbn. rewrite Hd0. reflexivity.
    + discriminate.
    + apply (is_digit_nonzero_head d _ Hd).
    + destruct ds; reflexivity.
    + destruct ds as [| c ds'].
      * cbn [Str.is_empty append]. unfold exp_text. reflexivity.
      * cbn [Str.is_empty]. rewrite append_assoc.
        apply (parse_fraction_digits (String c ds') (exp_text ++ rest) Hds).
        -- discriminate.
        -- reflexivity.
    + exact Hexp.
Qed.

Lemma number_eqb_true (x y : number) : Num.eqb x y = true -> x = y.
Proof.
  destruct x as [n1 d1 p1 i1], y as [n2 d2 p2 i2]. unfold Num.eqb.
  cbn [num_neg num_digits num_point num_infinite]. intro H.
  apply andb_prop in H as [H Hi]. apply andb_prop in H as [H Hp].
  apply andb_prop in H as [Hn Hd].
  apply Bool.eqb_prop in Hn, Hi. apply String.eqb_eq in Hd. apply Z.eqb_eq in Hp.
  congruence.
Qed.

Lemma number_eqb_refl (x : number) : Num.eqb x x = true.
Proof.
  unfold Num.eqb.
  rewrite !Bool.eqb_reflx, String.eqb_refl, Z.eqb_refl. reflexivity.
Qed.

(** A finite number [JSON.parse] can return is its own shortest form. *)
Lemma wf_finite (x : number) :
  Num.wf x = true -> num_infinite x = false ->
  Num.shape x = true /\ Num.canon x = x.
Proof.
  unfold Num.wf. intros H Hi. rewrite Hi in H.
  apply andb_prop in H as [Hs Hc]. split; [exact Hs |].
  apply number_eqb_true, Hc.
Qed.

(** [JSON.parse] reads a finite number back from the text of
    [Number::toString]. *)
Theorem parse_toString (x : number) (rest : string) :
  Num.wf x = true -> num_infinite x = false -> number_end rest = true ->
  Num.parse (Num.toString x ++ rest) = Some (x, rest).
Proof.
  intros Hwf Hi Hend. destruct (wf_finite x Hwf Hi) as [Hs Hc].
  unfold Num.parse. rewrite (literal_toString x rest Hs Hi Hend), Hc.
  reflexivity.
Qed.

(** ** Objects: the order of own properties *)

Lemma key_before_irrefl k : Obj.key_before k k = false.
Proof.
  unfold Obj.key_before. destruct (Obj.index_of k).
  - apply N.ltb_irrefl.
  - rewrite String.eqb_refl. reflexivity.
Qed.

Lemma canonical_snoc ks k :
  Obj.canonical (ks ++ [k]) = true ->
  Obj.canonical ks = true /\ forall k', In k' ks -> Obj.key_before k' k = true.
Proof.
  induction ks as [| k0 ks IH]; cbn [app Obj.canonical]; intro H.
  - split; [reflexivity | intros ? []].
  - apply andb_prop in H as [Hall Hc]. destruct (IH Hc) as [Hks Hbefore].
    rewrite forallb_app in Hall. apply andb_prop in Hall as [Hall Hk].
    cbn in Hk. rewrite andb_true_r in Hk.
    split.
    + rewrite Hall, Hks. reflexivity.
    + intros k' [<- | Hin]; auto.
Qed.

Lemma lookup_absent (o : Obj.props) k :
  (forall k', In k' (map fst o) -> String.eqb k' k = false) ->
  Obj.lookup o k = None.
Proof.
  induction o as [| [k0 v0] o IH]; cbn; intro H; [reflexivity |].
  rewrite (H k0) by auto. apply IH. intros k' Hin. apply H. auto.
Qed.

Lemma insert_index_last i k v (o : Obj.props) :
  (forall k', In k' (map fst o) ->
     exists j, Obj.index_of k' = Some j /\ (j <? i)%N = true) ->
  Obj.insert_index i k v o = o ++ [(k, v)].
Proof.
  induction o as [| [k0 v0] o IH]; cbn; intro H; [reflexivity |].
  destruct (H k0) as (j & -> & ->); [auto |].
  rewrite IH; [reflexivity |]. intros k' Hin. apply H. auto.
Qed.

(** A key that comes after all the keys of an object is added at the end. *)
Lemma set_last (o : Obj.props) k v :
  Obj.canonical (map fst o ++ [k]) = true -> Obj.set o k v = o ++ [(k, v)].
Proof.
  intro H. apply canonical_snoc in H as [_ Hbefore]. unfold Obj.set, Obj.has.
  rewrite lookup_absent.
  - destruct (Obj.index_of k) as [i |] eqn:Hi; [| reflexivity].
    apply insert_index_last. intros k' Hin. specialize (Hbefore k' Hin).
    unfold Obj.key_before in Hbefore. rewrite Hi in Hbefore.
    destruct (Obj.index_of k') as [j |]; [eauto | discriminate].
  - intros k' Hin. specialize (Hbefore k' Hin).
    destruct (String.eqb_spec k' k) as [-> | _]; [| reflexivity].
    rewrite key_before_irrefl in Hbefore. discriminate.
Qed.

(** Entries in the order of own properties build the object that lists
    them in that order. *)
Lemma of_entries_canonical (m : list (string * value)) :
  Obj.canonical (map fst m) = true -> Obj.of_entries m = m.
Proof.
  unfold Obj.of_entries.
  induction m as [| [k v] m IH] using rev_ind; intro H; [reflexivity |].
  rewrite fold_left_app. cbn [fold_left fst snd].
  rewrite map_app in H. cbn [map fst] in H.
  rewrite IH by (apply canonical_snoc in H; apply H).
  apply set_last, H.
Qed.

Lemma keys_replace (o : Obj.props) k v :
  map fst (Obj.replace o k v) = map fst o.
Proof.
  induction o as [| [k0 v0] o IH]; cbn; [reflexivity |].
  destruct (String.eqb k0 k); cbn; congruence.
Qed.

Lemma lookup_replace (o : Obj.props) k v k' :
  Obj.lookup (Obj.replace o k v) k' =
  if String.eqb k k' then (if Obj.has o k then Some v else None)
  else Obj.lookup o k'.
Proof.
  unfold Obj.has. induction o as [| [k0 v0] o IH]; cbn.
  - destruct (String.eqb k k'); reflexivity.
  - destruct (String.eqb_spec k0 k) as [-> | Hne]; cbn.
    + destruct (String.eqb k k'); reflexivity.
    + rewrite IH. destruct (String.eqb_spec k k') as [Heq | Hne'].
      * subst k'. rewrite (proj2 (String.eqb_neq k0 k) Hne). reflexivity.
      * reflexivity.
Qed.

Lemma set_present (o : Obj.props) k v :
  Obj.has o k = true -> Obj.set o k v = Obj.replace o k v.
Proof. unfold Obj.set. intros ->. reflexivity. Qed.

(** ** Values *)

Section ValueInduction.

Variable P : value -> Prop.
Hypothesis Hnull : P JNull.
Hypothesis Hbool : forall b, P (JBool b).
Hypothesis Hnum : forall n, P (JNum n).
Hypothesis Hstr : forall s, P (JStr s).
Hypothesis Harr : forall l, Forall P l -> P (JArr l).
Hypothesis Hobj : forall m, Forall (fun kv => P (snd kv)) m -> P (JObj m).

Fixpoint value_nested_ind (v : value) : P v :=
  match v with
  | JNull => Hnull
  | JBool b => Hbool b
  | JNum n => Hnum n
  | JStr s => Hstr s
  | JArr l =>
      Harr l (list_ind (Forall P) (Forall_nil P)
                (fun x r H => Forall_cons x (value_nested_ind x) H) l)
  | JObj m =>
      Hobj m (list_ind (Forall (fun kv => P (snd kv))) (Forall_nil _)
                (fun kv r H => Forall_cons kv (value_nested_ind (snd kv)) H) m)
  end.

End ValueInduction.

(** ** Reading back what [JSON.stringify] wrote *)

Definition blank (s : string) : Prop := Str.forallb Json.is_ws s = true.

Lemma blank_app a b : blank a -> blank b -> blank (a ++ b).
Proof. unfold blank. intros Ha Hb. rewrite forallb_append, Ha, Hb. reflexivity. Qed.

Lemma blank_spaces n : blank (Str.repeat_char " " n).
Proof. unfold blank. induction n; cbn; auto. Qed.

Lemma skip_ws_blank ws s : blank ws -> Json.skip_ws (ws ++ s) = Json.skip_ws s.
Proof.
  unfold blank. induction ws as [| c ws IH]; cbn; intro H; [reflexivity |].
  apply andb_prop in H as [-> H]. auto.
Qed.

Lemma ws_is_not c (x : ascii) :
  Json.is_ws x = false -> Json.is_ws c = true -> Ascii.eqb c x = false.
Proof.
  intros Hx Hc. destruct (Ascii.eqb_spec c x); [subst; congruence | reflexivity].
Qed.

Lemma ws_is_not_digit c : Json.is_ws c = true -> Str.is_digit c = false.
Proof.
  intro H. destruct (Str.is_digit c) eqn:Hd; [| reflexivity].
  destruct c as [[] [] [] [] [] [] [] []]; discriminate.
Qed.

Lemma number_end_blank ws s :
  blank ws -> number_end s = true -> number_end (ws ++ s) = true.
Proof.
  unfold blank. destruct ws as [| c ws]; cbn; intros H Hs; [exact Hs |].
  apply andb_prop in H as [Hc _]. unfold number_end. cbn.
  rewrite (ws_is_not_digit c Hc), (ws_is_not c "." eq_refl Hc),
    (ws_is_not c "e" eq_refl Hc), (ws_is_not c "E" eq_refl Hc). reflexivity.
Qed.

(** The layout of an array or object with at least one item. *)
Lemma wrap_shape gap indent :
  blank gap -> blank indent ->
  exists ws1 ws2, blank ws1 /\ blank ws2 /\
    forall opening closing x items,
      Json.wrap gap indent opening closing (x :: items) =
      (opening ++ ws1 ++ Str.join ("," ++ ws1) (x :: items) ++ ws2 ++ closing)%string.
Proof.
  intros Hg Hi. destruct gap as [| g gap'].
  - exists EmptyString, EmptyString. repeat split.
  - exists (Str.newline ++ indent ++ String g gap')%string, (Str.newline ++ indent)%string.
    split; [| split].
    + apply (blank_app Str.newline); [reflexivity | apply blank_app; assumption].
    + apply (blank_app Str.newline); [reflexivity | assumption].
    + intros. unfold Json.wrap. cbn [Str.is_empty].
      rewrite !append_assoc. reflexivity.
Qed.

Lemma join_cons sep x y (r : list string) :
  Str.join sep (x :: y :: r) = (x ++ sep ++ Str.join sep (y :: r))%string.
Proof. reflexivity. Qed.

(** *** The first character of a value *)

Lemma parse_number_head s p :
  Num.parse s = Some p ->
  exists c r, s = String c r /\ (c = "-"%char \/ Str.is_digit c = true).
Proof.
  destruct s as [| c r]; [discriminate |]. intro H. exists c, r.
  split; [reflexivity |]. unfold Num.parse, Num.literal in H.
  destruct (Ascii.eqb_spec c "-") as [-> | _]; [auto |]. right.
  cbn [Str.span] in H. destruct (Str.is_digit c); [reflexivity | discriminate].
Qed.

Lemma parse_value_head fuel s p :
  Json.parse_value fuel s = Some p ->
  exists c r, Json.skip_ws s = String c r /\
              Ascii.eqb c "]" = false /\ Ascii.eqb c "}" = false.
Proof.
  destruct fuel as [| f]; [discriminate |]. cbn [Json.parse_value].
  destruct (Json.skip_ws s) as [| c r]; [discriminate |]. intro H.
  exists c, r. split; [reflexivity |].
  split.
  - destruct (Ascii.eqb_spec c "]") as [-> | _]; [| reflexivity].
    cbn in H. discriminate.
  - destruct (Ascii.eqb_spec c "}") as [-> | _]; [| reflexivity].
    cbn in H. discriminate.
Qed.

(** *** Scalars *)

(** Tests on the characters written in the text. *)
Ltac decide_chars :=
  repeat match goal with
    | |- context [Json.is_ws (Ascii ?a ?b ?c ?d ?e ?f ?g ?h)] =>
        let t := constr:(Json.is_ws (Ascii a b c d e f g h)) in
        let x := eval vm_compute in t in change t with x
    | |- context [Ascii.eqb (Ascii ?a ?b ?c ?d ?e ?f ?g ?h)
                    (Ascii ?a' ?b' ?c' ?d' ?e' ?f' ?g' ?h')] =>
        let t := constr:(Ascii.eqb (Ascii a b c d e f g h)
                           (Ascii a' b' c' d' e' f' g' h')) in
        let x := eval vm_compute in t in change t with x
    end;
  cbv iota.

Lemma skip_ws_stop c r : Json.is_ws c = false -> Json.skip_ws (String c r) = String c r.
Proof. cbn. intros ->. reflexivity. Qed.

Lemma digit_is_not_ws c : Str.is_digit c = true -> Json.is_ws c = false.
Proof.
  intro H. destruct (Json.is_ws c) eqn:Hw; [| reflexivity].
  rewrite (ws_is_not_digit c Hw) in H. discriminate.
Qed.

Lemma parse_value_number f ws s n rest :
  blank ws -> Num.parse s = Some (n, rest) ->
  Json.parse_value (S f) (ws ++ s) = Some (JNum n, rest).
Proof.
  intros Hws H. destruct (parse_number_head s _ H) as (c & r & -> & Hc).
  cbn [Json.parse_value]. rewrite (skip_ws_blank _ _ Hws).
  destruct Hc as [-> | Hc].
  - cbn [Json.skip_ws]. unfold Str.dquote. decide_chars. rewrite H. reflexivity.
  - rewrite (skip_ws_stop c r (digit_is_not_ws c Hc)).
    rewrite (digit_is_not c "n" eq_refl Hc), (digit_is_not c "t" eq_refl Hc),
      (digit_is_not c "f" eq_refl Hc), (digit_is_not c Str.dquote eq_refl Hc),
      (digit_is_not c "[" eq_refl Hc), (digit_is_not c "{" eq_refl Hc).
    rewrite H. reflexivity.
Qed.

Lemma parse_value_string f ws s rest :
  blank ws ->
  Json.parse_value (S f) (ws ++ Json.QuoteJSONString s ++ rest) = Some (JStr s, rest).
Proof.
  intro Hws. cbn [Json.parse_value]. rewrite (skip_ws_blank _ _ Hws).
  unfold Json.QuoteJSONString, Str.q. rewrite !append_assoc. cbn [append Json.skip_ws].
  unfold Str.dquote. decide_chars. fold Str.dquote.
  rewrite parse_quoted. reflexivity.
Qed.

Lemma parse_value_literal f ws rest :
  blank ws ->
  Json.parse_value (S f) (ws ++ "null" ++ rest) = Some (JNull, rest) /\
  Json.parse_value (S f) (ws ++ "true" ++ rest) = Some (JBool true, rest) /\
  Json.parse_value (S f) (ws ++ "false" ++ rest) = Some (JBool false, rest).
Proof.
  intro Hws. cbn [Json.parse_value]. rewrite !(skip_ws_blank _ _ Hws).
  cbn [append Json.skip_ws]. decide_chars. cbn.
  unfold Json.expect. cbn. rewrite ?Nat.sub_0_r, ?substring_all.
  destruct rest; auto.
Qed.

(** *** Arrays and objects *)

Definition elements_size (l : list value) : nat :=
  fold_right (fun x n => S (Json.size x + n)) 0 l.

Definition members_size (m : list (string * value)) : nat :=
  fold_right (fun kv n => S (Json.size (snd kv) + n)) 0 m.

(** What the round trip says of one value, in the middle of a text. *)
Definition reads_back (gap : string) (v : value) : Prop :=
  forall indent fuel ws rest,
    blank indent -> Json.size v <= fuel -> blank ws -> number_end rest = true ->
    Json.parse_value fuel (ws ++ Json.serialize gap indent v ++ rest) =
    Some (Json.settle v, rest).

Lemma parse_elements_items gap indent ws1 ws2 (l : list value) x fuel rest :
  blank indent -> blank ws1 -> blank ws2 ->
  Forall (reads_back gap) (x :: l) ->
  elements_size (x :: l) <= fuel ->
  Json.parse_elements fuel
    (ws1 ++ Str.join ("," ++ ws1) (map (Json.serialize gap indent) (x :: l)) ++
     ws2 ++ "]" ++ rest) = Some (map Json.settle (x :: l), rest).
Proof.
  intros Hi H1 H2. revert x fuel. induction l as [| y l IH]; intros x fuel Hall Hfuel.
  - destruct fuel as [| f]; [cbn in Hfuel; lia |].
    cbn [map Str.join Json.parse_elements]. inversion Hall as [| ? ? Hx _]; subst.
    rewrite (Hx indent f ws1 (ws2 ++ "]" ++ rest)%string); trivial.
    + rewrite (skip_ws_blank _ _ H2). reflexivity.
    + cbn in Hfuel. lia.
    + apply number_end_blank; [assumption | reflexivity].
  - destruct fuel as [| f]; [cbn in Hfuel; lia |].
    inversion Hall as [| ? ? Hx Hrest]; subst.
    cbn [map]. rewrite join_cons. cbn [Json.parse_elements].
    rewrite !append_assoc.
    rewrite (Hx indent f ws1); trivial.
    + cbn [append Json.skip_ws]. decide_chars.
      change (Json.serialize gap indent y :: map (Json.serialize gap indent) l)
        with (map (Json.serialize gap indent) (y :: l)).
      assert (elements_size (y :: l) <= f) as Hf
        by (cbn [elements_size fold_right] in *; lia).
      pose proof (IH y f Hrest Hf) as Hl. cbn [append] in Hl. rewrite Hl.
      reflexivity.
    + cbn [elements_size fold_right] in *. lia.
Qed.

Definition member (gap indent : string) (kv : string * value) : string :=
  (Json.QuoteJSONString (fst kv) ++ ":" ++
   (if Str.is_empty gap then EmptyString else " ") ++
   Json.serialize gap indent (snd kv))%string.

Lemma parse_members_items gap indent ws1 ws2 (m : list (string * value)) kv fuel rest :
  blank indent -> blank ws1 -> blank ws2 ->
  Forall (fun kv => reads_back gap (snd kv)) (kv :: m) ->
  members_size (kv :: m) <= fuel ->
  Json.parse_members fuel
    (ws1 ++ Str.join ("," ++ ws1) (map (member gap indent) (kv :: m)) ++
     ws2 ++ "}" ++ rest) =
  Some (map (fun kv => (fst kv, Json.settle (snd kv))) (kv :: m), rest).
Proof.
  intros Hi H1 H2.
  assert (blank (if Str.is_empty gap then EmptyString else " ")) as Hsp
    by (destruct (Str.is_empty gap); reflexivity).
  assert (forall k v f tail,
            number_end tail = true -> reads_back gap v -> Json.size v <= f ->
            Json.parse_members (S f) (ws1 ++ member gap indent (k, v) ++ tail) =
            match Json.skip_ws tail with
            | String c2 r4 =>
                if Ascii.eqb c2 ","
                then match Json.parse_members f r4 with
                     | Some (l, rest) => Some ((k, Json.settle v) :: l, rest)
                     | None => None
                     end
                else if Ascii.eqb c2 "}" then Some ([(k, Json.settle v)], r4) else None
            | EmptyString => None
            end) as Hone.
  { intros k v f tail Htail Hv Hf. cbn [Json.parse_members].
    rewrite (skip_ws_blank _ _ H1). unfold member, Json.QuoteJSONString, Str.q.
    cbn [fst snd]. rewrite !append_assoc. cbn [append Json.skip_ws].
    unfold Str.dquote. decide_chars. fold Str.dquote. rewrite parse_quoted.
    cbn [Json.skip_ws]. decide_chars.
    rewrite (Hv indent f _ tail Hi Hf Hsp Htail). reflexivity. }
  revert kv fuel. induction m as [| kv' m IH]; intros [k v] fuel Hall Hfuel.
  - destruct fuel as [| f]; [cbn in Hfuel; lia |].
    cbn [map Str.join]. inversion Hall as [| ? ? Hv _]; subst. cbn [snd] in Hv.
    rewrite Hone; trivial.
    + rewrite (skip_ws_blank _ _ H2). reflexivity.
    + apply number_end_blank; [assumption | reflexivity].
    + cbn in Hfuel. lia.
  - destruct fuel as [| f]; [cbn in Hfuel; lia |].
    inversion Hall as [| ? ? Hv Hrest]; subst. cbn [snd] in Hv.
    cbn [map]. rewrite join_cons. rewrite !append_assoc.
    rewrite Hone; trivial.
    + cbn [append Json.skip_ws]. decide_chars.
      change (member gap indent kv' :: map (member gap indent) m)
        with (map (member gap indent) (kv' :: m)).
      assert (members_size (kv' :: m) <= f) as Hf
        by (cbn [members_size fold_right snd] in *; lia).
      pose proof (IH kv' f Hrest Hf) as Hl. cbn [append] in Hl. rewrite Hl.
      reflexivity.
    + cbn [members_size fold_right snd] in *. lia.
Qed.

Lemma parse_elements_head fuel s p :
  Json.parse_elements fuel s = Some p ->
  exists c r, Json.skip_ws s = String c r /\ Ascii.eqb c "]" = false.
Proof.
  destruct fuel as [| f]; [discriminate |]. cbn [Json.parse_elements].
  destruct (Json.parse_value f s) as [q |] eqn:Hv; [| discriminate]. intros _.
  destruct (parse_value_head _ _ _ Hv) as (c & r & Hs & Hc & _). eauto.
Qed.

Lemma forallb_true_Forall {A} (p : A -> bool) (l : list A) :
  List.forallb p l = true -> Forall (fun x => p x = true) l.
Proof. intro H. apply Forall_forall. apply forallb_forall, H. Qed.

Lemma Forall_both {A} (P Q : A -> Prop) (l : list A) :
  Forall (fun x => P x -> Q x) l -> Forall P l -> Forall Q l.
Proof.
  induction 1 as [| x l Hx _ IH]; intro H; constructor;
    inversion H; subst; auto.
Qed.

(** Every value [JSON.parse] can return is read back from its text, with
    any indentation. *)
Theorem parse_serialize (gap : string) (v : value) :
  blank gap -> Json.wf v = true -> reads_back gap v.
Proof.
  intro Hgap. induction v using value_nested_ind; intro Hwf;
    intros indent fuel ws rest Hi Hfuel Hws Hrest;
    (destruct fuel as [| f]; [cbn in Hfuel; lia |]).
  - apply parse_value_literal, Hws.
  - destruct b; apply parse_value_literal, Hws.
  - cbn [Json.serialize Json.settle Json.wf] in *.
    destruct (num_infinite n) eqn:Hinf.
    + apply parse_value_literal, Hws.
    + apply parse_value_number; [exact Hws |]. apply parse_toString; assumption.
  - apply parse_value_string, Hws.
  - cbn [Json.wf] in Hwf.
    pose proof (Forall_both _ _ _ H (forallb_true_Forall _ _ Hwf)) as Hall.
    cbn [Json.serialize]. destruct l as [| x l].
    + cbn [map Json.wrap Json.parse_value]. rewrite (skip_ws_blank _ _ Hws).
      reflexivity.
    + destruct (wrap_shape gap indent Hgap Hi) as (ws1 & ws2 & H1 & H2 & Hshape).
      cbn [map]. rewrite Hshape.
      change (Json.serialize gap (indent ++ gap) x ::
              map (Json.serialize gap (indent ++ gap)) l)
        with (map (Json.serialize gap (indent ++ gap)) (x :: l)).
      pose proof (parse_elements_items gap (indent ++ gap) ws1 ws2 l x f rest
                    (blank_app _ _ Hi Hgap) H1 H2 Hall) as He.
      specialize (He ltac:(cbn [Json.size] in Hfuel; unfold elements_size; lia)).
      destruct (parse_elements_head _ _ _ He) as (c & r & Hs & Hc).
      cbn [Json.parse_value]. rewrite (skip_ws_blank _ _ Hws).
      flatten. cbn [Json.skip_ws]. decide_chars.
      flatten_in He. flatten_in Hs. rewrite Hs, Hc, He. reflexivity.
  - cbn [Json.wf] in Hwf. apply andb_prop in Hwf as [Hkeys Hwf].
    pose proof (Forall_both _ _ _ H
                  (forallb_true_Forall (fun kv => Json.wf (snd kv)) _ Hwf)) as Hall.
    cbn [Json.serialize]. destruct m as [| kv m].
    + cbn [map Json.wrap Json.parse_value]. rewrite (skip_ws_blank _ _ Hws).
      reflexivity.
    + destruct (wrap_shape gap indent Hgap Hi) as (ws1 & ws2 & H1 & H2 & Hshape).
      cbn [map]. rewrite Hshape.
      change ((Json.QuoteJSONString (fst kv) ++ ":" ++
               (if Str.is_empty gap then "" else " ") ++
               Json.serialize gap (indent ++ gap) (snd kv))%string ::
              map (fun kv0 =>
                     (Json.QuoteJSONString (fst kv0) ++ ":" ++
                      (if Str.is_empty gap then "" else " ") ++
                      Json.serialize gap (indent ++ gap) (snd kv0))%string) m)
        with (map (member gap (indent ++ gap)) (kv :: m)).
      pose proof (parse_members_items gap (indent ++ gap) ws1 ws2 m kv f rest
                    (blank_app _ _ Hi Hgap) H1 H2 Hall) as He.
      specialize (He ltac:(cbn [Json.size] in Hfuel; unfold members_size; lia)).
      assert (exists r, Json.skip_ws
                (ws1 ++ Str.join ("," ++ ws1) (map (member gap (indent ++ gap)) (kv :: m)) ++
                 ws2 ++ "}" ++ rest) = String Str.dquote r) as [r Hs].
      { rewrite (skip_ws_blank _ _ H1). destruct m; cbn [map Str.join];
          unfold member at 1, Json.QuoteJSONString, Str.q;
          rewrite !append_assoc; cbn [append Json.skip_ws];
          change (Json.is_ws Str.dquote) with false; cbv iota; eauto. }
      cbn [Json.parse_value]. rewrite (skip_ws_blank _ _ Hws).
      flatten. cbn [Json.skip_ws]. decide_chars.
      flatten_in He. flatten_in Hs. rewrite Hs.
      unfold Str.dquote. decide_chars.
      rewrite He. rewrite of_entries_canonical; [reflexivity |].
      rewrite map_map. cbn [fst]. exact Hkeys.
Qed.

(** *** Fuel: a value takes no more calls than its text has characters *)

Definition total_length (items : list string) : nat :=
  fold_right (fun x n => S (String.length x + n)) 0 items.

Lemma join_length sep (items : list string) :
  sep <> EmptyString ->
  total_length items <= S (String.length (Str.join sep items)).
Proof.
  intro Hsep. induction items as [| x [| y r] IH].
  - cbn. lia.
  - cbn. lia.
  - rewrite join_cons, !length_append.
    change (total_length (x :: y :: r))
      with (S (String.length x + total_length (y :: r))).
    destruct sep; [congruence |]. cbn [String.length] in *. lia.
Qed.

Lemma wrap_length gap indent opening closing (items : list string) :
  opening <> EmptyString -> closing <> EmptyString ->
  S (total_length items) <=
  String.length (Json.wrap gap indent opening closing items).
Proof.
  intros Ho Hc.
  assert (1 <= String.length opening) by (destruct opening; cbn; [congruence | lia]).
  assert (1 <= String.length closing) by (destruct closing; cbn; [congruence | lia]).
  destruct items as [| x items].
  - cbn [Json.wrap total_length fold_right]. rewrite length_append. lia.
  - unfold Json.wrap. destruct (Str.is_empty gap).
    + pose proof (join_length "," (x :: items) ltac:(discriminate)).
      rewrite !length_append. lia.
    + pose proof (join_length ("," ++ Str.newline ++ indent ++ gap) (x :: items)
                    ltac:(discriminate)).
      rewrite !length_append in *. lia.
Qed.

Lemma size_length gap indent (v : value) :
  Json.size v <= String.length (Json.serialize gap indent v).
Proof.
  revert indent. induction v using value_nested_ind; intro indent.
  - cbn. lia.
  - destruct b; cbn; lia.
  - cbn [Json.size Json.serialize]. destruct n as [neg [| d ds] p [|]].
    + cbn. lia.
    + cbn. lia.
    + cbn. lia.
    + unfold Num.toString. cbn [num_digits num_neg num_point num_infinite].
      rewrite length_append.
      repeat match goal with
             | |- context [if ?b then _ else _] => destruct b
             end; cbn [String.length append]; rewrite ?length_append; cbn [String.length]; lia.
  - cbn [Json.size Json.serialize]. unfold Json.QuoteJSONString.
    rewrite length_append. cbn. lia.
  - cbn [Json.size Json.serialize].
    eapply Nat.le_trans; [| apply wrap_length; discriminate].
    apply le_n_S. induction H as [| x l Hx _ IH]; cbn [map fold_right total_length].
    + lia.
    + specialize (Hx (indent ++ gap)%string). unfold total_length in IH. lia.
  - cbn [Json.size Json.serialize].
    eapply Nat.le_trans; [| apply wrap_length; discriminate].
    apply le_n_S. induction H as [| x l Hx _ IH]; cbn [map fold_right total_length].
    + lia.
    + specialize (Hx (indent ++ gap)%string). unfold total_length in IH.
      rewrite !length_append. lia.
Qed.

(** [JSON.parse(JSON.stringify(v, null, space))] is [v], but for the
    infinite numbers of [v], which are read back as [null]. *)
Theorem parse_stringify (v : value) (space : nat) :
  Json.wf v = true -> Json.parse (Json.stringify v space) = Some (Json.settle v).
Proof.
  intro Hwf. unfold Json.parse, Json.stringify.
  set (gap := Str.repeat_char " " (Nat.min space 10)).
  pose proof (parse_serialize gap v (blank_spaces _) Hwf EmptyString
                (2 * String.length (Json.serialize gap EmptyString v) + 2)
                EmptyString EmptyString eq_refl) as H.
  cbn [append] in H. rewrite append_nil_r in H. rewrite H.
  - reflexivity.
  - pose proof (size_length gap EmptyString v). lia.
  - reflexivity.
  - reflexivity.
Qed.

(** ** What [JSON.parse] returns is well formed *)

(** *** Numbers *)

Lemma span_all p (s : string) : Str.forallb p (fst (Str.span p s)) = true.
Proof.
  induction s as [| c r IH]; cbn; [reflexivity |].
  destruct (p c) eqn:Hc; [| reflexivity].
  destruct (Str.span p r) as [a b]. cbn in *. rewrite Hc, IH. reflexivity.
Qed.

Lemma strip_leading_digits (ds : string) (p : Z) :
  Str.forallb Str.is_digit ds = true ->
  Str.forallb Str.is_digit (fst (Num.strip_leading ds p)) = true /\
  Str.head_is Num.is_zero_char (fst (Num.strip_leading ds p)) = false.
Proof.
  revert p. induction ds as [| c r IH]; intros p H; cbn [Num.strip_leading].
  - auto.
  - destruct (Num.is_zero_char c) eqn:Hc.
    + apply IH. cbn in H. apply andb_prop in H. apply H.
    + cbn [fst Str.head_is]. auto.
Qed.

Lemma strip_trailing_digits p (s : string) :
  Str.forallb p s = true -> Str.forallb p (Num.strip_trailing s) = true.
Proof.
  induction s as [| c r IH]; cbn [Num.strip_trailing Str.forallb]; intro H;
    [reflexivity |].
  apply andb_prop in H as [Hc Hr].
  destruct (Num.is_zero_char c && Str.is_empty (Num.strip_trailing r));
    [reflexivity |].
  cbn. rewrite Hc, (IH Hr). reflexivity.
Qed.

Lemma strip_trailing_end (s : string) :
  Num.strip_trailing s = EmptyString \/
  Num.ends_nonzero (Num.strip_trailing s) = true.
Proof.
  induction s as [| c r IH]; cbn [Num.strip_trailing]; [auto |].
  destruct (Num.is_zero_char c) eqn:Hc;
    destruct (Num.strip_trailing r) as [| c' r'] eqn:Hr; cbn [andb Str.is_empty];
    auto; right.
  - destruct IH as [IH | IH]; [discriminate | exact IH].
  - cbn. rewrite Hc. reflexivity.
  - destruct IH as [IH | IH]; [discriminate | exact IH].
Qed.

Lemma strip_trailing_head (c : ascii) (r : string) :
  Num.strip_trailing (String c r) = EmptyString \/
  exists r', Num.strip_trailing (String c r) = String c r'.
Proof.
  cbn [Num.strip_trailing].
  destruct (Num.is_zero_char c && Str.is_empty (Num.strip_trailing r)); eauto.
Qed.

Lemma normalize_shape (neg : bool) (ds : string) (p : Z) :
  Str.forallb Str.is_digit ds = true ->
  Num.shape (Num.normalize neg ds p) = true /\
  num_infinite (Num.normalize neg ds p) = false.
Proof.
  intro H. unfold Num.normalize.
  destruct (strip_leading_digits ds p H) as [Hd Hz].
  destruct (Num.strip_leading ds p) as [ds1 p1]. cbn [fst] in *.
  pose proof (strip_trailing_digits _ _ Hd) as Hd2.
  destruct (strip_trailing_end ds1) as [He | He].
  - rewrite He. split; reflexivity.
  - destruct ds1 as [| c r]; [discriminate |].
    destruct (strip_trailing_head c r) as [Ht | [r' Ht]]; rewrite Ht in *;
      [discriminate |].
    cbn [Str.is_empty]. unfold Num.shape. cbn [num_digits num_infinite].
    cbn [Str.head_is] in Hz. rewrite Hd2, Hz, He. split; reflexivity.
Qed.

Lemma normalize_sign (ds : string) (p : Z) :
  num_neg (Num.normalize false ds p) = false.
Proof.
  unfold Num.normalize. destruct (Num.strip_leading ds p) as [ds1 p1].
  destruct (Str.is_empty (Num.strip_trailing ds1)); reflexivity.
Qed.

Lemma parse_fraction_all (s frac rest : string) :
  Num.parse_fraction s = Some (frac, rest) ->
  Str.forallb Str.is_digit frac = true.
Proof.
  unfold Num.parse_fraction. destruct s as [| c r]; [intro H; injection H as <- _; reflexivity |].
  destruct (Ascii.eqb c "."); [| intro H; injection H as <- _; reflexivity].
  pose proof (span_all Str.is_digit r) as Hs.
  destruct (Str.span Str.is_digit r) as [a b]. cbn [fst] in Hs.
  destruct (Str.is_empty a); [discriminate |]. intro H. injection H as <- _. exact Hs.
Qed.

Lemma literal_shape (s : string) (x : number) (rest : string) :
  Num.literal s = Some (x, rest) ->
  Num.shape x = true /\ num_infinite x = false.
Proof.
  unfold Num.literal.
  set (start := match s with
                | String c r => if Ascii.eqb c "-" then (true, r) else (false, s)
                | EmptyString => (false, s)
                end).
  destruct start as [neg s1].
  pose proof (span_all Str.is_digit s1) as Hint.
  destruct (Str.span Str.is_digit s1) as [int s2]. cbn [fst] in Hint.
  destruct (Str.is_empty int); [discriminate |].
  destruct (Str.head_is Num.is_zero_char int && negb (String.length int =? 1)%nat);
    [discriminate |].
  destruct (Num.parse_fraction s2) as [[frac s3] |] eqn:Hf; [| discriminate].
  destruct (Num.parse_exponent s3) as [[e s4] |]; [| discriminate].
  intro H. injection H as <- _. apply normalize_shape.
  rewrite forallb_append, Hint, (parse_fraction_all _ _ _ Hf). reflexivity.
Qed.

(** *** The shortest form reads back *)

Lemma candidate_shape (v t : Z) :
  Num.shape (Num.candidate v t) = true /\
  num_infinite (Num.candidate v t) = false /\
  num_neg (Num.candidate v t) = false.
Proof.
  unfold Num.candidate.
  destruct (decimal_shape (Z.to_N v)) as [Hd _].
  pose proof (decimal_digits (N.to_uint (Z.to_N v))) as Hall. rewrite <- Hd in Hall.
  destruct (normalize_shape false (Num.decimal (Z.to_N v))
              (Z.of_nat (String.length (Num.decimal (Z.to_N v))) + t) Hall)
    as [Hs Hi].
  split; [exact Hs |]. split; [exact Hi |]. apply normalize_sign.
Qed.

(** What the search returns has been tried. *)
Lemma shortest_from_reads (fuel : nat) (count n d k m e : Z) (y : number) :
  Num.shortest_from fuel count n d k m e = Some y ->
  Num.reads_as y m e = true /\ Num.shape y = true /\
  num_infinite y = false /\ num_neg y = false.
Proof.
  revert count. induction fuel as [| f IH]; intro count; [discriminate |].
  cbn [Num.shortest_from].
  set (t := (k - count)%Z).
  set (a := if (0 <=? t)%Z then n else (n * 10 ^ (- t))%Z).
  set (b := if (0 <=? t)%Z then (d * 10 ^ t)%Z else d).
  set (low := Num.candidate (a / b) t).
  set (high := Num.candidate (a / b + 1) t).
  destruct (Num.reads_as low m e) eqn:Hl;
    destruct (Num.reads_as high m e) eqn:Hh.
  - destruct (_ || _); intro H; injection H as <-.
    + split; [exact Hl | apply candidate_shape].
    + split; [exact Hh | apply candidate_shape].
  - intro H; injection H as <-. split; [exact Hl | apply candidate_shape].
  - intro H; injection H as <-. split; [exact Hh | apply candidate_shape].
  - apply IH.
Qed.

Lemma shortest_reads (m e : Z) (y : number) :
  Num.shortest m e = Some y ->
  Num.reads_as y m e = true /\ Num.shape y = true /\
  num_infinite y = false /\ num_neg y = false.
Proof. unfold Num.shortest. apply shortest_from_reads. Qed.

Lemma round_signed (neg : bool) (y : number) :
  Num.round (Num.signed neg y) = Num.round y.
Proof. reflexivity. Qed.

Lemma shape_signed (neg : bool) (y : number) :
  Num.is_zero y = false -> num_infinite y = false -> Num.shape y = true ->
  Num.shape (Num.signed neg y) = true.
Proof.
  unfold Num.is_zero, Num.shape, Num.signed. intros Hz Hi Hs. rewrite Hi in Hz.
  cbn [num_digits num_neg num_point] in *.
  destruct (num_digits y); [discriminate Hz | exact Hs].
Qed.

(** The cases of [Num.canon]. *)
Lemma canon_cases (x : number) :
  num_infinite x = false ->
  Num.canon x = Num.zero \/
  (exists neg, Num.canon x = Num.infinity neg) \/
  Num.canon x = x \/
  (exists m e y,
     Num.round x = Some (m, e) /\ (m =? 0)%Z = false /\
     Num.shortest m e = Some y /\ Num.canon x = Num.signed (num_neg x) y).
Proof.
  intro Hi. unfold Num.canon. rewrite Hi.
  destruct (Num.is_zero x); [auto |].
  destruct (Num.round x) as [[m e] |]; [| right; left; eauto].
  destruct (m =? 0)%Z eqn:Hm; [auto |].
  destruct (Num.shortest m e) as [y |] eqn:Hy; [| auto].
  right. right. right. exists m, e, y. auto.
Qed.

Lemma canon_signed (neg : bool) (m e : Z) (y : number) :
  (m =? 0)%Z = false -> Num.shortest m e = Some y ->
  Num.canon (Num.signed neg y) = Num.signed neg y.
Proof.
  intros Hm Hy. destruct (shortest_reads m e y Hy) as (Hr & _ & Hi & _).
  unfold Num.reads_as in Hr. apply andb_prop in Hr as [Hz Hr].
  apply negb_true_iff in Hz.
  unfold Num.canon.
  change (num_infinite (Num.signed neg y)) with (num_infinite y). rewrite Hi.
  change (Num.is_zero (Num.signed neg y)) with (Num.is_zero y). rewrite Hz.
  rewrite round_signed.
  destruct (Num.round y) as [[m' e'] |]; [| discriminate Hr].
  apply andb_prop in Hr as [H1 H2]. apply Z.eqb_eq in H1, H2. subst m' e'.
  rewrite Hm, Hy. reflexivity.
Qed.

(** Reading twice changes nothing more. *)
Lemma canon_idem (x : number) : Num.canon (Num.canon x) = Num.canon x.
Proof.
  destruct (num_infinite x) eqn:Hi.
  - unfold Num.canon. rewrite Hi, Hi. reflexivity.
  - destruct (canon_cases x Hi) as [H | [[neg H] | [H | (m & e & y & _ & Hm & Hy & H)]]];
      rewrite H.
    + reflexivity.
    + reflexivity.
    + exact H.
    + apply (canon_signed _ m e y Hm Hy).
Qed.

Lemma canon_shape (x : number) :
  Num.shape x = true -> num_infinite x = false ->
  num_infinite (Num.canon x) = false -> Num.shape (Num.canon x) = true.
Proof.
  intros Hs Hi.
  destruct (canon_cases x Hi) as [H | [[neg H] | [H | (m & e & y & _ & Hm & Hy & H)]]];
    rewrite H.
  - reflexivity.
  - discriminate.
  - intros _. exact Hs.
  - intros _. destruct (shortest_reads m e y Hy) as (Hr & Hsy & Hiy & _).
    unfold Num.reads_as in Hr. apply andb_prop in Hr as [Hz _].
    apply negb_true_iff in Hz. apply shape_signed; assumption.
Qed.

Lemma canon_infinite (x : number) :
  num_infinite x = false -> num_infinite (Num.canon x) = true ->
  exists neg, Num.canon x = Num.infinity neg.
Proof.
  intros Hi.
  destruct (canon_cases x Hi) as [H | [[neg H] | [H | (m & e & y & _ & Hm & Hy & H)]]];
    rewrite H.
  - discriminate.
  - eauto.
  - congruence.
  - destruct (shortest_reads m e y Hy) as (_ & _ & Hiy & _).
    change (num_infinite (Num.signed (num_neg x) y)) with (num_infinite y).
    congruence.
Qed.

(** What [JSON.parse] makes of a literal is one of its numbers. *)
Theorem num_parse_wf (s : string) (x : number) (rest : string) :
  Num.parse s = Some (x, rest) -> Num.wf x = true.
Proof.
  unfold Num.parse. destruct (Num.literal s) as [[x0 r] |] eqn:Hl; [| discriminate].
  intro H. injection H as <- _.
  destruct (literal_shape _ _ _ Hl) as [Hs Hi].
  unfold Num.wf. destruct (num_infinite (Num.canon x0)) eqn:Hc.
  - destruct (canon_infinite x0 Hi Hc) as [neg ->]. reflexivity.
  - rewrite (canon_shape x0 Hs Hi Hc), canon_idem, number_eqb_refl. reflexivity.
Qed.

(** *** Objects *)

Lemma uint_of_string_nzhead (k : string) (u : Decimal.uint) :
  NilEmpty.uint_of_string k = Some u ->
  k <> EmptyString ->
  Str.head_is Num.is_zero_char k && negb (String.length k =? 1)%nat = false ->
  Decimal.unorm u = u.
Proof.
  intros Hu Hne Hlead. apply NilEmpty.sus in Hu. subst k.
  destruct u; cbn in *; try congruence; try reflexivity.
  destruct u; cbn in *; try reflexivity; discriminate.
Qed.

(** An array index has one spelling. *)
Lemma index_of_inj (k k' : string) (i : N) :
  Obj.index_of k = Some i -> Obj.index_of k' = Some i -> k = k'.
Proof.
  assert (forall k, Obj.index_of k = Some i ->
                    k = NilEmpty.string_of_uint (N.to_uint i)) as Hone.
  { clear. intros k. unfold Obj.index_of, Num.digits_value.
    destruct (Str.is_empty k) eqn:He; [discriminate |].
    destruct (negb (Str.forallb Str.is_digit k)); [discriminate |].
    destruct (Str.head_is Num.is_zero_char k && negb (String.length k =? 1)%nat)
      eqn:Hl; [discriminate |].
    destruct (NilEmpty.uint_of_string k) as [u |] eqn:Hu; [| discriminate].
    destruct (N.of_uint u <? 4294967295)%N; [| discriminate].
    intro H. injection H as <-.
    rewrite DecimalN.Unsigned.to_of.
    rewrite (uint_of_string_nzhead k u Hu); [symmetry; apply NilEmpty.sus, Hu | | exact Hl].
    destruct k; [discriminate | discriminate]. }
  intros H H'. rewrite (Hone k H), (Hone k' H'). reflexivity.
Qed.

Lemma lookup_none_keys (o : Obj.props) k :
  Obj.lookup o k = None -> ~ In k (map fst o).
Proof.
  induction o as [| [k0 v0] o IH]; cbn; [tauto |].
  destruct (String.eqb_spec k0 k) as [-> | Hne]; [discriminate |].
  intros H [Hk | Hin]; [congruence | exact (IH H Hin)].
Qed.

Lemma keys_insert_index i k v (o : Obj.props) x :
  In x (map fst (Obj.insert_index i k v o)) -> x = k \/ In x (map fst o).
Proof.
  induction o as [| [k0 v0] o IH]; cbn.
  - intros [<- | []]. auto.
  - destruct (Obj.index_of k0) as [j |]; [destruct (j <? i)%N |]; cbn;
      intros [H | H]; auto.
    destruct (IH H); auto.
Qed.

Lemma key_before_index k x i :
  Obj.index_of k = Some i -> Obj.index_of x = None -> Obj.key_before k x = true.
Proof. unfold Obj.key_before. intros -> ->. reflexivity. Qed.

Lemma key_before_indices k x i j :
  Obj.index_of k = Some i -> Obj.index_of x = Some j ->
  Obj.key_before k x = (i <? j)%N.
Proof. unfold Obj.key_before. intros -> ->. reflexivity. Qed.

Lemma key_before_named k x :
  Obj.index_of k = None -> Obj.key_before k x = true -> Obj.index_of x = None.
Proof.
  unfold Obj.key_before. intros ->. destruct (Obj.index_of x); [discriminate | reflexivity].
Qed.

Lemma insert_index_canonical i k v (o : Obj.props) :
  Obj.index_of k = Some i -> ~ In k (map fst o) ->
  Obj.canonical (map fst o) = true ->
  Obj.canonical (map fst (Obj.insert_index i k v o)) = true.
Proof.
  intros Hi. induction o as [| [k0 v0] o IH]; intros Hnot Hc; [reflexivity |].
  cbn [map fst Obj.canonical] in Hc. apply andb_prop in Hc as [Hall Hc].
  rewrite forallb_forall in Hall.
  assert (k0 <> k) as Hk0 by (intro; apply Hnot; cbn; auto).
  assert (~ In k (map fst o)) as Hnot' by (intro; apply Hnot; cbn; auto).
  cbn [Obj.insert_index].
  destruct (Obj.index_of k0) as [j |] eqn:Hj; [destruct (j <? i)%N eqn:Hji |].
  - cbn [map fst Obj.canonical]. rewrite (IH Hnot' Hc), andb_true_r.
    apply forallb_forall. intros x Hx.
    destruct (keys_insert_index _ _ _ _ _ Hx) as [-> | Hin]; [| auto].
    rewrite (key_before_indices _ _ _ _ Hj Hi). exact Hji.
  - assert (i < j)%N as Hlt.
    { apply N.ltb_ge in Hji. destruct (N.eq_dec i j) as [-> |]; [| lia].
      exfalso. apply Hk0. apply (index_of_inj _ _ _ Hj Hi). }
    change (Obj.canonical (k :: k0 :: map fst o) = true).
    cbn [Obj.canonical]. rewrite Hc, andb_true_r.
    assert (forallb (Obj.key_before k0) (map fst o) = true) as Hall'
      by (apply forallb_forall; exact Hall).
    rewrite Hall', andb_true_r. cbn [forallb].
    rewrite (key_before_indices _ _ _ _ Hi Hj), (proj2 (N.ltb_lt _ _) Hlt).
    cbn [andb]. apply forallb_forall. intros x Hx. specialize (Hall x Hx).
    destruct (Obj.index_of x) as [j' |] eqn:Hx'.
    + rewrite (key_before_indices _ _ _ _ Hj Hx') in Hall.
      rewrite (key_before_indices _ _ _ _ Hi Hx'). apply N.ltb_lt in Hall.
      apply N.ltb_lt. lia.
    + apply (key_before_index _ _ _ Hi Hx').
  - change (Obj.canonical (k :: k0 :: map fst o) = true).
    cbn [Obj.canonical]. rewrite Hc, andb_true_r.
    assert (forallb (Obj.key_before k0) (map fst o) = true) as Hall'
      by (apply forallb_forall; exact Hall).
    rewrite Hall', andb_true_r. cbn [forallb].
    rewrite (key_before_index _ _ _ Hi Hj). cbn [andb].
    apply forallb_forall. intros x Hx.
    apply (key_before_index _ _ _ Hi). apply (key_before_named k0 x Hj), Hall, Hx.
Qed.

Lemma append_canonical (ks : list string) k :
  Obj.index_of k = None -> ~ In k ks ->
  Obj.canonical ks = true -> Obj.canonical (ks ++ [k]) = true.
Proof.
  intros Hk. induction ks as [| k0 ks IH]; intros Hnot Hc; [reflexivity |].
  cbn [app Obj.canonical] in *. apply andb_prop in Hc as [Hall Hc].
  rewrite IH; [| intro; apply Hnot; cbn; auto | exact Hc].
  rewrite forallb_app, Hall. cbn. rewrite !andb_true_r.
  unfold Obj.key_before. rewrite Hk. destruct (Obj.index_of k0); [reflexivity |].
  destruct (String.eqb_spec k0 k) as [-> | _]; [| reflexivity].
  exfalso. apply Hnot. cbn. auto.
Qed.

(** A write keeps the properties in order. *)
Lemma set_canonical (o : Obj.props) k v :
  Obj.canonical (map fst o) = true ->
  Obj.canonical (map fst (Obj.set o k v)) = true.
Proof.
  intro Hc. unfold Obj.set, Obj.has.
  destruct (Obj.lookup o k) eqn:Hl.
  - rewrite keys_replace. exact Hc.
  - apply lookup_none_keys in Hl.
    destruct (Obj.index_of k) as [i |] eqn:Hi.
    + apply insert_index_canonical; assumption.
    + rewrite map_app. apply append_canonical; assumption.
Qed.

Section Values.

Variable Q : string * value -> Prop.

Lemma replace_values (o : Obj.props) k v :
  (forall k', Q (k', v)) -> Forall Q o -> Forall Q (Obj.replace o k v).
Proof.
  intros Hv. induction 1 as [| [k0 v0] o H0 Ho IH]; cbn; [constructor |].
  destruct (String.eqb k0 k); constructor; auto.
Qed.

Lemma insert_index_values i (o : Obj.props) k v :
  Q (k, v) -> Forall Q o -> Forall Q (Obj.insert_index i k v o).
Proof.
  intros Hv. induction 1 as [| [k0 v0] o H0 Ho IH]; cbn; [auto |].
  destruct (Obj.index_of k0) as [j |]; [destruct (j <? i)%N |]; auto.
Qed.

Lemma set_values (o : Obj.props) k v :
  (forall k', Q (k', v)) -> Forall Q o -> Forall Q (Obj.set o k v).
Proof.
  intros Hv Ho. unfold Obj.set. destruct (Obj.has o k).
  - apply replace_values; assumption.
  - destruct (Obj.index_of k).
    + apply insert_index_values; auto.
    + apply Forall_app. auto.
Qed.

End Values.

Lemma of_entries_wf (l : list (string * value)) :
  List.forallb (fun kv => Json.wf (snd kv)) l = true ->
  Json.wf (JObj (Obj.of_entries l)) = true.
Proof.
  intro H. unfold Obj.of_entries.
  assert (forall o,
            Json.wf (JObj o) = true ->
            Json.wf (JObj (fold_left (fun o kv => Obj.set o (fst kv) (snd kv)) l o)) = true)
    as Hfold.
  { induction l as [| [k v] l IH]; intros o Ho; [exact Ho |].
    cbn [forallb snd] in H. apply andb_prop in H as [Hv Hl].
    cbn [fold_left fst snd]. apply (IH Hl).
    cbn [Json.wf] in *. apply andb_prop in Ho as [Hk Hvals].
    rewrite (set_canonical _ _ _ Hk). cbn [andb].
    apply forallb_forall. intros kv Hin.
    pose proof (set_values (fun kv => Json.wf (snd kv) = true) o k v
                  (fun _ => Hv) (forallb_true_Forall _ _ Hvals)) as Hall.
    rewrite Forall_forall in Hall. apply Hall, Hin. }
  apply Hfold. reflexivity.
Qed.

(** *** The parser *)

Lemma expect_value lit v s p : Json.expect lit v s = Some p -> fst p = v.
Proof.
  unfold Json.expect. destruct (prefix lit s); [| discriminate].
  intro H. injection H as <-. reflexivity.
Qed.

Ltac parse_case H :=
  repeat match type of H with
    | match ?x with _ => _ end = _ => destruct x eqn:?; try discriminate
    | (if ?x then _ else _) = _ => destruct x eqn:?; try discriminate
    | (let (_, _) := ?x in _) = _ => destruct x eqn:?
    end.

(** The induction hypothesis [IH] on the call that gave the value. *)
Ltac parsed IH :=
  match goal with
  | Hp : _ = Some (_, _) |- _ => apply (IH _ _ _ Hp)
  end.

Lemma parse_fuel_wf (fuel : nat) :
  (forall s v r, Json.parse_value fuel s = Some (v, r) -> Json.wf v = true) /\
  (forall s l r, Json.parse_elements fuel s = Some (l, r) ->
                 List.forallb Json.wf l = true) /\
  (forall s l r, Json.parse_members fuel s = Some (l, r) ->
                 List.forallb (fun kv => Json.wf (snd kv)) l = true).
Proof.
  induction fuel as [| f (IHv & IHe & IHm)]; [repeat split; discriminate |].
  repeat split.
  - intros s v r H. cbn [Json.parse_value] in H.
    destruct (Json.skip_ws s) as [| c t]; [discriminate |].
    parse_case H;
      try (apply expect_value in H; cbn [fst] in H; subst v; reflexivity);
      try (injection H as <- _; try reflexivity).
    + parsed IHe.
    + apply of_entries_wf. parsed IHm.
    + match goal with
      | Hn : Num.parse _ = Some _ |- _ => apply (num_parse_wf _ _ _ Hn)
      end.
  - intros s l r H. cbn [Json.parse_elements] in H.
    parse_case H; injection H as <- _; cbn [forallb]; apply andb_true_intro;
      split; try reflexivity; first [parsed IHv | parsed IHe].
  - intros s l r H. cbn [Json.parse_members] in H.
    parse_case H; injection H as <- _; cbn [forallb snd]; apply andb_true_intro;
      split; try reflexivity; first [parsed IHv | parsed IHm].
Qed.

Theorem parse_wf (text : string) (v : value) :
  Json.parse text = Some v -> Json.wf v = true.
Proof.
  unfold Json.parse.
  destruct (Json.parse_value (2 * String.length text + 2) text) as [[v' r] |] eqn:H;
    [| discriminate].
  destruct (Str.is_empty (Json.skip_ws r)); [| discriminate].
  intro Hv. injection Hv as <-. apply (proj1 (parse_fuel_wf _) _ _ _ H).
Qed.

(** ** The text with two blanks for each level *)

Lemma margin_S depth : (margin depth ++ "  ")%string = margin (S depth).
Proof.
  unfold margin. replace (2 * S depth) with (S (S (2 * depth))) by lia.
  induction (2 * depth) as [| n IH]; cbn in *; congruence.
Qed.

Lemma serialize_two_space (v : value) (depth : nat) :
  Json.serialize "  " (margin depth) v = two_space_text depth v.
Proof.
  revert depth. induction v using value_nested_ind; intro depth;
    try reflexivity.
  - cbn [Json.serialize two_space_text]. rewrite margin_S.
    destruct l as [| x l]; [reflexivity |].
    unfold Json.wrap. cbn [Str.is_empty].
    rewrite (map_ext_Forall _ (two_space_text (S depth))).
    + rewrite margin_S. reflexivity.
    + revert H. apply Forall_impl. intros a Ha. apply Ha.
  - cbn [Json.serialize two_space_text]. rewrite margin_S.
    destruct m as [| x m]; [reflexivity |].
    unfold Json.wrap. cbn [Str.is_empty].
    rewrite (map_ext_Forall _
               (fun kv => Json.QuoteJSONString (fst kv) ++ ": " ++
                          two_space_text (S depth) (snd kv))%string).
    + rewrite margin_S. reflexivity.
    + revert H. apply Forall_impl. intros a Ha. rewrite Ha. reflexivity.
Qed.

Lemma stringify_two_space (v : value) :
  Json.stringify v 2 = two_space_text 0 v.
Proof. apply (serialize_two_space v 0). Qed.

(** ** Values without infinite numbers *)

Lemma settle_finite (v : value) : Json.finite v = true -> Json.settle v = v.
Proof.
  induction v using value_nested_ind; cbn [Json.finite Json.settle]; intro Hf;
    try reflexivity.
  - apply negb_true_iff in Hf. rewrite Hf. reflexivity.
  - f_equal. induction H as [| x l Hx _ IH]; [reflexivity |].
    cbn [forallb map] in *. apply andb_prop in Hf as [H1 H2].
    rewrite (Hx H1), (IH H2). reflexivity.
  - f_equal. induction H as [| kv m Hx _ IH]; [reflexivity |].
    cbn [forallb map] in *. apply andb_prop in Hf as [H1 H2].
    rewrite (Hx H1), (IH H2). destruct kv. reflexivity.
Qed.

(** [JSON.parse(JSON.stringify(v, null, space))] is [v] when no number of
    [v] is infinite. *)
Theorem parse_stringify_finite (v : value) (space : nat) :
  Json.wf v = true -> Json.finite v = true ->
  Json.parse (Json.stringify v space) = Some v.
Proof.
  intros Hwf Hf. rewrite (parse_stringify v space Hwf), (settle_finite v Hf).
  reflexivity.
Qed.

(** ** The Manifest Customizer *)

Lemma lookup_In (o : Obj.props) k v :
  Obj.lookup o k = Some v -> In (k, v) o.
Proof.
  induction o as [| [k0 v0] o IH]; cbn; [discriminate |].
  destruct (String.eqb_spec k0 k) as [-> | _].
  - intro H. injection H as ->. auto.
  - auto.
Qed.

Lemma lookup_has (o : Obj.props) k v :
  Obj.lookup o k = Some v -> Obj.has o k = true.
Proof. unfold Obj.has. intros ->. reflexivity. Qed.

Lemma lookup_wf (o : Obj.props) k v :
  Json.wf (JObj o) = true -> Obj.lookup o k = Some v -> Json.wf v = true.
Proof.
  cbn [Json.wf]. intros H Hl. apply andb_prop in H as [_ H].
  rewrite forallb_forall in H. apply (H (k, v)), lookup_In, Hl.
Qed.

Lemma replace_wf (o : Obj.props) k v :
  Json.wf (JObj o) = true -> Json.wf v = true ->
  Json.wf (JObj (Obj.replace o k v)) = true.
Proof.
  cbn [Json.wf]. intros H Hv. apply andb_prop in H as [Hk Ho].
  rewrite keys_replace, Hk. cbn [andb].
  apply forallb_forall. apply Forall_forall.
  apply (replace_values (fun kv => Json.wf (snd kv) = true)); [auto |].
  apply forallb_true_Forall, Ho.
Qed.

Lemma lookup_finite (o : Obj.props) k v :
  Json.finite (JObj o) = true -> Obj.lookup o k = Some v -> Json.finite v = true.
Proof.
  cbn [Json.finite]. intros H Hl.
  rewrite forallb_forall in H. apply (H (k, v)), lookup_In, Hl.
Qed.

Lemma replace_finite (o : Obj.props) k v :
  Json.finite (JObj o) = true -> Json.finite v = true ->
  Json.finite (JObj (Obj.replace o k v)) = true.
Proof.
  cbn [Json.finite]. intros Ho Hv.
  apply forallb_forall. apply Forall_forall.
  apply (replace_values (fun kv => Json.finite (snd kv) = true)); [auto |].
  apply forallb_true_Forall, Ho.
Qed.

(** The object after the two writes. *)
Definition renamed (o f : Obj.props) (identifier : string) : Obj.props :=
  Obj.replace (Obj.replace o "name" (JStr identifier)) "figdata"
    (JObj (Obj.replace f "id" (JStr identifier))).

Lemma customized_manifest (o f : Obj.props) (identifier : string) a b :
  Obj.lookup o "name" = Some a ->
  Obj.lookup o "figdata" = Some (JObj f) ->
  Obj.lookup f "id" = Some b ->
  customized (JObj o) identifier = Ret (JObj (renamed o f identifier)).
Proof.
  intros Hn Hf Hi. unfold customized, customize, bind, assign_prop, get_prop, ret.
  cbn [fst snd].
  rewrite (set_present o "name" _ (lookup_has _ _ _ Hn)).
  rewrite lookup_replace. change (String.eqb "name" "figdata") with false.
  cbv iota. rewrite Hf. cbn [fst snd].
  rewrite (set_present f "id" _ (lookup_has _ _ _ Hi)).
  rewrite set_present; [reflexivity |].
  unfold Obj.has. rewrite lookup_replace.
  change (String.eqb "name" "figdata") with false. cbv iota. rewrite Hf. reflexivity.
Qed.

Section Customizer.

Variable W : world.

Lemma customize_manifest_run (pkgPath identifier text : string) (s : state)
    (pkg pkg' : value) :
  w_read W (path_resolve (st_cwd s) pkgPath) = inl text ->
  Json.parse text = Some pkg ->
  customized pkg identifier = Ret pkg' ->
  customize_manifest W pkgPath identifier s =
  (match w_sys W (Write (path_resolve (st_cwd s) pkgPath) (Json.stringify pkg' 2)) with
   | None => Ret tt
   | Some e => Throw e
   end,
   log_event (Sys (Write (path_resolve (st_cwd s) pkgPath) (Json.stringify pkg' 2)))
     (log_event (Read (path_resolve (st_cwd s) pkgPath)) s)).
Proof.
  intros Hread Hparse Hcust.
  unfold customize_manifest, bind at 1 2 3.
  unfold readFileSync, bind, process_cwd, emit. rewrite Hread. unfold ret.
  unfold JSON_parse. rewrite Hparse. unfold ret.
  rewrite customize_run, Hcust.
  unfold writeFileSync, sys, bind, process_cwd, emit. cbn [st_cwd log_event].
  destruct (w_sys W _); reflexivity.
Qed.

End Customizer.


(** * The claims on concrete runs *)

Definition working_trace : list event :=
  st_trace (snd (run Example.working ExecSyncVariant)).

Definition start (W : world) : state := initial_state W.

(** C1 on the working run: the clone, third event of the trace, comes after
    the accepted request. *)
Lemma clone_follows_accepted_request :
  exists req,
    In (Request req) (firstn 2 working_trace) /\
    succeeded Example.working req = true.
Proof.
  apply (proj1 (creation_precedes_local_mutation Example.working ExecSyncVariant)
           (firstn 2 working_trace) (nth 2 working_trace (Read EmptyString))
           (skipn 3 working_trace));
    vm_compute; reflexivity.
Defined.

(** C3 as stated fails in three ways.  Incomplete credentials get no
    diagnostic of their own: the console of the run holds the creating line
    and the cannot-create line, the invalid-format text is only the message
    of an error that nothing prints.  In the first variant malformed
    credentials are told that the file does not exist, before they are told
    that the JSON is invalid.  A file that holds [null] parses, lacks both
    fields, and gives a [TypeError]. *)
Lemma incomplete_credentials_get_no_diagnostic :
  (fst (load_credentials Example.incomplete_credentials ExecSyncVariant
          (start Example.incomplete_credentials)) =
   Throw (new_Error Msg.incomplete) /\
   st_console (snd (run Example.incomplete_credentials ExecSyncVariant)) =
   [(Stdout, [str Msg.creating]); (Stderr, [str Msg.cannot_create])]) /\
  st_console (snd (run Example.malformed_credentials ExecSyncVariant)) =
  [(Stdout, [str Msg.creating]); (Stderr, [str Msg.loader_failed]);
   (Stderr, [str Msg.malformed_json]); (Stderr, [str Msg.cannot_create])] /\
  fst (load_credentials Example.null_credentials ExecSyncVariant
         (start Example.null_credentials)) =
  Throw (new_TypeError "Cannot read properties of null (reading 'token')").
Proof.
  split; [split |]; [| | split]; vm_compute; reflexivity.
Qed.

(** C3 (amended) on a world without credentials file. *)
Lemma missing_credentials_file_run :
  (load_credentials Example.without_credentials ExecSyncVariant
     (start Example.without_credentials) =
   (Throw Example.ENOENT,
    log_line (Stderr, [str Msg.file_missing])
      (loader_log ExecSyncVariant (cred_read (start Example.without_credentials))))) /\
  fst (run Example.without_credentials ExecSyncVariant) = Exit 1 /\
  In (Stderr, [str Msg.file_missing])
     (st_console (snd (run Example.without_credentials ExecSyncVariant))).
Proof.
  pose proof (credential_failures_are_told_apart Example.without_credentials
                ExecSyncVariant (start Example.without_credentials)) as H.
  destruct H as [Hmissing [_ [_ [_ [_ [_ [_ [Hrun _]]]]]]]].
  pose proof (Hmissing Example.ENOENT eq_refl eq_refl) as Hload.
  destruct (Hrun Example.ENOENT eq_refl eq_refl) as [Hexit [Hprinted _]].
  exact (conj Hload (conj Hexit Hprinted)).
Defined.



(** C5 as stated fails where the clone fails: the run ends with the error
    of the clone thrown, not with [process.exit(1)], and nothing on
    stderr. *)
Lemma clone_failure_is_not_caught :
  w_sys Example.clone_fails
    (Spawn "/work" ["git"; "clone"; "--depth"; "1"; template_repository; "demo"]%string) =
  Some Example.command_failed /\
  fst (run Example.clone_fails ExecSyncVariant) = Throw Example.command_failed /\
  fst (run Example.clone_fails ExecSyncVariant) <> Exit 1 /\
  Forall (fun l => fst l = Stdout)
    (st_console (snd (run Example.clone_fails ExecSyncVariant))).
Proof.
  split; [reflexivity |]. split; [vm_compute; reflexivity |].
  split; [vm_compute; discriminate |]. vm_compute. repeat constructor.
Qed.

(** C5 (amended) on the same run. *)
Lemma clone_failure_ends_the_run :
  fst (run Example.clone_fails ExecSyncVariant) = Throw Example.command_failed /\
  last (st_trace (snd (run Example.clone_fails ExecSyncVariant))) (Read EmptyString) =
  Sys (Spawn "/work" ["git"; "clone"; "--depth"; "1"; template_repository; "demo"]%string).
Proof.
  destruct (proj2 (only_provisioning_failures_are_caught Example.clone_fails
                     ExecSyncVariant)
              (Spawn "/work" ["git"; "clone"; "--depth"; "1"; template_repository;
                              "demo"]%string)
              Example.command_failed) as [H1 [H2 _]].
  - vm_compute. auto.
  - reflexivity.
  - exact (conj H1 H2).
Defined.

(** C6 at [updateBitbucketRepoPermissions("demo")] with valid credentials. *)
Lemma permission_updater_on_demo :
  updateBitbucketRepoPermissions Example.working ExecSyncVariant
    (module_scope ExecSyncVariant "demo"
       (Some (JStr "https://bitbucket.org/lefigaro/demo")))
    "demo" (start Example.working) =
  (Throw (new_ReferenceError "permission is not defined"),
   cred_read (start Example.working)) /\
  st_trace (cred_read (start Example.working)) =
  st_trace (start Example.working) ++ [Read (cred_path (start Example.working))].
Proof.
  apply (permission_updater_throws_ReferenceError Example.working ExecSyncVariant
           (start Example.working) "demo"
           (Some (JStr "https://bitbucket.org/lefigaro/demo")) "demo"
           Example.credentials_text
           (JObj [("username"%string, JStr "user"); ("token"%string, JStr "secret")]));
    first [ discriminate | vm_compute; reflexivity ].
Defined.

(** C7 at the empty identifier: the request is sent, to the bare root. *)
Lemma empty_identifier_is_requested :
  In (Request (create_request "dXNlcjpzZWNyZXQ=" EmptyString))
     (st_trace (snd (createBitbucketRepo Example.empty_identifier ExecSyncVariant
                       EmptyString (start Example.empty_identifier)))) /\
  req_url (create_request "dXNlcjpzZWNyZXQ=" EmptyString) =
  "https://api.bitbucket.org/2.0/repositories/lefigaro/"%string.
Proof.
  destruct (provisioner_sends_request_for_any_identifier Example.empty_identifier
              ExecSyncVariant (start Example.empty_identifier) EmptyString
              Example.credentials_text
              (JObj [("username"%string, JStr "user"); ("token"%string, JStr "secret")]))
    as [H1 [_ H2]]; try (vm_compute; reflexivity).
  exact (conj H1 H2).
Defined.



(** C9 as stated fails twice: with [links.html] present and no [href], the
    Provisioner throws nothing and returns [undefined]; with no [links], it
    throws the [TypeError] and the creation-failed line is printed. *)
Lemma missing_href_is_not_what_the_claim_says :
  createBitbucketRepo Example.no_href ExecSyncVariant "demo" (start Example.no_href) =
  (Ret None,
   requested (JObj [("username"%string, JStr "user"); ("token"%string, JStr "secret")])
     "demo" (start Example.no_href)) /\
  fst (createBitbucketRepo Example.no_links ExecSyncVariant "demo"
         (start Example.no_links)) =
  Throw (new_TypeError "Cannot read properties of undefined (reading 'html')") /\
  In (Stderr, [str Msg.creation_failed;
               str "Cannot read properties of undefined (reading 'html')"])
     (st_console (snd (createBitbucketRepo Example.no_links ExecSyncVariant "demo"
                         (start Example.no_links)))).
Proof.
  split; [vm_compute; reflexivity |].
  split; [vm_compute; reflexivity |].
  vm_compute. auto.
Qed.

(** C9 (amended) on the two worlds. *)
Lemma href_read_on_two_responses :
  (exists msg,
     createBitbucketRepo Example.no_links ExecSyncVariant "demo"
       (start Example.no_links) =
     (Throw (new_TypeError msg),
      log_line (Stderr, [str Msg.creation_failed; str msg])
        (requested
           (JObj [("username"%string, JStr "user"); ("token"%string, JStr "secret")])
           "demo" (start Example.no_links)))) /\
  createBitbucketRepo Example.no_href ExecSyncVariant "demo" (start Example.no_href) =
  (Ret None,
   requested (JObj [("username"%string, JStr "user"); ("token"%string, JStr "secret")])
     "demo" (start Example.no_href)).
Proof.
  split.
  - apply (proj1 (provisioner_reads_href_inside_try Example.no_links ExecSyncVariant
                    (start Example.no_links) "demo" Example.credentials_text
                    (JObj [("username"%string, JStr "user");
                           ("token"%string, JStr "secret")])
                    (mkResponse 201 (JObj []))
                    ltac:(vm_compute; reflexivity) ltac:(vm_compute; reflexivity)
                    ltac:(vm_compute; reflexivity) ltac:(vm_compute; reflexivity)
                    ltac:(vm_compute; reflexivity))).
    left. reflexivity.
  - apply (proj2 (provisioner_reads_href_inside_try Example.no_href ExecSyncVariant
                    (start Example.no_href) "demo" Example.credentials_text
                    (JObj [("username"%string, JStr "user");
                           ("token"%string, JStr "secret")])
                    (mkResponse 201 (JObj [("links"%string,
                                            JObj [("html"%string, JObj [])])]))
                    ltac:(vm_compute; reflexivity) ltac:(vm_compute; reflexivity)
                    ltac:(vm_compute; reflexivity) ltac:(vm_compute; reflexivity)
                    ltac:(vm_compute; reflexivity))
             (JObj [])).
    + reflexivity.
    + discriminate.
Defined.





(** * Further properties of the script *)

(** ** The Repository Provisioner and the requests of a run *)

Lemma provision_run (W : world) (v : variant) (projectDir : string) (s : state) :
  provision W v projectDir s =
  match createBitbucketRepo W v projectDir (log_line (Stdout, [str Msg.creating]) s) with
  | (Ret url, s') => (Ret url, log_line (Stdout, [str Msg.created; url]) s')
  | (Throw e, s') => (Exit 1, log_line (Stderr, [str Msg.cannot_create]) s')
  | (Exit c, s') => (Exit c, s')
  end.
Proof.
  unfold provision, bind, try_catch, console_log, console_error, process_exit, ret.
  destruct (createBitbucketRepo W v projectDir _) as [[url | e | c] s']; reflexivity.
Qed.

Lemma failed_provision_run (W : world) (v : variant) e s' :
  createBitbucketRepo W v (w_answer W)
    (log_line (Stdout, [str Msg.creating]) (initial_state W)) = (Throw e, s') ->
  run W v = (Exit 1, log_line (Stderr, [str Msg.cannot_create]) s').
Proof.
  intro H. unfold run, main, bind. rewrite provision_run, H. reflexivity.
Qed.

(** X1. A response with a status outside [200, 300): the Provisioner
    rethrows the error of axios after one line on stderr, the
    creation-failed text followed by the message the body reports under
    [error.message] when that is a non-empty string, and by the message of
    axios when the body reports none (or an empty one).  The run then exits
    with code 1 after the read and the request, and nothing else. *)
Theorem refused_request_reports_remote_message
    (W : world) (v : variant) (text : string) (c : value) (r : http_response) :
  w_read W (cred_path (initial_state W)) = inl text ->
  Json.parse text = Some c ->
  valid_credentials c = true ->
  w_http W (create_request (auth_of c) (w_answer W)) = inl r ->
  accepted r = false ->
  (forall s,
      st_cwd s = w_cwd W ->
      createBitbucketRepo W v (w_answer W) s =
      (Throw (status_error r),
       log_line (Stderr, [str Msg.creation_failed; remote_message (status_error r)])
         (requested c (w_answer W) s))) /\
  (forall m,
      get_opt (get_opt (Some (resp_data r)) "error") "message" = Some (JStr m) ->
      m <> EmptyString ->
      remote_message (status_error r) = str m) /\
  (Js.truthy (get_opt (get_opt (Some (resp_data r)) "error") "message") = false ->
   remote_message (status_error r) =
   str ("Request failed with status code " ++
        Num.toString (Num.of_Z (resp_status r)))%string) /\
  fst (run W v) = Exit 1 /\
  st_trace (snd (run W v)) =
    [Read (cred_path (initial_state W));
     Request (create_request (auth_of c) (w_answer W))] /\
  In (Stderr, [str Msg.creation_failed; remote_message (status_error r)])
     (st_console (snd (run W v))).
Proof.
  intros Hr Hp Hv Hh Ha.
  assert (forall s, st_cwd s = w_cwd W ->
            createBitbucketRepo W v (w_answer W) s =
            (Throw (status_error r),
             log_line (Stderr, [str Msg.creation_failed;
                                remote_message (status_error r)])
               (requested c (w_answer W) s))) as Hcreate.
  { intros s Hs.
    assert (cred_path s = cred_path (initial_state W)) as Hpath
      by (unfold cred_path; rewrite Hs; reflexivity).
    apply run_eq, wp_createBitbucketRepo; rewrite ?Hpath.
    - intros e Hr'. congruence.
    - intros text' Hr' Hp'. congruence.
    - intros text' c' e Hr' Hp' Hv'. congruence.
    - intros text' c' e Hr' Hp' Hv' Hf.
      assert (c' = c) by congruence. subst c'.
      destruct Hf as [Hf | [[r' [Hf [Ha' ->]]] | [r' [msg [Hf [Ha' _]]]]]].
      + congruence.
      + assert (r' = r) by congruence. subst r'. auto.
      + assert (r' = r) by congruence. congruence.
    - intros text' c' r' h' Hr' Hp' Hv' Hh' Ha' _ _.
      assert (c' = c) by congruence. subst c'.
      assert (r' = r) by congruence. congruence. }
  split; [exact Hcreate |].
  split; [| split].
  - intros m Hm Hne. unfold remote_message, status_error. cbn [err_response].
    rewrite Hm. cbn [Js.truthy]. rewrite (is_empty_false _ Hne). reflexivity.
  - intro Hf. unfold remote_message. cbn [status_error err_response err_message].
    rewrite Hf. reflexivity.
  - rewrite (failed_provision_run W v _ _
               (Hcreate (log_line (Stdout, [str Msg.creating]) (initial_state W))
                  eq_refl)).
    cbn [fst snd]. split; [reflexivity |]. split; [reflexivity |].
    destruct v; cbn; auto.
Qed.

(** X2. Whatever the world answers, a run sends at most one request, and
    only after it has read credentials in which [token] and [username] are
    both truthy: the request is the POST to the fixed root followed by the
    identifier, with the header made of these credentials and the fixed
    payload.  In particular no run sends the PUT of the Permission
    Updater. *)
Theorem requests_need_valid_credentials (W : world) (v : variant) :
  (length (requests_of (st_trace (snd (run W v)))) <= 1)%nat /\
  forall req,
    In (Request req) (st_trace (snd (run W v))) ->
    exists text c,
      w_read W (cred_path (initial_state W)) = inl text /\
      Json.parse text = Some c /\
      valid_credentials c = true /\
      req = mkRequest "POST" (api_root ++ w_answer W)
              [("Authorization", "Basic " ++ auth_of c);
               ("Content-Type", "application/json")]%string
              (JObj [("scm", JStr "git"); ("is_private", JBool true);
                     ("project", JObj [("key", JStr "DAT")])]%string).
Proof.
  change (wp (main W v) (initial_state W)
            (fun _ s' =>
               (length (requests_of (st_trace s')) <= 1)%nat /\
               forall req,
                 In (Request req) (st_trace s') ->
                 exists text c,
                   w_read W (cred_path (initial_state W)) = inl text /\
                   Json.parse text = Some c /\
                   valid_credentials c = true /\
                   req = create_request (auth_of c) (w_answer W))).
  unfold main. apply wp_bind, wp_provision, wp_createBitbucketRepo.
  - intros e Hr. wp_simpl. destruct v; cbn; (split; [lia |]);
      intros req Hin; in_trace Hin; contradiction.
  - intros text Hr Hp. wp_simpl. destruct v; cbn; (split; [lia |]);
      intros req Hin; in_trace Hin; contradiction.
  - intros text c e Hr Hp Hv _. wp_simpl. cbn. split; [lia |].
    intros req Hin; in_trace Hin; contradiction.
  - intros text c e Hr Hp Hv _. wp_simpl. cbn. split; [lia |].
    intros req Hin. in_trace Hin; [| contradiction].
    injection Hin as <-. exists text, c. auto.
  - intros text c r h Hr Hp Hv Hh Ha Hhtml Hn. wp_simpl.
    destruct (workspace_is_local W v (w_answer W) (get_opt (Some h) "href")
                (log_line (Stdout, [str Msg.created; get_opt (Some h) "href"])
                   (requested c (w_answer W)
                      (log_line (Stdout, [str Msg.creating]) (initial_state W)))))
      as [t [Ht Ft]].
    assert (requests_of t = []) as Hnone.
    { clear Ht. induction Ft as [| e t He _ IH]; [reflexivity |].
      unfold requests_of in *. cbn [flat_map]. rewrite IH.
      destruct e; try reflexivity; discriminate. }
    unfold wp. rewrite Ht. state_simpl. split.
    + unfold requests_of in *. cbn [flat_map app]. rewrite Hnone. cbn. lia.
    + intros req [H | [H | H]]; try discriminate.
      * injection H as <-. exists text, c. auto.
      * rewrite Forall_forall in Ft. specialize (Ft _ H). discriminate.
Qed.

(** ** The Credential Loader: what it accepts *)

Lemma load_checked (W : world) (v : variant) (s : state) (text : string) (c : value) :
  w_read W (cred_path s) = inl text ->
  Json.parse text = Some c ->
  load_credentials W v s = check_credentials c (cred_read s).
Proof.
  intros Hr Hp.
  rewrite (surjective_pairing (check_credentials c (cred_read s))).
  apply run_eq, wp_load_credentials.
  - intros e Hr'. congruence.
  - intros text' Hr' Hp'. congruence.
  - intros text' c' Hr' Hp'.
    assert (c' = c) by congruence. subst c'. unfold wp. auto.
Qed.

(** X3. What the Loader makes of a credentials file that parses, in both
    variants.  An object is accepted exactly when its [token] and its
    [username] are truthy: the empty string, [0], [false], [null] and a
    missing field are refused with the invalid-format error, while any
    other value is accepted, a string or not, and the object is returned
    as parsed.  A text that parses to a number, a string, a boolean or an
    array is refused with the same error; [null] makes the test itself
    throw a [TypeError].  Nothing is printed in any of these cases. *)
Theorem loader_accepts_truthy_fields
    (W : world) (v : variant) (s : state) (text : string) (c : value) :
  w_read W (cred_path s) = inl text ->
  Json.parse text = Some c ->
  (forall o,
      c = JObj o ->
      load_credentials W v s =
      (if Js.truthy (Obj.lookup o "token") && Js.truthy (Obj.lookup o "username")
       then Ret c else Throw (new_Error Msg.incomplete),
       cred_read s)) /\
  (forall o k,
      c = JObj o -> (k = "token" \/ k = "username")%string ->
      Obj.lookup o k = None \/ Obj.lookup o k = Some JNull \/
      Obj.lookup o k = Some (JStr EmptyString) \/
      Obj.lookup o k = Some (JBool false) \/
      Obj.lookup o k = Some (JNum Num.zero) ->
      load_credentials W v s = (Throw (new_Error Msg.incomplete), cred_read s)) /\
  ((exists n, c = JNum n) \/ (exists t, c = JStr t) \/ (exists b, c = JBool b) \/
   (exists l, c = JArr l) ->
   load_credentials W v s = (Throw (new_Error Msg.incomplete), cred_read s)) /\
  (c = JNull ->
   load_credentials W v s =
   (Throw (new_TypeError "Cannot read properties of null (reading 'token')"),
    cred_read s)) /\
  st_console (snd (load_credentials W v s)) = st_console s.
Proof.
  intros Hr Hp. rewrite (load_checked W v s text c Hr Hp).
  assert (forall o, c = JObj o ->
            check_credentials c (cred_read s) =
            (if Js.truthy (Obj.lookup o "token") &&
                Js.truthy (Obj.lookup o "username")
             then Ret c else Throw (new_Error Msg.incomplete), cred_read s)) as Hobj.
  { intros o ->. unfold check_credentials, bind, get_prop, ret, throw.
    destruct (Js.truthy (Obj.lookup o "token")); cbn [negb andb]; [| reflexivity].
    destruct (Js.truthy (Obj.lookup o "username")); reflexivity. }
  split; [exact Hobj |]. split; [| split; [| split]].
  - intros o k Hc Hk Hfalsy. rewrite (Hobj o Hc).
    assert (Js.truthy (Obj.lookup o k) = false) as Hf
      by (destruct Hfalsy as [-> | [-> | [-> | [-> | ->]]]]; reflexivity).
    destruct Hk as [-> | ->]; rewrite Hf; [reflexivity |].
    rewrite andb_false_r. reflexivity.
  - intros [[n ->] | [[t ->] | [[b ->] | [l ->]]]]; reflexivity.
  - intros ->. reflexivity.
  - destruct c as [| b | n | t | l | o]; try reflexivity.
    rewrite (Hobj o eq_refl). reflexivity.
Qed.

(** X4. A read of the credentials file that fails for another reason than
    a missing file (an error whose [code] is not ENOENT and that is no
    [SyntaxError], a refused permission for instance): the Loader prints
    the read-error text followed by the message of the error, after the
    file-missing text of [getBitbucketCredentials] in the first variant,
    and rethrows the error; the run exits with code 1 and sends no
    request. *)
Theorem loader_reports_other_read_errors
    (W : world) (v : variant) (e : js_error) :
  w_read W (cred_path (initial_state W)) = inr e ->
  err_code e <> Some "ENOENT"%string ->
  err_class e <> SyntaxError ->
  (forall s,
      st_cwd s = w_cwd W ->
      load_credentials W v s =
      (Throw e,
       log_line (Stderr, [str Msg.read_error; str (err_message e)])
         (loader_log v (cred_read s)))) /\
  fst (run W v) = Exit 1 /\
  st_trace (snd (run W v)) = [Read (cred_path (initial_state W))] /\
  st_console (snd (run W v)) =
    [(Stdout, [str Msg.creating])] ++
    match v with
    | ExecSyncVariant => [(Stderr, [str Msg.loader_failed])]
    | ZxVariant => []
    end ++
    [(Stderr, [str Msg.read_error; str (err_message e)]);
     (Stderr, [str Msg.cannot_create])].
Proof.
  intros Hr Hcode Hclass.
  assert (credentials_diagnostic e = [str Msg.read_error; str (err_message e)])
    as Hd.
  { unfold credentials_diagnostic.
    destruct (err_code e) as [code |].
    - destruct (String.eqb_spec code "ENOENT") as [-> | _]; [congruence |].
      destruct (err_class e); try reflexivity. congruence.
    - destruct (err_class e); try reflexivity. congruence. }
  assert (forall s, st_cwd s = w_cwd W ->
            load_credentials W v s =
            (Throw e,
             log_line (Stderr, [str Msg.read_error; str (err_message e)])
               (loader_log v (cred_read s)))) as Hload.
  { intros s Hs.
    assert (cred_path s = cred_path (initial_state W)) as Hpath
      by (unfold cred_path; rewrite Hs; reflexivity).
    apply run_eq, wp_load_credentials; rewrite ?Hpath.
    - intros e' Hr'. assert (e' = e) by congruence. subst e'.
      rewrite Hd. auto.
    - intros text Hr' _. congruence.
    - intros text c Hr' _. congruence. }
  split; [exact Hload |].
  assert (createBitbucketRepo W v (w_answer W)
            (log_line (Stdout, [str Msg.creating]) (initial_state W)) =
          (Throw e,
           log_line (Stderr, [str Msg.read_error; str (err_message e)])
             (loader_log v
                (cred_read (log_line (Stdout, [str Msg.creating])
                              (initial_state W)))))) as Hcreate.
  { unfold createBitbucketRepo, bind.
    rewrite (Hload (log_line (Stdout, [str Msg.creating]) (initial_state W))
               eq_refl).
    reflexivity. }
  rewrite (failed_provision_run W v _ _ Hcreate).
  destruct v; repeat split; reflexivity.
Qed.

(** ** The Permission Updater on an empty name *)

(** X5. With credentials it accepts and the empty string for a name, the
    Permission Updater throws the repository-name-required error before it
    looks at [permission]: this holds in any scope, whether the two free
    identifiers are bound or not, and no request is sent, the credentials
    file has been read and that is all. *)
Theorem permission_updater_requires_repository_name
    (W : world) (v : variant) (sc : scope) (s : state) (text : string) (c : value) :
  w_read W (cred_path s) = inl text ->
  Json.parse text = Some c ->
  valid_credentials c = true ->
  updateBitbucketRepoPermissions W v sc EmptyString s =
  (Throw (new_Error Msg.repo_name_required), cred_read s) /\
  st_trace (snd (updateBitbucketRepoPermissions W v sc EmptyString s)) =
  st_trace s ++ [Read (cred_path s)].
Proof.
  intros Hr Hp Hv.
  assert (updateBitbucketRepoPermissions W v sc EmptyString s =
          (Throw (new_Error Msg.repo_name_required), cred_read s)) as H.
  { unfold updateBitbucketRepoPermissions, bind.
    rewrite (load_ok W v s text c Hr Hp Hv). reflexivity. }
  split; [exact H |]. rewrite H. reflexivity.
Qed.

(** ** The Manifest Customizer: missing keys, other shapes, second runs *)

Definition named (k : string) : Prop := Obj.index_of k = None.

Lemma set_named (o : Obj.props) k v :
  named k ->
  Obj.set o k v = if Obj.has o k then Obj.replace o k v else o ++ [(k, v)].
Proof. unfold Obj.set, named. intros ->. reflexivity. Qed.

Lemma lookup_app_absent (o l : Obj.props) k :
  Obj.has o k = false -> Obj.lookup (o ++ l) k = Obj.lookup l k.
Proof.
  unfold Obj.has. induction o as [| [k0 v0] o IH]; cbn; [reflexivity |].
  destruct (String.eqb k0 k); [discriminate | exact IH].
Qed.

Lemma lookup_app_present (o l : Obj.props) k :
  Obj.has o k = true -> Obj.lookup (o ++ l) k = Obj.lookup o k.
Proof.
  unfold Obj.has. induction o as [| [k0 v0] o IH]; cbn; [discriminate |].
  destruct (String.eqb k0 k); [reflexivity | exact IH].
Qed.

(** Reading after a write: the key written holds the value, every other key
    what it held. *)
Lemma lookup_set_named (o : Obj.props) k v k' :
  named k ->
  Obj.lookup (Obj.set o k v) k' =
  if String.eqb k k' then Some v else Obj.lookup o k'.
Proof.
  intro Hk. rewrite (set_named o k v Hk). destruct (Obj.has o k) eqn:Hh.
  - rewrite lookup_replace, Hh. reflexivity.
  - destruct (String.eqb_spec k k') as [<- | Hne].
    + rewrite (lookup_app_absent _ _ _ Hh). cbn. rewrite String.eqb_refl.
      reflexivity.
    + destruct (Obj.has o k') eqn:Hh'.
      * apply lookup_app_present, Hh'.
      * rewrite (lookup_app_absent _ _ _ Hh'). cbn.
        rewrite (proj2 (String.eqb_neq _ _) Hne).
        unfold Obj.has in Hh'. destruct (Obj.lookup o k'); [discriminate | reflexivity].
Qed.

Lemma keys_set_named (o : Obj.props) k v :
  named k ->
  Obj.keys (Obj.set o k v) = Obj.keys o ++ (if Obj.has o k then [] else [k]).
Proof.
  intro Hk. rewrite (set_named o k v Hk). unfold Obj.keys.
  destruct (Obj.has o k).
  - rewrite keys_replace, app_nil_r. reflexivity.
  - rewrite map_app. reflexivity.
Qed.

Lemma set_wf (o : Obj.props) k v :
  Json.wf (JObj o) = true -> Json.wf v = true ->
  Json.wf (JObj (Obj.set o k v)) = true.
Proof.
  cbn [Json.wf]. intros H Hv. apply andb_prop in H as [Hk Ho].
  rewrite (set_canonical _ _ _ Hk). cbn [andb].
  apply forallb_forall. apply Forall_forall.
  apply (set_values (fun kv => Json.wf (snd kv) = true)); [auto |].
  apply forallb_true_Forall, Ho.
Qed.

Lemma replace_replace (o : Obj.props) k v v' :
  Obj.replace (Obj.replace o k v) k v' = Obj.replace o k v'.
Proof.
  induction o as [| [k0 v0] o IH]; cbn; [reflexivity |].
  destruct (String.eqb k0 k) eqn:Hk; cbn; rewrite Hk; [reflexivity |].
  rewrite IH. reflexivity.
Qed.

Lemma replace_comm (o : Obj.props) a b x y :
  a <> b ->
  Obj.replace (Obj.replace o a x) b y = Obj.replace (Obj.replace o b y) a x.
Proof.
  intro Hne. induction o as [| [k0 v0] o IH]; cbn; [reflexivity |].
  destruct (String.eqb k0 a) eqn:Ha; destruct (String.eqb k0 b) eqn:Hb; cbn;
    rewrite ?Ha, ?Hb; try reflexivity.
  - apply String.eqb_eq in Ha, Hb. congruence.
  - rewrite IH. reflexivity.
Qed.

Lemma replace_same (o : Obj.props) k v :
  Obj.lookup o k = Some v -> Obj.replace o k v = o.
Proof.
  induction o as [| [k0 v0] o IH]; cbn; [reflexivity |].
  destruct (String.eqb k0 k).
  - intro H. injection H as ->. reflexivity.
  - intro H. rewrite (IH H). reflexivity.
Qed.

Lemma replace_absent (o : Obj.props) k v :
  Obj.has o k = false -> Obj.replace o k v = o.
Proof.
  unfold Obj.has. induction o as [| [k0 v0] o IH]; cbn; [reflexivity |].
  destruct (String.eqb k0 k); [discriminate |]. intro H. rewrite (IH H). reflexivity.
Qed.

Lemma replace_app_absent (o l : Obj.props) k v :
  Obj.has o k = false -> Obj.replace (o ++ l) k v = o ++ Obj.replace l k v.
Proof.
  unfold Obj.has. induction o as [| [k0 v0] o IH]; cbn; [reflexivity |].
  destruct (String.eqb k0 k); [discriminate |]. intro H. rewrite (IH H). reflexivity.
Qed.

(** A second write of a key overrides the first and leaves the key where
    the first write put it. *)
Lemma replace_after_set (o : Obj.props) k v v' :
  named k -> Obj.replace (Obj.set o k v) k v' = Obj.set o k v'.
Proof.
  intro Hk. rewrite !(set_named o k _ Hk). destruct (Obj.has o k) eqn:Hh.
  - apply replace_replace.
  - rewrite (replace_app_absent _ _ _ _ Hh). cbn. rewrite String.eqb_refl.
    reflexivity.
Qed.

Lemma has_set_named (o : Obj.props) k v k' :
  named k -> Obj.has (Obj.set o k v) k' = Obj.has o k' || String.eqb k k'.
Proof.
  intro Hk. unfold Obj.has at 1. rewrite (lookup_set_named o k v k' Hk).
  unfold Obj.has. destruct (String.eqb k k'); [apply eq_sym, orb_true_r |].
  rewrite orb_false_r. reflexivity.
Qed.

Lemma named_keys : named "name" /\ named "figdata" /\ named "id".
Proof. repeat split; reflexivity. Qed.

(** The object after the two writes, whether the keys were there or not. *)
Definition rewritten (o f : Obj.props) (identifier : string) : Obj.props :=
  Obj.set (Obj.set o "name" (JStr identifier)) "figdata"
    (JObj (Obj.set f "id" (JStr identifier))).

Lemma customized_object (o f : Obj.props) (identifier : string) :
  Obj.lookup o "figdata" = Some (JObj f) ->
  customized (JObj o) identifier = Ret (JObj (rewritten o f identifier)).
Proof.
  intro Hf. unfold customized, customize, bind, assign_prop, get_prop, ret.
  cbn [fst snd].
  rewrite (lookup_set_named o "name" _ "figdata" (proj1 named_keys)).
  change (String.eqb "name" "figdata") with false. cbv iota. rewrite Hf.
  reflexivity.
Qed.

Lemma rewritten_wf (o f : Obj.props) (identifier : string) :
  Json.wf (JObj o) = true ->
  Obj.lookup o "figdata" = Some (JObj f) ->
  Json.wf (JObj (rewritten o f identifier)) = true.
Proof.
  intros Hwf Hf. unfold rewritten.
  apply set_wf; [apply set_wf; trivial |].
  apply set_wf; [apply (lookup_wf _ _ _ Hwf Hf) | reflexivity].
Qed.

(** *** Values after a round trip *)

(** The properties of an object, each value read back. *)
Definition settled (o : Obj.props) : Obj.props :=
  map (fun kv => (fst kv, Json.settle (snd kv))) o.

Lemma lookup_settled (o : Obj.props) k :
  Obj.lookup (settled o) k = option_map Json.settle (Obj.lookup o k).
Proof.
  unfold settled.
  induction o as [| [k' v] o IH]; cbn [map Obj.lookup fst snd]; [reflexivity |].
  destruct (String.eqb k' k); [reflexivity | exact IH].
Qed.

Lemma has_settled (o : Obj.props) k : Obj.has (settled o) k = Obj.has o k.
Proof. unfold Obj.has. rewrite lookup_settled. destruct (Obj.lookup o k); reflexivity. Qed.

Lemma replace_settled (o : Obj.props) k v :
  settled (Obj.replace o k v) = Obj.replace (settled o) k (Json.settle v).
Proof.
  unfold settled.
  induction o as [| [k' v'] o IH]; cbn [map Obj.replace fst snd]; [reflexivity |].
  destruct (String.eqb k' k); cbn [map fst snd]; [reflexivity |].
  rewrite IH. reflexivity.
Qed.

Lemma insert_index_settled i k v (o : Obj.props) :
  settled (Obj.insert_index i k v o) =
  Obj.insert_index i k (Json.settle v) (settled o).
Proof.
  unfold settled.
  induction o as [| [k' v'] o IH]; cbn [map Obj.insert_index fst snd];
    [reflexivity |].
  destruct (Obj.index_of k') as [j |]; [| reflexivity].
  destruct (j <? i)%N; cbn [map fst snd]; [| reflexivity].
  rewrite IH. reflexivity.
Qed.

Lemma set_settled (o : Obj.props) k v :
  settled (Obj.set o k v) = Obj.set (settled o) k (Json.settle v).
Proof.
  unfold Obj.set. rewrite has_settled. destruct (Obj.has o k).
  - apply replace_settled.
  - destruct (Obj.index_of k) as [i |].
    + apply insert_index_settled.
    + unfold settled. rewrite map_app. reflexivity.
Qed.

Lemma rewritten_settled (o f : Obj.props) (identifier : string) :
  settled (rewritten o f identifier) = rewritten (settled o) (settled f) identifier.
Proof.
  unfold rewritten. rewrite !set_settled. cbn [Json.settle].
  fold (settled (Obj.set f "id" (JStr identifier))). rewrite set_settled.
  reflexivity.
Qed.

(** An infinite number and [null] are written alike. *)
Lemma serialize_settle (gap indent : string) (v : value) :
  Json.serialize gap indent (Json.settle v) = Json.serialize gap indent v.
Proof.
  revert indent. induction v using value_nested_ind; intro indent;
    cbn [Json.settle Json.serialize]; try reflexivity.
  - destruct (num_infinite n) eqn:Hi; cbn [Json.serialize]; [| rewrite Hi];
      reflexivity.
  - f_equal. rewrite map_map.
    induction H as [| x l Hx _ IH]; [reflexivity |]. cbn [map].
    rewrite Hx. f_equal. exact IH.
  - f_equal. rewrite map_map.
    induction H as [| kv m Hx _ IH]; [reflexivity |]. cbn [map fst snd].
    rewrite Hx. f_equal. exact IH.
Qed.

Lemma stringify_settle (v : value) (space : nat) :
  Json.stringify (Json.settle v) space = Json.stringify v space.
Proof. apply serialize_settle. Qed.

Lemma set_finite (o : Obj.props) k v :
  Json.finite (JObj o) = true -> Json.finite v = true ->
  Json.finite (JObj (Obj.set o k v)) = true.
Proof.
  cbn [Json.finite]. intros Ho Hv.
  apply forallb_forall. apply Forall_forall.
  apply (set_values (fun kv => Json.finite (snd kv) = true)); [auto |].
  apply forallb_true_Forall, Ho.
Qed.

Lemma rewritten_finite (o f : Obj.props) (identifier : string) :
  Json.finite (JObj o) = true ->
  Obj.lookup o "figdata" = Some (JObj f) ->
  Json.finite (JObj (rewritten o f identifier)) = true.
Proof.
  intros Hfin Hf. unfold rewritten.
  apply set_finite; [apply set_finite; trivial |].
  apply set_finite; [apply (lookup_finite _ _ _ Hfin Hf) | reflexivity].
Qed.


(** What the Customizer can work on: an object whose [figdata] is an
    object or an array. *)
Definition customizable (pkg : value) : bool :=
  match pkg with
  | JObj o =>
      match Obj.lookup o "figdata" with
      | Some (JObj _) | Some (JArr _) => true
      | _ => false
      end
  | _ => false
  end.

(** X7. A manifest that parses to anything but an object whose [figdata]
    is an object or an array: the Customizer throws a [TypeError] and writes
    nothing, the file is only read.  When [figdata] is missing the error is
    the one of a write on [undefined], when it is [null] the one of a write
    on [null].  When [figdata] is an array the write of [id] does not
    throw, but an array is serialized by its elements only: the file is
    written with the new [name] and with [figdata] as it was. *)
Theorem customizer_needs_a_figdata_object
    (W : world) (pkgPath identifier text : string) (s : state) (pkg : value) :
  w_read W (path_resolve (st_cwd s) pkgPath) = inl text ->
  Json.parse text = Some pkg ->
  (customizable pkg = false ->
   exists msg,
     customize_manifest W pkgPath identifier s =
     (Throw (new_TypeError msg),
      log_event (Read (path_resolve (st_cwd s) pkgPath)) s)) /\
  (forall o,
      pkg = JObj o -> Obj.lookup o "figdata" = None ->
      fst (customize_manifest W pkgPath identifier s) =
      Throw (new_TypeError "Cannot set properties of undefined (setting 'id')")) /\
  (forall o,
      pkg = JObj o -> Obj.lookup o "figdata" = Some JNull ->
      fst (customize_manifest W pkgPath identifier s) =
      Throw (new_TypeError "Cannot set properties of null (setting 'id')")) /\
  (forall o l,
      pkg = JObj o -> Obj.lookup o "figdata" = Some (JArr l) ->
      st_trace (snd (customize_manifest W pkgPath identifier s)) =
      st_trace s ++
      [Read (path_resolve (st_cwd s) pkgPath);
       Sys (Write (path_resolve (st_cwd s) pkgPath)
              (Json.stringify (JObj (Obj.set o "name" (JStr identifier))) 2))]).
Proof.
  intros Hread Hparse.
  assert (forall r,
            customized pkg identifier = r ->
            customize_manifest W pkgPath identifier s =
            match r with
            | Ret pkg' =>
                (match w_sys W (Write (path_resolve (st_cwd s) pkgPath)
                                  (Json.stringify pkg' 2)) with
                 | None => Ret tt
                 | Some e => Throw e
                 end,
                 log_event (Sys (Write (path_resolve (st_cwd s) pkgPath)
                                   (Json.stringify pkg' 2)))
                   (log_event (Read (path_resolve (st_cwd s) pkgPath)) s))
            | Throw e => (Throw e, log_event (Read (path_resolve (st_cwd s) pkgPath)) s)
            | Exit code => (Exit code, log_event (Read (path_resolve (st_cwd s) pkgPath)) s)
            end) as Hrun.
  { intros r Hr. destruct r as [pkg' | e | code].
    - apply (customize_manifest_run W pkgPath identifier text s pkg pkg'); assumption.
    - unfold customize_manifest, bind at 1 2 3.
      unfold readFileSync, bind, process_cwd, emit. rewrite Hread. unfold ret.
      unfold JSON_parse. rewrite Hparse. unfold ret.
      rewrite customize_run, Hr. reflexivity.
    - unfold customize_manifest, bind at 1 2 3.
      unfold readFileSync, bind, process_cwd, emit. rewrite Hread. unfold ret.
      unfold JSON_parse. rewrite Hparse. unfold ret.
      rewrite customize_run, Hr. reflexivity. }
  assert (forall o, pkg = JObj o ->
            customized pkg identifier =
            match Obj.lookup o "figdata" with
            | Some fig =>
                match fst (assign_prop (Some fig) "id" (JStr identifier)
                             (mkState EmptyString [] [])) with
                | Ret fig' =>
                    Ret (JObj (Obj.set (Obj.set o "name" (JStr identifier))
                                 "figdata" fig'))
                | Throw e => Throw e
                | Exit code => Exit code
                end
            | None =>
                Throw (new_TypeError
                         "Cannot set properties of undefined (setting 'id')")
            end) as Hobj.
  { intros o ->. unfold customized, customize, bind.
    cbn [assign_prop ret get_prop fst snd].
    rewrite (lookup_set_named o "name" _ "figdata" (proj1 named_keys)).
    change (String.eqb "name" "figdata") with false. cbv iota.
    destruct (Obj.lookup o "figdata") as [[| b | n | t | l | f] |]; reflexivity. }
  split; [| split; [| split]].
  - intro Hc.
    assert (exists msg, customized pkg identifier = Throw (new_TypeError msg)) as [msg Hm].
    { destruct pkg as [| b | n | t | l | o]; try (eexists; reflexivity).
      rewrite (Hobj o eq_refl). cbn [customizable] in Hc.
      destruct (Obj.lookup o "figdata") as [[| b | n | t | l | f] |];
        try discriminate; eexists; reflexivity. }
    exists msg. apply (Hrun _ Hm).
  - intros o Ho Hf. rewrite (Hrun _ (Hobj o Ho)), Hf. reflexivity.
  - intros o Ho Hf. rewrite (Hrun _ (Hobj o Ho)), Hf. reflexivity.
  - intros o l Ho Hf. rewrite (Hrun _ (Hobj o Ho)), Hf.
    cbn [assign_prop ret fst snd log_event st_trace].
    rewrite (set_named _ "figdata" _ (proj1 (proj2 named_keys))).
    rewrite has_set_named by apply named_keys.
    unfold Obj.has at 1. rewrite Hf. cbn [orb].
    rewrite replace_same.
    + rewrite <- app_assoc. reflexivity.
    + rewrite lookup_set_named by apply named_keys. exact Hf.
Qed.

Lemma set_set_named (o : Obj.props) k v v' :
  named k -> Obj.set (Obj.set o k v) k v' = Obj.set o k v'.
Proof.
  intro Hk. rewrite (set_present (Obj.set o k v)).
  - apply replace_after_set, Hk.
  - rewrite has_set_named by exact Hk. rewrite String.eqb_refl. apply orb_true_r.
Qed.

(** Customizing what was customized: the second identifier is the one that
    stays. *)
Lemma rewritten_twice (o f : Obj.props) (id1 id2 : string) :
  Obj.lookup o "figdata" = Some (JObj f) ->
  rewritten (rewritten o f id1) (Obj.set f "id" (JStr id1)) id2 = rewritten o f id2.
Proof.
  intro Hf. destruct named_keys as (Hname & Hfigdata & Hid).
  assert (Obj.has o "figdata" = true) as Hh
    by (unfold Obj.has; rewrite Hf; reflexivity).
  assert (forall n, Obj.has (Obj.set o "name" n) "figdata" = true) as Hh1
    by (intro n; rewrite has_set_named by exact Hname; rewrite Hh; reflexivity).
  unfold rewritten. rewrite (set_set_named f "id" _ _ Hid).
  rewrite (set_present _ "figdata" _ (Hh1 (JStr id1))).
  rewrite (set_present (Obj.replace _ _ _) "name").
  - rewrite replace_comm by discriminate.
    rewrite (replace_after_set o "name" _ _ Hname).
    rewrite (set_present (Obj.replace _ _ _) "figdata").
    + rewrite replace_replace. symmetry. apply set_present, Hh1.
    + unfold Obj.has. rewrite lookup_replace, String.eqb_refl, Hh1. reflexivity.
  - unfold Obj.has. rewrite lookup_replace.
    change (String.eqb "figdata" "name") with false. cbv iota.
    rewrite lookup_set_named by exact Hname. reflexivity.
Qed.

Lemma lookup_rewritten_figdata (o f : Obj.props) (identifier : string) :
  Obj.lookup (rewritten o f identifier) "figdata" =
  Some (JObj (Obj.set f "id" (JStr identifier))).
Proof.
  unfold rewritten. rewrite lookup_set_named by apply named_keys.
  rewrite String.eqb_refl. reflexivity.
Qed.

(** X8. Running the Customizer on the file it wrote.  For a manifest that
    parses to an object whose [figdata] is an object, the first run writes
    a text; a second run that reads this text, from any path and in any
    world, writes with the same identifier the very same text, and with
    another identifier the text that the first run would have written with
    that identifier: the last identifier is the one that stays, and
    nothing else drifts from one run to the next. *)
Theorem customizer_settles_after_one_run
    (W : world) (pkgPath id1 text : string) (s : state) (o f : Obj.props) :
  w_read W (path_resolve (st_cwd s) pkgPath) = inl text ->
  Json.parse text = Some (JObj o) ->
  Obj.lookup o "figdata" = Some (JObj f) ->
  exists content : string -> string,
    (forall identifier,
        st_trace (snd (customize_manifest W pkgPath identifier s)) =
        st_trace s ++
        [Read (path_resolve (st_cwd s) pkgPath);
         Sys (Write (path_resolve (st_cwd s) pkgPath) (content identifier))]) /\
    (forall (W2 : world) (path2 id2 : string) (s2 : state),
        w_read W2 (path_resolve (st_cwd s2) path2) = inl (content id1) ->
        st_trace (snd (customize_manifest W2 path2 id2 s2)) =
        st_trace s2 ++
        [Read (path_resolve (st_cwd s2) path2);
         Sys (Write (path_resolve (st_cwd s2) path2) (content id2))]).
Proof.
  intros Hread Hparse Hfig.
  pose proof (parse_wf _ _ Hparse) as Hwf.
  exists (fun identifier => Json.stringify (JObj (rewritten o f identifier)) 2).
  split.
  - intro identifier.
    rewrite (customize_manifest_run W pkgPath identifier text s _ _ Hread Hparse
               (customized_object o f identifier Hfig)).
    cbn [snd log_event st_trace]. rewrite <- app_assoc. reflexivity.
  - intros W2 path2 id2 s2 Hread2.
    pose proof (parse_stringify _ 2 (rewritten_wf o f id1 Hwf Hfig)) as Hparse2.
    cbn [Json.settle] in Hparse2. fold (settled (rewritten o f id1)) in Hparse2.
    rewrite rewritten_settled in Hparse2.
    assert (Obj.lookup (settled o) "figdata" = Some (JObj (settled f))) as Hfig'
      by (rewrite lookup_settled, Hfig; reflexivity).
    pose proof (customized_object _ _ id2
                  (lookup_rewritten_figdata (settled o) (settled f) id1)) as Hc.
    rewrite (rewritten_twice (settled o) (settled f) id1 id2 Hfig') in Hc.
    rewrite (customize_manifest_run W2 path2 id2 _ s2 _ _ Hread2 Hparse2 Hc).
    cbn [snd log_event st_trace]. rewrite <- app_assoc.
    rewrite <- rewritten_settled.
    change (JObj (settled (rewritten o f id2)))
      with (Json.settle (JObj (rewritten o f id2))).
    rewrite stringify_settle. reflexivity.
Qed.

(** X9. The Customizer never writes a text it has not derived from the
    file it read: whatever the world, it reads the manifest once and then
    either stops with an error, or writes once, to the path it read, the
    serialization of the parsed manifest after its two writes.  It prints
    nothing and leaves the working directory where it was. *)
Theorem customizer_writes_what_it_parsed
    (W : world) (pkgPath identifier : string) (s : state) :
  st_cwd (snd (customize_manifest W pkgPath identifier s)) = st_cwd s /\
  st_console (snd (customize_manifest W pkgPath identifier s)) = st_console s /\
  ((st_trace (snd (customize_manifest W pkgPath identifier s)) =
      st_trace s ++ [Read (path_resolve (st_cwd s) pkgPath)] /\
    exists e, fst (customize_manifest W pkgPath identifier s) = Throw e) \/
   (exists text pkg pkg',
       w_read W (path_resolve (st_cwd s) pkgPath) = inl text /\
       Json.parse text = Some pkg /\
       customized pkg identifier = Ret pkg' /\
       st_trace (snd (customize_manifest W pkgPath identifier s)) =
         st_trace s ++
         [Read (path_resolve (st_cwd s) pkgPath);
          Sys (Write (path_resolve (st_cwd s) pkgPath) (Json.stringify pkg' 2))] /\
       fst (customize_manifest W pkgPath identifier s) =
         match w_sys W (Write (path_resolve (st_cwd s) pkgPath)
                          (Json.stringify pkg' 2)) with
         | None => Ret tt
         | Some e => Throw e
         end)).
Proof.
  destruct (w_read W (path_resolve (st_cwd s) pkgPath)) as [text | e] eqn:Hread.
  - destruct (Json.parse text) as [pkg |] eqn:Hparse.
    + destruct (customized pkg identifier) as [pkg' | e | code] eqn:Hc.
      * rewrite (customize_manifest_run W pkgPath identifier text s pkg pkg'
                   Hread Hparse Hc).
        cbn [fst snd log_event st_cwd st_console st_trace].
        split; [reflexivity |]. split; [reflexivity |]. right.
        exists text, pkg, pkg'. rewrite <- app_assoc. auto.
      * assert (customize_manifest W pkgPath identifier s =
                (Throw e, log_event (Read (path_resolve (st_cwd s) pkgPath)) s)) as ->.
        { unfold customize_manifest, bind at 1 2 3.
          unfold readFileSync, bind, process_cwd, emit. rewrite Hread. unfold ret.
          unfold JSON_parse. rewrite Hparse. unfold ret.
          rewrite customize_run, Hc. reflexivity. }
        cbn. split; [reflexivity |]. split; [reflexivity |]. left. eauto.
      * exfalso. revert Hc. unfold customized, customize, bind.
        destruct pkg as [| b | n | t | l | o]; cbn; try discriminate.
        destruct (Obj.lookup _ "figdata") as [[| b | n | t | l | f] |]; discriminate.
    + assert (customize_manifest W pkgPath identifier s =
              (Throw (new_SyntaxError (w_syntax W text)),
               log_event (Read (path_resolve (st_cwd s) pkgPath)) s)) as ->.
      { unfold customize_manifest, bind at 1 2 3.
        unfold readFileSync, bind, process_cwd, emit. rewrite Hread. unfold ret.
        unfold JSON_parse. rewrite Hparse. reflexivity. }
      cbn. split; [reflexivity |]. split; [reflexivity |]. left. eauto.
  - assert (customize_manifest W pkgPath identifier s =
            (Throw e, log_event (Read (path_resolve (st_cwd s) pkgPath)) s)) as ->.
    { unfold customize_manifest, bind at 1 2 3.
      unfold readFileSync, bind, process_cwd, emit. rewrite Hread. reflexivity. }
    cbn. split; [reflexivity |]. split; [reflexivity |]. left. eauto.
Qed.

(** ** Whole runs *)

(** X10. A run of the first variant that reaches its end has done, in this
    order and each once: the read of the credentials, the request, the
    clone into the identifier, the removal of the [.git] directory of the
    clone, the change into the project directory, [git init], the
    registration of the URL the Provisioner returned, the read and the
    write of [package.json] there, and the change back.  The identifier
    and the URL stand in the command lines as they are, unquoted.  The
    console holds the five lines of a successful run, all on stdout. *)
Theorem successful_run_of_first_variant (W : world) :
  fst (run W ExecSyncVariant) = Ret tt ->
  exists (c : value) (url : jsval) (content : string),
    valid_credentials c = true /\
    st_trace (snd (run W ExecSyncVariant)) =
      [Read (path_resolve (w_cwd W) credentials_path);
       Request (create_request (auth_of c) (w_answer W));
       ExecSync ("git clone --depth 1 " ++ template_repository ++ " " ++ w_answer W);
       Sys (shell_op (w_cwd W)
              ("git clone --depth 1 " ++ template_repository ++ " " ++ w_answer W));
       Sys (Remove (path_resolve (w_cwd W) (w_answer W ++ "/.git")));
       Sys (Enter (path_resolve (w_cwd W) (w_answer W)));
       ExecSync "git init";
       Sys (Spawn (path_resolve (w_cwd W) (w_answer W)) ["git"; "init"]);
       ExecSync ("git remote add origin " ++ Js.ToString url);
       Sys (shell_op (path_resolve (w_cwd W) (w_answer W))
              ("git remote add origin " ++ Js.ToString url));
       Read (path_resolve (path_resolve (w_cwd W) (w_answer W)) "package.json");
       Sys (Write (path_resolve (path_resolve (w_cwd W) (w_answer W)) "package.json")
              content);
       Sys (Enter (path_resolve (path_resolve (w_cwd W) (w_answer W)) (w_cwd W)))]%string /\
    st_console (snd (run W ExecSyncVariant)) =
      [(Stdout, [str Msg.creating]); (Stdout, [str Msg.created; url]);
       (Stdout, [str Msg.cloning]); (Stdout, [str Msg.customizing]);
       (Stdout, [str Msg.done])].
Proof.
  change (wp (main W ExecSyncVariant) (initial_state W)
            (fun res s' =>
               res = Ret tt ->
               exists (c : value) (url : jsval) (content : string),
                 valid_credentials c = true /\
                 st_trace s' =
                 [Read (path_resolve (w_cwd W) credentials_path);
                  Request (create_request (auth_of c) (w_answer W));
                  ExecSync ("git clone --depth 1 " ++ template_repository ++ " " ++ w_answer W);
                  Sys (shell_op (w_cwd W)
                         ("git clone --depth 1 " ++ template_repository ++ " " ++ w_answer W));
                  Sys (Remove (path_resolve (w_cwd W) (w_answer W ++ "/.git")));
                  Sys (Enter (path_resolve (w_cwd W) (w_answer W)));
                  ExecSync "git init";
                  Sys (Spawn (path_resolve (w_cwd W) (w_answer W)) ["git"; "init"]);
                  ExecSync ("git remote add origin " ++ Js.ToString url);
                  Sys (shell_op (path_resolve (w_cwd W) (w_answer W))
                         ("git remote add origin " ++ Js.ToString url));
                  Read (path_resolve (path_resolve (w_cwd W) (w_answer W)) "package.json");
                  Sys (Write (path_resolve (path_resolve (w_cwd W) (w_answer W)) "package.json")
                         content);
                  Sys (Enter (path_resolve (path_resolve (w_cwd W) (w_answer W)) (w_cwd W)))]%string /\
                 st_console s' =
                 [(Stdout, [str Msg.creating]); (Stdout, [str Msg.created; url]);
                  (Stdout, [str Msg.cloning]); (Stdout, [str Msg.customizing]);
                  (Stdout, [str Msg.done])])).
  unfold main. apply wp_bind, wp_provision, wp_createBitbucketRepo.
  1-4: intros; wp_simpl; discriminate.
  intros text c r h Hr Hp Hv Hh Ha Hhtml Hn. wp_simpl.
  cbn [workspace]. wp_explore; intro Hret; try discriminate Hret.
  exists c, (get_opt (Some h) "href"). eexists.
  split; [exact Hv |]. split; reflexivity.
Qed.


(** X12. An accepted response whose [links.html] has no [href] does not
    stop the run: the Provisioner returns [undefined], the created line is
    printed with it, the clone is attempted, and a run that reaches its end
    has registered the origin [undefined]: the first variant has given the
    shell the line that ends in [undefined], the second has called zx with
    [undefined] as the URL, and has started git with the word [undefined]
    when the identifier does not start with [-] (the registration follows
    the [cd] in the same shell line). *)
Theorem absent_href_registers_undefined
    (W : world) (v : variant) (text : string) (c : value)
    (r : http_response) (h : value) :
  w_read W (cred_path (initial_state W)) = inl text ->
  Json.parse text = Some c ->
  valid_credentials c = true ->
  w_http W (create_request (auth_of c) (w_answer W)) = inl r ->
  accepted r = true ->
  html_of r = Some h -> h <> JNull ->
  get_opt (Some h) "href" = None ->
  In (Stdout, [str Msg.created; None]) (st_console (snd (run W v))) /\
  In (match v with
      | ExecSyncVariant =>
          ExecSync ("git clone --depth 1 " ++ template_repository ++ " " ++ w_answer W)
      | ZxVariant => Zx clone_template [str (w_answer W)]
      end) (st_trace (snd (run W v))) /\
  (fst (run W v) = Ret tt ->
   In (match v with
       | ExecSyncVariant => ExecSync "git remote add origin undefined"
       | ZxVariant => Zx init_template [str (w_answer W); None]
       end) (st_trace (snd (run W v))) /\
   (v = ZxVariant -> is_option (w_answer W) = false ->
    In (Sys (Spawn (path_resolve (w_cwd W) (w_answer W))
               ["git"; "remote"; "add"; "origin"; "undefined"]%string))
       (st_trace (snd (run W v))))).
Proof.
  intros Hr Hp Hv Hh Ha Hhtml Hn Hhref.
  change (wp (main W v) (initial_state W)
            (fun res s' =>
               In (Stdout, [str Msg.created; None]) (st_console s') /\
               In (match v with
                   | ExecSyncVariant =>
                       ExecSync ("git clone --depth 1 " ++ template_repository ++ " " ++ w_answer W)
                   | ZxVariant => Zx clone_template [str (w_answer W)]
                   end) (st_trace s') /\
               (res = Ret tt ->
                In (match v with
                    | ExecSyncVariant => ExecSync "git remote add origin undefined"
                    | ZxVariant => Zx init_template [str (w_answer W); None]
                    end) (st_trace s') /\
                (v = ZxVariant -> is_option (w_answer W) = false ->
                 In (Sys (Spawn (path_resolve (w_cwd W) (w_answer W))
                            ["git"; "remote"; "add"; "origin"; "undefined"]%string))
                    (st_trace s'))))).
  unfold main. apply wp_bind, wp_provision, wp_createBitbucketRepo.
  - intros e Hr'. state_simpl. congruence.
  - intros text' Hr' Hp'. state_simpl. congruence.
  - intros text' c' e Hr' Hp' Hv'. state_simpl. congruence.
  - intros text' c' e Hr' Hp' Hv' Hf. state_simpl.
    assert (c' = c) by congruence. subst c'.
    destruct Hf as [Hf | [[r' [Hf [Ha' _]]] | [r' [msg [Hf [_ [Hm _]]]]]]].
    + congruence.
    + assert (r' = r) by congruence. congruence.
    + assert (r' = r) by congruence. subst r'.
      destruct Hm as [Hm | Hm]; rewrite Hhtml in Hm; congruence.
  - intros text' c' r' h' Hr' Hp' Hv' Hh' Ha' Hhtml' Hn'. state_simpl.
    assert (c' = c) by congruence. subst c'.
    assert (r' = r) by congruence. subst r'.
    assert (h' = h) by congruence. subst h'.
    wp_simpl. rewrite Hhref.
    destruct v; cbn [workspace]; wp_explore;
      (split; [cbn [In]; auto |]);
      (split; [cbn [In]; auto 6 |]);
      intro Hret; try discriminate Hret;
      (split; [cbn [In]; auto 12 |]);
      intros Hvariant Hword; try discriminate Hvariant; try congruence;
      cbn [In]; auto 12.
Qed.

Lemma customized_is_not_exit (pkg : value) (identifier : string) (code : Z) :
  customized pkg identifier <> Exit code.
Proof.
  unfold customized, customize, bind.
  destruct pkg as [| b | n | t | l | o]; cbn; try discriminate.
  destruct (Obj.lookup _ "figdata") as [[| b | n | t | l | f] |]; discriminate.
Qed.

(** X13. The last line of the script tells the truth: the line that
    announces the project is on the console exactly when the run reached
    its end, and [process.exit] is never called with another code than
    1. *)
Theorem success_line_means_success (W : world) (v : variant) :
  (In (Stdout, [str Msg.done]) (st_console (snd (run W v))) <->
   fst (run W v) = Ret tt) /\
  (forall code, fst (run W v) = Exit code -> code = 1%Z).
Proof.
  change (wp (main W v) (initial_state W)
            (fun res s' =>
               (In (Stdout, [str Msg.done]) (st_console s') <-> res = Ret tt) /\
               (forall code, res = Exit code -> code = 1%Z))).
  assert (forall e, ~ In (Stdout, [str Msg.done])
                      [(Stdout, [str Msg.creating]); (Stderr, credentials_diagnostic e);
                       (Stderr, [str Msg.cannot_create])]) as Hd1
    by (intros e Hin; in_trace Hin; contradiction).
  unfold main. apply wp_bind, wp_provision, wp_createBitbucketRepo.
  1-4: intros; wp_simpl; state_simpl;
       (split; [split; [let Hin := fresh "Hin" in
                        intro Hin; destruct v; in_trace Hin; contradiction
                       | discriminate]
               | intros; congruence]).
  intros text c r h Hr Hp Hv Hh Ha Hhtml Hn. wp_simpl.
  destruct v; cbn [workspace]; wp_explore;
    try (exfalso; eapply customized_is_not_exit; eassumption);
    (split; [split; [let Hin := fresh "Hin" in
                     intro Hin; in_trace Hin; try contradiction; reflexivity
                    | let Hret := fresh "Hret" in
                      intro Hret; try discriminate Hret; cbn [In]; auto 12]
            | intros; congruence]).
Qed.

(** ** What a run touches *)

(** The [.git] directory the run removes and the manifest it rewrites, as
    each variant names them. *)
Definition git_directory (W : world) (v : variant) : string :=
  match v with
  | ExecSyncVariant => path_resolve (w_cwd W) (w_answer W ++ "/.git")
  | ZxVariant => path_resolve (path_resolve (w_cwd W) (w_answer W)) ".git"
  end.

Definition manifest_path (W : world) (v : variant) : string :=
  match v with
  | ExecSyncVariant =>
      path_resolve (path_resolve (w_cwd W) (w_answer W)) "package.json"
  | ZxVariant => path_resolve (w_cwd W) (w_answer W ++ "/package.json")
  end.

(** What an event of a run may be: a read of the credentials or of the
    manifest, a request, a call of the shell, a start of git, the removal
    of the [.git] directory of the project, a change into the project
    directory or back, a write of the manifest; and, left to the shell, a
    line of the first variant that holds more than plain words, or the
    second line of the second variant when the identifier is an option. *)
Definition accounted (W : world) (v : variant) (e : event) : Prop :=
  match e with
  | Read p => p = path_resolve (w_cwd W) credentials_path \/ p = manifest_path W v
  | Request _ | ExecSync _ | Zx _ _ => True
  | Sys (Spawn _ argv) => exists rest, argv = ("git"%string :: rest)
  | Sys (Shell _ line) => v = ExecSyncVariant /\ plain_line line = false
  | Sys (Script _ _) => v = ZxVariant /\ is_option (w_answer W) = true
  | Sys (Remove p) => p = git_directory W v
  | Sys (Enter p) =>
      p = project_directory W \/
      p = path_resolve (project_directory W) (w_cwd W)
  | Sys (Write p _) => p = manifest_path W v
  end.

(** A command line that starts with the word [git] starts git when it is
    made of plain words, and is left to the shell otherwise. *)
Lemma git_line_is_a_command (dir line rest : string) :
  line = ("git " ++ rest)%string ->
  (exists ws, shell_op dir line = Spawn dir ("git"%string :: ws)) \/
  (plain_line line = false /\ shell_op dir line = Shell dir line).
Proof.
  intros ->. unfold shell_op.
  destruct (plain_line ("git " ++ rest)); [left | right; split; reflexivity].
  change (Str.words ("git " ++ rest))
    with ("git"%string :: Str.words_aux EmptyString rest).
  rewrite classify_git. eexists. reflexivity.
Qed.

Lemma git_line_is_accounted (W : world) (dir line rest : string) :
  line = ("git " ++ rest)%string ->
  accounted W ExecSyncVariant (Sys (shell_op dir line)).
Proof.
  intro H.
  destruct (git_line_is_a_command dir line rest H) as [[ws ->] | [Hl ->]]; cbn.
  - eexists. reflexivity.
  - split; [reflexivity | exact Hl].
Qed.

Ltac touched :=
  lazymatch goal with
  | |- accounted _ _ (Sys (shell_op _ _)) =>
      eapply git_line_is_accounted; reflexivity
  | |- accounted _ _ (Read _) =>
      first [ left; reflexivity | right; reflexivity ]
  | |- accounted _ _ (Sys (Remove _)) => reflexivity
  | |- accounted _ _ (Sys (Write _ _)) => reflexivity
  | |- accounted _ _ (Sys (Enter _)) =>
      first [ left; reflexivity | right; reflexivity ]
  | |- accounted _ _ (Sys (Spawn _ _)) => cbn; eexists; reflexivity
  | |- accounted _ _ (Sys (Script _ _)) => split; [reflexivity | assumption]
  | |- _ => exact I
  end.


(** ** The further properties on concrete runs *)

(** A world in which every file holds [text], the request is accepted and
    nothing fails. *)
Definition with_file (text : string) : world :=
  mkWorld "/work" "demo" (fun _ => inl text)
    (fun _ => Example.created
                (Example.repository (JStr "https://bitbucket.org/lefigaro/demo")))
    (fun _ => None) Example.syntax_message.

(** The API refuses the name. *)
Definition name_taken : string :=
  "Repository with this Slug and Owner already exists.".

Definition refusing : world :=
  Example.make (Some Example.credentials_text) "demo"
    (inl (mkResponse 400
            (JObj [("error", JObj [("message", JStr name_taken)])]%string)))
    Example.nothing_fails.

(** The credentials file cannot be opened. *)
Definition EACCES : js_error :=
  mkError PlainError "EACCES: permission denied" (Some "EACCES"%string) None.

Definition unreadable : world :=
  mkWorld "/work" "demo" (fun _ => inr EACCES)
    (fun _ => Example.created
                (Example.repository (JStr "https://bitbucket.org/lefigaro/demo")))
    (fun _ => None) Example.syntax_message.

Definition demo_credentials : value :=
  JObj [("username", JStr "user"); ("token", JStr "secret")]%string.

(** X1 where the API answers 400 with a message. *)
Lemma refused_name_is_reported :
  fst (run refusing ExecSyncVariant) = Exit 1 /\
  In (Stderr, [str Msg.creation_failed; str name_taken])
     (st_console (snd (run refusing ExecSyncVariant))).
Proof.
  assert (Json.parse Example.credentials_text = Some demo_credentials) as Hp
    by (vm_compute; reflexivity).
  destruct (refused_request_reports_remote_message refusing ExecSyncVariant
              Example.credentials_text demo_credentials
              (mkResponse 400
                 (JObj [("error", JObj [("message", JStr name_taken)])]%string))
              eq_refl Hp eq_refl eq_refl eq_refl)
    as (_ & Hm & _ & Hexit & _ & Hin).
  split; [exact Hexit |].
  rewrite (Hm name_taken eq_refl ltac:(discriminate)) in Hin. exact Hin.
Defined.

(** A credentials file whose token is written as the literal [token]. *)
Definition credentials_with_token (token : string) : string :=
  "{" ++ Str.q ++ "username" ++ Str.q ++ ":" ++ Str.q ++ "user" ++ Str.q ++ "," ++
  Str.q ++ "token" ++ Str.q ++ ":" ++ token ++ "}".

(** X2 on a token beyond the range of the doubles: it is read as
    [Infinity], which is truthy, and sent as such. *)
Lemma infinite_token_is_sent_as_Infinity :
  exists c,
    Json.parse (credentials_with_token "1e400") = Some c /\
    auth_of c = Js.base64 "user:Infinity" /\
    In (Request (create_request (auth_of c) "demo"))
       (st_trace (snd (run (with_file (credentials_with_token "1e400"))
                         ExecSyncVariant))).
Proof.
  assert (Json.parse (credentials_with_token "1e400") =
          Some (JObj [("username", JStr "user");
                      ("token", JNum (Num.infinity false))])) as Hp0
    by (vm_compute; reflexivity).
  assert (In (Request (create_request (Js.base64 "user:Infinity") "demo"))
             (st_trace (snd (run (with_file (credentials_with_token "1e400"))
                               ExecSyncVariant)))) as Hin
    by (vm_compute; auto).
  destruct (proj2 (requests_need_valid_credentials
                     (with_file (credentials_with_token "1e400")) ExecSyncVariant)
              _ Hin) as (text & c & Hr & Hp & _ & _).
  injection Hr as <-.
  assert (Some c = Some (JObj [("username", JStr "user");
                               ("token", JNum (Num.infinity false))])) as Hc
    by (rewrite <- Hp; vm_compute; reflexivity).
  injection Hc as ->.
  eexists. split; [exact Hp0 |]. split; [vm_compute; reflexivity | exact Hin].
Defined.

(** X3 on credentials whose token is below every double: it is read as
    [0]. *)
Lemma underflowing_token_is_refused :
  load_credentials (with_file (credentials_with_token "1e-400"))
    ZxVariant (mkState "/work" [] []) =
  (Throw (new_Error Msg.incomplete),
   mkState "/work" [] [Read "/work/./bitbucket-credentials.json"]).
Proof.
  assert (Json.parse (credentials_with_token "1e-400") =
          Some (JObj [("username", JStr "user"); ("token", JNum Num.zero)])) as Hp
    by (vm_compute; reflexivity).
  apply (proj1 (proj2 (loader_accepts_truthy_fields
                         (with_file _) ZxVariant (mkState "/work" [] []) _ _
                         eq_refl Hp))
           [("username", JStr "user"); ("token", JNum Num.zero)] "token"
           eq_refl (or_introl eq_refl)).
  right. right. right. right. reflexivity.
Defined.

(** X4 where the credentials file cannot be opened. *)
Lemma unreadable_credentials_run :
  fst (run unreadable ZxVariant) = Exit 1 /\
  st_console (snd (run unreadable ZxVariant)) =
    [(Stdout, [str Msg.creating]);
     (Stderr, [str Msg.read_error; str "EACCES: permission denied"]);
     (Stderr, [str Msg.cannot_create])].
Proof.
  destruct (loader_reports_other_read_errors unreadable ZxVariant EACCES eq_refl
              ltac:(discriminate) ltac:(discriminate))
    as (_ & Hexit & _ & Hconsole).
  split; [exact Hexit | exact Hconsole].
Defined.

(** X5 at [updateBitbucketRepoPermissions("")] with valid credentials. *)
Lemma permission_updater_on_empty_name :
  fst (updateBitbucketRepoPermissions Example.working ExecSyncVariant
         (intended_scope "admin") EmptyString (initial_state Example.working)) =
  Throw (new_Error Msg.repo_name_required).
Proof.
  assert (Json.parse Example.credentials_text = Some demo_credentials) as Hp
    by (vm_compute; reflexivity).
  rewrite (proj1 (permission_updater_requires_repository_name
                    Example.working ExecSyncVariant (intended_scope "admin")
                    (initial_state Example.working) Example.credentials_text
                    demo_credentials eq_refl Hp eq_refl)).
  reflexivity.
Defined.

(** X6 on a manifest without [name], whose [figdata] holds no [id]. *)
Definition bare_manifest : value :=
  JObj [("version", JStr "1.0.0"); ("figdata", JObj [("kind", JStr "chart")])]%string.


(** X7 on the manifest [{}]. *)
Lemma empty_manifest_is_not_customized :
  customize_manifest (with_file "{}") "package.json" "demo" (mkState "/work" [] []) =
  (Throw (new_TypeError "Cannot set properties of undefined (setting 'id')"),
   mkState "/work" [] [Read "/work/package.json"]).
Proof.
  assert (Json.parse "{}" = Some (JObj [])) as Hp by (vm_compute; reflexivity).
  pose proof (customizer_needs_a_figdata_object (with_file "{}") "package.json"
                "demo" "{}" (mkState "/work" [] []) (JObj []) eq_refl Hp)
    as (Hnone & Hundef & _).
  destruct (Hnone eq_refl) as [msg Hmsg].
  specialize (Hundef [] eq_refl eq_refl). rewrite Hmsg in Hundef. cbn in Hundef.
  rewrite Hmsg. rewrite Hundef. reflexivity.
Defined.

(** X8 on the manifest of the template: a second run changes nothing. *)
Lemma second_run_rewrites_the_same_text :
  exists content : string,
    st_trace (snd (customize_manifest Example.working "package.json" "demo"
                     (mkState "/work/demo" [] []))) =
      [Read "/work/demo/package.json";
       Sys (Write "/work/demo/package.json" content)] /\
    st_trace (snd (customize_manifest (with_file content) "package.json" "demo"
                     (mkState "/work/demo" [] []))) =
      [Read "/work/demo/package.json";
       Sys (Write "/work/demo/package.json" content)].
Proof.
  assert (Json.parse Example.manifest_text = Some Example.template_manifest)
    as Hp by (vm_compute; reflexivity).
  destruct (customizer_settles_after_one_run Example.working "package.json" "demo"
              Example.manifest_text (mkState "/work/demo" [] []) _
              [("id", JStr "template"); ("kind", JStr "chart")]%string
              eq_refl Hp eq_refl)
    as (content & Hfirst & Hsecond).
  exists (content "demo"%string). split.
  - apply (Hfirst "demo"%string).
  - apply (Hsecond (with_file (content "demo"%string)) "package.json"%string
             "demo"%string (mkState "/work/demo" [] []) eq_refl).
Defined.

(** X10 on the working run. *)
Lemma working_run_of_first_variant :
  length (st_trace (snd (run Example.working ExecSyncVariant))) = 13 /\
  last (st_console (snd (run Example.working ExecSyncVariant))) (Stderr, []) =
  (Stdout, [str Msg.done]).
Proof.
  assert (fst (run Example.working ExecSyncVariant) = Ret tt) as Hret
    by (vm_compute; reflexivity).
  destruct (successful_run_of_first_variant Example.working Hret)
    as (c & url & content & _ & Ht & Hc).
  rewrite Ht, Hc. split; reflexivity.
Defined.


(** X12 where the response has no [href]. *)
Lemma no_href_registers_undefined :
  In (ExecSync "git remote add origin undefined")
     (st_trace (snd (run Example.no_href ExecSyncVariant))).
Proof.
  assert (Json.parse Example.credentials_text = Some demo_credentials) as Hp
    by (vm_compute; reflexivity).
  assert (fst (run Example.no_href ExecSyncVariant) = Ret tt) as Hret
    by (vm_compute; reflexivity).
  apply (proj1 (proj2 (proj2 (absent_href_registers_undefined
                                Example.no_href ExecSyncVariant
                                Example.credentials_text demo_credentials
                                (mkResponse 201
                                   (JObj [("links", JObj [("html", JObj [])])]%string))
                                (JObj []) eq_refl Hp eq_refl eq_refl eq_refl eq_refl
                                ltac:(discriminate) eq_refl))
                  Hret)).
Defined.
